(** * Arcas Platform: the guardrail (reversible redaction) engine

    Shallow embedding of [src/lib/guardrail.ts], of the mapping store of
    [src/lib/storage.ts] and of the mapping update of
    [src/contexts/ConversationContext.tsx], and the properties the
    specification states about them; then of the callers of the guardrail
    (the review dialog, the reveal state of a view, the chat view, the
    conversations and the retry loop of the chat route) and further
    properties of the code.

    JavaScript strings are sequences of UTF-16 code units; a code unit is a
    natural number here ([N]) and a string a list of code units, so that an
    index into a string is an index into the list, as in the source. *)

From Stdlib Require Import List Arith Lia NArith Bool.
From Stdlib Require Import Permutation Sorted Decimal DecimalNat.
From Stdlib Require String Ascii.
Import ListNotations.
Import String.StringSyntax.
Delimit Scope string_scope with string.

Set Implicit Arguments.

(* ================================================================== *)
(** * JavaScript strings *)
(* ================================================================== *)

Module JS.

Definition char := N.
Definition jsstring := list char.

(** The code units of an ASCII literal. *)
Definition js (s : String.string) : jsstring :=
  map Ascii.N_of_ascii (String.list_ascii_of_string s).
Arguments js s%_string.

Fixpoint str_eqb (a b : jsstring) : bool :=
  match a, b with
  | [], [] => true
  | x :: a', y :: b' => N.eqb x y && str_eqb a' b'
  | _, _ => false
  end.

(** [s.substring(a, b)]: both indices are clamped to the length and swapped
    when they come in the wrong order. *)
Definition substring (s : jsstring) (a b : nat) : jsstring :=
  let a' := Nat.min a (length s) in
  let b' := Nat.min b (length s) in
  firstn (Nat.max a' b' - Nat.min a' b') (skipn (Nat.min a' b') s).

(** [s.substring(a)]. *)
Definition substring_from (s : jsstring) (a : nat) : jsstring :=
  skipn (Nat.min a (length s)) s.

(** [p] is a prefix of [s]. *)
Fixpoint starts_with (p s : jsstring) : bool :=
  match p, s with
  | [], _ => true
  | x :: p', y :: s' => N.eqb x y && starts_with p' s'
  | _ :: _, [] => false
  end.

(** [s.includes(p)]. *)
Fixpoint includes (s p : jsstring) : bool :=
  starts_with p s ||
  match s with
  | [] => false
  | _ :: s' => includes s' p
  end.

(** Decimal rendering of a non-negative integer, as [String(n)] and template
    literals do for the indices and counters of this program. *)
Fixpoint uint_units (d : Decimal.uint) : jsstring :=
  match d with
  | Nil => []
  | D0 d => 48%N :: uint_units d
  | D1 d => 49%N :: uint_units d
  | D2 d => 50%N :: uint_units d
  | D3 d => 51%N :: uint_units d
  | D4 d => 52%N :: uint_units d
  | D5 d => 53%N :: uint_units d
  | D6 d => 54%N :: uint_units d
  | D7 d => 55%N :: uint_units d
  | D8 d => 56%N :: uint_units d
  | D9 d => 57%N :: uint_units d
  end.

Definition Number_toString (n : nat) : jsstring := uint_units (Nat.to_uint n).

(** ** [String.prototype.replaceAll] with a string pattern and a string
    replacement.

    The replacement is a template: [GetSubstitution] expands [$$] to [$],
    [$&] to the matched text, [$`] to the text before the match and [$'] to
    the text after it.  With a string pattern there are no capture groups,
    so [$1], [$<name>] and a lone [$] stand for themselves. *)

Definition DOLLAR : char := 36%N.

Fixpoint GetSubstitution (matched before after template : jsstring) : jsstring :=
  match template with
  | [] => []
  | c :: t1 =>
      match t1 with
      | [] => [c]
      | d :: t2 =>
          if N.eqb c DOLLAR then
            if N.eqb d DOLLAR then DOLLAR :: GetSubstitution matched before after t2
            else if N.eqb d 38%N then matched ++ GetSubstitution matched before after t2
            else if N.eqb d 96%N then before ++ GetSubstitution matched before after t2
            else if N.eqb d 39%N then after ++ GetSubstitution matched before after t2
            else c :: GetSubstitution matched before after t1
          else c :: GetSubstitution matched before after t1
      end
  end.

(** The scan of [replaceAll]: [rest] is what is left of [whole] from index
    [pos] on, [skip] the number of its leading code units that the previous
    match still covers.  Matches are found left to right and do not overlap;
    an empty pattern matches once before every code unit and once at the
    end. *)
Fixpoint replaceAll_scan (search repl whole : jsstring) (pos skip : nat)
    (rest : jsstring) : jsstring :=
  let subst :=
    GetSubstitution search (firstn pos whole)
      (skipn (pos + length search) whole) repl in
  match rest with
  | [] =>
      match skip, search with
      | 0, [] => subst
      | _, _ => []
      end
  | c :: rest' =>
      match skip with
      | S k => replaceAll_scan search repl whole (S pos) k rest'
      | 0 =>
          if starts_with search rest then
            match search with
            | [] => subst ++ c :: replaceAll_scan search repl whole (S pos) 0 rest'
            | _ :: _ =>
                subst ++
                replaceAll_scan search repl whole (S pos) (length search - 1) rest'
            end
          else c :: replaceAll_scan search repl whole (S pos) 0 rest'
      end
  end.

Definition replaceAll (s search repl : jsstring) : jsstring :=
  replaceAll_scan search repl s 0 0 s.

End JS.
Export JS.

(* ================================================================== *)
(** * Regular expressions *)
(* ================================================================== *)

(** The fragment of ECMAScript regular expressions the pattern registry is
    written in, and its backtracking matcher in the continuation style of
    the language specification.  None of the patterns has the [u] flag, so
    they work on code units; none has a capture group. *)

Module RegExp.

Inductive regex : Type :=
| Empty                                                (* the empty pattern *)
| Char (p : char -> bool)                              (* one code unit of a class *)
| Seq (r1 r2 : regex)                                  (* r1r2 *)
| Alt (r1 r2 : regex)                                  (* r1|r2 *)
| Repeat (r : regex) (min : nat) (max : option nat)    (* greedy r{min,max} *)
| WordBoundary                                         (* \b *)
| LookAhead (r : regex)                                (* (?=r) *)
| LookBehind (r : regex).                              (* (?<=r) *)

Definition continuation := nat -> option nat.
Definition Matcher := nat -> continuation -> option nat.

Definition in_range (lo hi : N) (c : char) : bool :=
  (N.leb lo c && N.leb c hi)%bool.

Definition is_digit (c : char) : bool := in_range 48 57 c.          (* \d *)
Definition is_upper (c : char) : bool := in_range 65 90 c.          (* A-Z *)
Definition is_lower (c : char) : bool := in_range 97 122 c.         (* a-z *)
Definition is_alpha (c : char) : bool := is_upper c || is_lower c.
Definition is_alnum (c : char) : bool := is_alpha c || is_digit c.
Definition is_word (c : char) : bool := is_alnum c || N.eqb c 95.   (* \w *)

(** [\s]: WhiteSpace and LineTerminator code units. *)
Definition is_space (c : char) : bool :=
  in_range 9 13 c || N.eqb c 32 || N.eqb c 160 || N.eqb c 5760 ||
  in_range 8192 8202 c || N.eqb c 8232 || N.eqb c 8233 || N.eqb c 8239 ||
  N.eqb c 8287 || N.eqb c 12288 || N.eqb c 65279.

Definition one_of (s : String.string) (c : char) : bool := existsb (N.eqb c) (js s).
Arguments one_of s%_string c.

(** Is the code unit at index [i] of [text] a word character?  Out of the
    string it is not. *)
Definition word_at (text : jsstring) (i : nat) : bool :=
  match nth_error text i with
  | Some c => is_word c
  | None => false
  end.

Definition is_boundary (text : jsstring) (x : nat) : bool :=
  xorb (match x with 0 => false | S x' => word_at text x' end) (word_at text x).

(** RepeatMatcher of the language specification, greedy case.  An
    iteration of an optional repetition that consumes nothing is refused,
    so once [min] is used up every further iteration advances in the text:
    [min + length text + 1] nested calls are never exceeded and [fuel] is
    set to that by [matcher]. *)
Fixpoint RepeatMatcher (fuel : nat) (m : Matcher) (min : nat) (max : option nat)
    (x : nat) (c : continuation) : option nat :=
  match fuel with
  | 0 => None
  | S fuel' =>
      match max with
      | Some 0 => c x
      | _ =>
          let d : continuation := fun y =>
            if (Nat.eqb min 0 && Nat.eqb y x)%bool then None
            else RepeatMatcher fuel' m (Nat.pred min) (option_map Nat.pred max) y c in
          match min with
          | S _ => m x d
          | 0 =>
              match m x d with
              | Some z => Some z
              | None => c x
              end
          end
      end
  end.

Definition is_some (A : Type) (o : option A) : bool :=
  match o with Some _ => true | None => false end.

(** [matcher text r x c]: match [r] in [text] from index [x] and hand the
    end index to [c]; on failure of [c] backtrack.  A lookbehind holds at
    [x] when [r] matches some stretch of the text that ends exactly at
    [x]. *)
Fixpoint matcher (text : jsstring) (r : regex) (x : nat) (c : continuation)
    {struct r} : option nat :=
  match r with
  | Empty => c x
  | Char p =>
      match nth_error text x with
      | Some ch => if p ch then c (S x) else None
      | None => None
      end
  | Seq r1 r2 => matcher text r1 x (fun y => matcher text r2 y c)
  | Alt r1 r2 =>
      match matcher text r1 x c with
      | Some z => Some z
      | None => matcher text r2 x c
      end
  | Repeat r0 min max =>
      RepeatMatcher (min + length text + 1) (matcher text r0) min max x c
  | WordBoundary => if is_boundary text x then c x else None
  | LookAhead r0 =>
      match matcher text r0 x (fun y => Some y) with
      | Some _ => c x
      | None => None
      end
  | LookBehind r0 =>
      if existsb
           (fun j => is_some (matcher text r0 j
                                (fun y => if Nat.eqb y x then Some y else None)))
           (seq 0 (S x))
      then c x else None
  end.

(** The end index of the match of [r] that starts at [x], if there is one. *)
Definition match_at (text : jsstring) (r : regex) (x : nat) : option nat :=
  matcher text r x (fun y => Some y).

(** The leftmost match among the start indices [x, x+1, ..., x+n]. *)
Fixpoint first_match (text : jsstring) (r : regex) (x n : nat) : option (nat * nat) :=
  match match_at text r x with
  | Some e => Some (x, e)
  | None =>
      match n with
      | 0 => None
      | S n' => first_match text r (S x) n'
      end
  end.

(** [regex.exec(text)] of a global ([g]) expression whose [lastIndex] is
    [lastIndex]: the match as (index, index + length), which is also the
    next [lastIndex]; [None] for [null]. *)
Definition exec (r : regex) (text : jsstring) (lastIndex : nat) : option (nat * nat) :=
  if Nat.ltb (length text) lastIndex then None
  else first_match text r lastIndex (length text - lastIndex).

(** The successive results of [while ((match = regex.exec(text)) !== null)]
    for a fresh copy of the expression.  Each result of a pattern that
    cannot match the empty string ends further to the right, so the loop is
    over after at most [length text] results (see [exec_loop_fuel]). *)
Fixpoint exec_loop (fuel : nat) (r : regex) (text : jsstring) (lastIndex : nat)
    : list (nat * nat) :=
  match fuel with
  | 0 => []
  | S fuel' =>
      match exec r text lastIndex with
      | None => []
      | Some (s, e) => (s, e) :: exec_loop fuel' r text e
      end
  end.

Definition exec_all (r : regex) (text : jsstring) : list (nat * nat) :=
  exec_loop (S (length text)) r text 0.

(** ** Pattern combinators *)

Definition chr (s : String.string) : regex := Char (one_of s).
Arguments chr s%_string.
Definition seqs (l : list regex) : regex := fold_right Seq Empty l.
Fixpoint alts (l : list regex) : regex :=
  match l with
  | [] => Empty
  | [r] => r
  | r :: l' => Alt r (alts l')
  end.
Definition star (r : regex) : regex := Repeat r 0 None.
Definition plus (r : regex) : regex := Repeat r 1 None.
Definition opt (r : regex) : regex := Repeat r 0 (Some 1).
Definition times (r : regex) (n : nat) : regex := Repeat r n (Some n).
Definition between (r : regex) (n m : nat) : regex := Repeat r n (Some m).
Definition at_least (r : regex) (n : nat) : regex := Repeat r n None.

(** A literal code unit; under the [i] flag an ASCII letter matches in both
    cases (without the [u] flag no code unit above 127 is folded onto an
    ASCII one). *)
Definition to_lower (c : char) : char := if is_upper c then (c + 32)%N else c.
Definition to_upper (c : char) : char := if is_lower c then (c - 32)%N else c.

Definition lit_units (l : jsstring) : regex :=
  seqs (map (fun c => Char (N.eqb c)) l).
Definition lit_units_i (l : jsstring) : regex :=
  seqs (map (fun c => Char (fun ch => N.eqb ch (to_lower c) || N.eqb ch (to_upper c))) l).
Definition lit (s : String.string) : regex := lit_units (js s).
Definition lit_i (s : String.string) : regex := lit_units_i (js s).
Arguments lit s%_string.
Arguments lit_i s%_string.

Definition digit : regex := Char is_digit.
Definition space : regex := Char is_space.

End RegExp.
Export RegExp.

(* ================================================================== *)
(** * The guardrail: [src/lib/guardrail.ts] *)
(* ================================================================== *)

(** ** Types ([src/types/index.ts]) *)

Inductive SensitiveInfoType : Type :=
| email | phone | credit_card | ssn | name | address | api_key | password
| username | ip_address | date_of_birth | bank_reference | medical_reference.

(** The string each member of the union type is. *)
Definition type_string (t : SensitiveInfoType) : jsstring :=
  match t with
  | email => js "email"
  | phone => js "phone"
  | credit_card => js "credit_card"
  | ssn => js "ssn"
  | name => js "name"
  | address => js "address"
  | api_key => js "api_key"
  | password => js "password"
  | username => js "username"
  | ip_address => js "ip_address"
  | date_of_birth => js "date_of_birth"
  | bank_reference => js "bank_reference"
  | medical_reference => js "medical_reference"
  end.

Definition type_eqb (a b : SensitiveInfoType) : bool :=
  str_eqb (type_string a) (type_string b).

Record SensitiveItem : Type := mkItem {
  id : jsstring;
  type : SensitiveInfoType;
  label : jsstring;
  original : jsstring;
  replacement : jsstring;
  startIndex : nat;
  endIndex : nat;
  ignored : bool
}.

Record GuardrailResult : Type := mkResult {
  hasSensitiveInfo : bool;
  items : list SensitiveItem;
  anonymizedText : jsstring
}.

Record DetectionPattern : Type := mkPattern {
  pat_type : SensitiveInfoType;
  pat_label : jsstring;
  pat_regex : regex;
  pat_prefix : jsstring
}.

(** ** The pattern registry *)

Module Patterns.

(** [äöüßÄÖÜ] *)
Definition is_umlaut (c : char) : bool :=
  N.eqb c 228 || N.eqb c 246 || N.eqb c 252 || N.eqb c 223 ||
  N.eqb c 196 || N.eqb c 214 || N.eqb c 220.

(** [[A-Za-zäöüßÄÖÜ]] *)
Definition letter (c : char) : bool := is_alpha c || is_umlaut c.
(** [[A-Za-zäöüßÄÖÜ\s]] *)
Definition letter_or_space (c : char) : bool := letter c || is_space c.
(** [[\s.-]], [[-.\s]] *)
Definition separator (c : char) : bool := is_space c || one_of ".-" c.
(** [[A-ZÀ-ÿ]] and [[a-zà-ÿ]] *)
Definition name_upper (c : char) : bool := is_upper c || in_range 192 255 c.
Definition name_lower (c : char) : bool := is_lower c || in_range 224 255 c.
(** [[\d_.-]] and [[a-zA-Z0-9_.-]] *)
Definition user_mark (c : char) : bool := is_digit c || one_of "_.-" c.
Definition user_unit (c : char) : bool := is_alnum c || one_of "_.-" c.

(** /[a-zA-Z0-9._%+-]+@[a-zA-Z0-9.-]+\.[a-zA-Z]{2,}/g *)
Definition re_email : regex :=
  seqs [ plus (Char (fun c => is_alnum c || one_of "._%+-" c)); chr "@";
         plus (Char (fun c => is_alnum c || one_of ".-" c)); chr ".";
         at_least (Char is_alpha) 2 ].

(** /\b(?:\d{4}[-\s]?){3}\d{4}\b/g *)
Definition re_credit_card : regex :=
  seqs [ WordBoundary;
         times (seqs [ times digit 4; opt (Char (fun c => one_of "-" c || is_space c)) ]) 3;
         times digit 4; WordBoundary ].

(** /\b\d{3}-\d{2}-\d{4}\b/g *)
Definition re_ssn : regex :=
  seqs [ WordBoundary; times digit 3; chr "-"; times digit 2; chr "-";
         times digit 4; WordBoundary ].

(** /\b(?:sk|api|key|token|secret)[-_][a-zA-Z0-9]{16,}\b/gi *)
Definition re_api_key : regex :=
  seqs [ WordBoundary;
         alts [ lit_i "sk"; lit_i "api"; lit_i "key"; lit_i "token"; lit_i "secret" ];
         chr "-_"; at_least (Char is_alnum) 16; WordBoundary ].

(** /(?:password|passwd|pwd|secret|credential)[\s]*[:=][\s]*\S+/gi *)
Definition re_password : regex :=
  seqs [ alts [ lit_i "password"; lit_i "passwd"; lit_i "pwd"; lit_i "secret";
                lit_i "credential" ];
         star space; chr ":="; star space;
         plus (Char (fun c => negb (is_space c))) ].

(** /\+\d{1,3}[\s.-]?(?:\d[\s.-]?){8,14}\d\b|(?:\+?1[-.\s]?)?\(?\d{3}\)?[-.\s]?\d{3}[-.\s]?\d{4}\b/g *)
Definition re_phone : regex :=
  Alt
    (seqs [ chr "+"; between digit 1 3; opt (Char separator);
            between (seqs [ digit; opt (Char separator) ]) 8 14; digit;
            WordBoundary ])
    (seqs [ opt (seqs [ opt (chr "+"); chr "1"; opt (Char separator) ]);
            opt (chr "("); times digit 3; opt (chr ")"); opt (Char separator);
            times digit 3; opt (Char separator); times digit 4; WordBoundary ]).

(** The tail shared by the European and the number-first address patterns:
    ,\s*\d{4,6}\s+[A-Za-zäöüßÄÖÜ][A-Za-zäöüßÄÖÜ\s]*(?:,\s*[A-Za-zäöüßÄÖÜ\s]+)? *)
Definition postal_city : list regex :=
  [ chr ","; star space; between digit 4 6; plus space;
    Char letter; star (Char letter_or_space);
    opt (seqs [ chr ","; star space; plus (Char letter_or_space) ]) ].

(** /\b[A-Za-zäöüßÄÖÜ][A-Za-zäöüßÄÖÜ\w]*(?:strasse|straße|platz|weg|gasse|street|road|avenue)\s+\d{1,5},\s*\d{4,6}\s+[A-Za-zäöüßÄÖÜ][A-Za-zäöüßÄÖÜ\s]*(?:,\s*[A-Za-zäöüßÄÖÜ\s]+)?/gi *)
Definition re_address_street : regex :=
  seqs ([ WordBoundary; Char letter; star (Char (fun c => letter c || is_word c));
          alts [ lit_i "strasse";
                 lit_units_i [115; 116; 114; 97; 223; 101]%N;      (* straße *)
                 lit_i "platz"; lit_i "weg"; lit_i "gasse"; lit_i "street";
                 lit_i "road"; lit_i "avenue" ];
          plus space; between digit 1 5 ] ++ postal_city).

(** /\b\d{1,5}\s+[A-Z][a-zA-ZäöüßÄÖÜ]*(?:\s+[A-Za-zäöüßÄÖÜ]+)*\s+(?:St(?:reet)?|Ave(?:nue)?|Blvd|Boulevard|Dr(?:ive)?|Rd|Road|Ln|Lane|Way|Ct|Court|Pl(?:ace)?|Cir(?:cle)?)\.?(?:\s*,?\s*[A-Z][a-zA-Z\s]*,?\s*[A-Z]{2}\s*\d{5}(?:-\d{4})?)?/g *)
Definition re_address_us : regex :=
  seqs [ WordBoundary; between digit 1 5; plus space;
         Char is_upper; star (Char letter);
         star (seqs [ plus space; plus (Char letter) ]);
         plus space;
         alts [ seqs [ lit "St"; opt (lit "reet") ];
                seqs [ lit "Ave"; opt (lit "nue") ];
                lit "Blvd"; lit "Boulevard";
                seqs [ lit "Dr"; opt (lit "ive") ];
                lit "Rd"; lit "Road"; lit "Ln"; lit "Lane"; lit "Way";
                lit "Ct"; lit "Court";
                seqs [ lit "Pl"; opt (lit "ace") ];
                seqs [ lit "Cir"; opt (lit "cle") ] ];
         opt (chr ".");
         opt (seqs [ star space; opt (chr ","); star space;
                     Char is_upper; star (Char (fun c => is_alpha c || is_space c));
                     opt (chr ","); star space; times (Char is_upper) 2;
                     star space; times digit 5;
                     opt (seqs [ chr "-"; times digit 4 ]) ]) ].

(** /\b\d{1,5}\s+[A-Za-zäöüßÄÖÜ][A-Za-zäöüßÄÖÜ\s]*,\s*\d{4,6}\s+[A-Za-zäöüßÄÖÜ][A-Za-zäöüßÄÖÜ\s]*(?:,\s*[A-Za-zäöüßÄÖÜ\s]+)?/g *)
Definition re_address_number : regex :=
  seqs ([ WordBoundary; between digit 1 5; plus space;
          Char letter; star (Char letter_or_space) ] ++ postal_city).

(** [A-ZÀ-ÿ][a-zà-ÿ]+ *)
Definition name_word : regex := seqs [ Char name_upper; plus (Char name_lower) ].

(** /\b(?:Mr|Mrs|Ms|Miss|Dr|Prof)\.?\s+[A-ZÀ-ÿ][a-zà-ÿ]+(?:\s+[A-ZÀ-ÿ][a-zà-ÿ]+)+\b/g *)
Definition re_name_title : regex :=
  seqs [ WordBoundary;
         alts [ lit "Mr"; lit "Mrs"; lit "Ms"; lit "Miss"; lit "Dr"; lit "Prof" ];
         opt (chr "."); plus space; name_word;
         plus (seqs [ plus space; name_word ]); WordBoundary ].

(** /\b[A-ZÀ-ÿ][a-zà-ÿ]+(?:\s+[A-ZÀ-ÿ][a-zà-ÿ]+)+\b(?=\s*[,.]?\s*(?:born|lives|works|can be reached|logs in|was|is|has|her|his)\b)/g *)
Definition re_name_context : regex :=
  seqs [ WordBoundary; name_word; plus (seqs [ plus space; name_word ]);
         WordBoundary;
         LookAhead
           (seqs [ star space; opt (chr ",."); star space;
                   alts [ lit "born"; lit "lives"; lit "works";
                          lit "can be reached"; lit "logs in"; lit "was";
                          lit "is"; lit "has"; lit "her"; lit "his" ];
                   WordBoundary ]) ].

(** [a-zA-Z0-9]*[\d_.-][a-zA-Z0-9_.-]{1,n}\b *)
Definition user_token (n : nat) : list regex :=
  [ star (Char is_alnum); Char user_mark; between (Char user_unit) 1 n;
    WordBoundary ].

(** /(?<=username\s+)[a-zA-Z0-9]*[\d_.-][a-zA-Z0-9_.-]{1,30}\b/gi *)
Definition re_username_after : regex :=
  seqs (LookBehind (seqs [ lit_i "username"; plus space ]) :: user_token 30).

(** /\b[a-zA-Z0-9]*[\d_.-][a-zA-Z0-9_.-]{1,30}\b(?=\s+(?:from|to|@|logs|using)\s)/gi *)
Definition re_username_before : regex :=
  seqs (WordBoundary :: user_token 30 ++
        [ LookAhead
            (seqs [ plus space;
                    alts [ lit_i "from"; lit_i "to"; lit_i "@"; lit_i "logs";
                           lit_i "using" ];
                    space ]) ]).

(** /(?<=using\s+the\s+username\s+)[a-zA-Z0-9]*[\d_.-][a-zA-Z0-9_.-]{1,29}\b/gi *)
Definition re_username_using : regex :=
  seqs (LookBehind (seqs [ lit_i "using"; plus space; lit_i "the"; plus space;
                           lit_i "username"; plus space ]) :: user_token 29).

(** 25[0-5]|2[0-4]\d|1?\d\d? *)
Definition octet : regex :=
  alts [ seqs [ lit "25"; Char (in_range 48 53) ];
         seqs [ lit "2"; Char (in_range 48 52); digit ];
         seqs [ opt (lit "1"); digit; opt digit ] ].

(** /\b(?:(?:25[0-5]|2[0-4]\d|1?\d\d?)\.){3}(?:25[0-5]|2[0-4]\d|1?\d\d?)\b/g *)
Definition re_ip_address : regex :=
  seqs [ WordBoundary; times (seqs [ octet; chr "." ]) 3; octet; WordBoundary ].

Definition month_names : list String.string :=
  [ "January"; "February"; "March"; "April"; "May"; "June"; "July"; "August";
    "September"; "October"; "November"; "December" ]%string.

(** /\b(?:born\s+on\s+)?\d{1,2}\s+(?:January|...|December)\s+\d{4}\b/gi *)
Definition re_dob_day_month : regex :=
  seqs [ WordBoundary;
         opt (seqs [ lit_i "born"; plus space; lit_i "on"; plus space ]);
         between digit 1 2; plus space; alts (map lit_i month_names);
         plus space; times digit 4; WordBoundary ].

(** /\b(?:January|...|December)\s+\d{1,2},?\s+\d{4}\b/g *)
Definition re_dob_month_day : regex :=
  seqs [ WordBoundary; alts (map lit month_names); plus space;
         between digit 1 2; opt (chr ","); plus space; times digit 4;
         WordBoundary ].

(** /\b\d{4}-\d{2}-\d{2}\b/g *)
Definition re_dob_iso : regex :=
  seqs [ WordBoundary; times digit 4; chr "-"; times digit 2; chr "-";
         times digit 2; WordBoundary ].

(** /\b\d{1,2}[./]\d{1,2}[./]\d{4}\b/g *)
Definition re_dob_numeric : regex :=
  seqs [ WordBoundary; between digit 1 2; chr "./"; between digit 1 2;
         chr "./"; times digit 4; WordBoundary ].

(** /\b(?:bank\s+account|account\s+at\s+(?:a\s+)?(?:Swiss|local|their)\s+bank)\b/gi *)
Definition re_bank_reference : regex :=
  seqs [ WordBoundary;
         alts [ seqs [ lit_i "bank"; plus space; lit_i "account" ];
                seqs [ lit_i "account"; plus space; lit_i "at"; plus space;
                       opt (seqs [ lit_i "a"; plus space ]);
                       alts [ lit_i "Swiss"; lit_i "local"; lit_i "their" ];
                       plus space; lit_i "bank" ] ];
         WordBoundary ].

(** /\b(?:health\s+insurance\s+records?|medical\s+(?:visits?|records?|history)|patient\s+information)\b/gi *)
Definition re_medical_reference : regex :=
  seqs [ WordBoundary;
         alts [ seqs [ lit_i "health"; plus space; lit_i "insurance"; plus space;
                       lit_i "record"; opt (lit_i "s") ];
                seqs [ lit_i "medical"; plus space;
                       alts [ seqs [ lit_i "visit"; opt (lit_i "s") ];
                              seqs [ lit_i "record"; opt (lit_i "s") ];
                              lit_i "history" ] ];
                seqs [ lit_i "patient"; plus space; lit_i "information" ] ];
         WordBoundary ].

End Patterns.
Import Patterns.

Definition DETECTION_PATTERNS : list DetectionPattern :=
  [ mkPattern email (js "Email Address") re_email (js "EMAIL");
    mkPattern credit_card (js "Credit Card Number") re_credit_card (js "CREDIT_CARD");
    mkPattern ssn (js "Social Security Number") re_ssn (js "SSN");
    mkPattern api_key (js "API Key") re_api_key (js "API_KEY");
    mkPattern password (js "Password / Credential") re_password (js "PASSWORD");
    mkPattern phone (js "Phone Number") re_phone (js "PHONE");
    mkPattern address (js "Physical Address") re_address_street (js "ADDRESS");
    mkPattern address (js "Physical Address") re_address_us (js "ADDRESS");
    mkPattern address (js "Physical Address") re_address_number (js "ADDRESS");
    mkPattern name (js "Personal Name") re_name_title (js "NAME");
    mkPattern name (js "Personal Name") re_name_context (js "NAME");
    mkPattern username (js "Username") re_username_after (js "USERNAME");
    mkPattern username (js "Username") re_username_before (js "USERNAME");
    mkPattern username (js "Username") re_username_using (js "USERNAME");
    mkPattern ip_address (js "IP Address") re_ip_address (js "IP_ADDRESS");
    mkPattern date_of_birth (js "Date of Birth") re_dob_day_month (js "DOB");
    mkPattern date_of_birth (js "Date of Birth") re_dob_month_day (js "DOB");
    mkPattern date_of_birth (js "Date of Birth") re_dob_iso (js "DOB");
    mkPattern date_of_birth (js "Date of Birth") re_dob_numeric (js "DOB");
    mkPattern bank_reference (js "Bank / Account Reference") re_bank_reference
      (js "BANK_REF");
    mkPattern medical_reference (js "Medical / Health Reference")
      re_medical_reference (js "MEDICAL_REF") ].

(** ** Arrays and objects *)

(** [Array.prototype.sort] with a comparator is a stable sort; [le a b]
    stands for [compare(a, b) <= 0]. *)
Section Sort.
Variable A : Type.
Variable le : A -> A -> bool.

Fixpoint insert_sorted (x : A) (l : list A) : list A :=
  match l with
  | [] => [x]
  | y :: l' => if le x y then x :: l else y :: insert_sorted x l'
  end.

Definition sort (l : list A) : list A := fold_right insert_sorted [] l.
End Sort.

(** A plain object used as a map from strings: its own properties in the
    order of their creation. *)
Module Obj.
Section Obj.
Variable V : Type.

Definition t := list (jsstring * V).

(** [o[k]] for an own property. *)
Fixpoint get (o : t) (k : jsstring) : option V :=
  match o with
  | [] => None
  | (k', v) :: o' => if str_eqb k' k then Some v else get o' k
  end.

(** Define or overwrite the own property [k]; an existing property keeps
    its place. *)
Fixpoint set (o : t) (k : jsstring) (v : V) : t :=
  match o with
  | [] => [(k, v)]
  | (k', v') :: o' =>
      if str_eqb k' k then (k', v) :: o' else (k', v') :: set o' k v
  end.

(** The array index a property name is, if it is one: the canonical
    decimal form of an integer below 2^32 - 1. *)
Definition array_index (k : jsstring) : option N :=
  match k with
  | [] => None
  | c :: k' =>
      let value := fold_left (fun acc d => (acc * 10 + (d - 48))%N) k 0%N in
      if (forallb is_digit k
          && (negb (N.eqb c 48) || match k' with [] => true | _ => false end)
          && N.leb value 4294967294)%bool
      then Some value else None
  end.

Definition index_le (a b : jsstring * V) : bool :=
  match array_index (fst a), array_index (fst b) with
  | Some i, Some j => N.leb i j
  | _, _ => true
  end.

Definition is_index (kv : jsstring * V) : bool := is_some (array_index (fst kv)).

(** [Object.entries(o)]: array indices in ascending order first, then the
    other names in creation order. *)
Definition entries (o : t) : list (jsstring * V) :=
  sort index_le (filter is_index o) ++ filter (fun kv => negb (is_index kv)) o.

(** [Object.keys(o)]. *)
Definition keys (o : t) : list jsstring := map fst (entries o).

(** Copy the own properties of [src] onto [target], as the spread
    [{...target, ...src}] does after those of [target] are in place. *)
Definition spread (target src : t) : t :=
  fold_left (fun o kv => set o (fst kv) (snd kv)) (entries src) target.
End Obj.
End Obj.

Definition ReplacementMapping := Obj.t jsstring.

(** ** Detection *)

Definition rangesOverlap (a b : nat * nat) : bool :=
  (fst a <? snd b) && (fst b <? snd a).

Definition USERNAME_BLOCKLIST : list jsstring :=
  map js
    [ "and"; "the"; "her"; "his"; "from"; "to"; "for"; "are"; "can"; "has";
      "had"; "not"; "you"; "your"; "daily"; "weekly"; "monthly"; "yearly";
      "only"; "just"; "with"; "using"; "logs"; "log"; "into"; "out"; "all";
      "any"; "new"; "old"; "own"; "see"; "way"; "how"; "who"; "what"; "when";
      "where"; "may"; "will"; "would"; "could"; "should"; "about"; "after";
      "before"; "between"; "under" ]%string.

(** [token.toLowerCase()] on the ASCII letters; the tokens the username
    patterns hand over are made of [a-zA-Z0-9_.-] only. *)
Definition toLowerCase (s : jsstring) : jsstring := map to_lower s.

Definition looksLikeUsername (token : jsstring) : bool :=
  if existsb (str_eqb (toLowerCase token)) USERNAME_BLOCKLIST then false else true.

(** [match[0].replace(/\D/g, '')] *)
Definition digits_of (s : jsstring) : jsstring := filter is_digit s.

(** The state of one scan: the three local variables of
    [detectSensitiveInfo]. *)
Record ScanState : Type := mkState {
  counters : Obj.t nat;
  scanned : list SensitiveItem;          (* [items], in the order of the pushes *)
  usedRanges : list (nat * nat)
}.

(** `[${prefix}_${n}]` *)
Definition placeholder (prefix : jsstring) (n : nat) : jsstring :=
  js "[" ++ prefix ++ js "_" ++ Number_toString n ++ js "]".

(** [getPlaceholder(prefix)]: the counter of the prefix goes up by one, from
    0 when it has none yet, and gives the placeholder its number. *)
Definition getPlaceholder (cs : Obj.t nat) (prefix : jsstring)
    : Obj.t nat * jsstring :=
  let n := match Obj.get cs prefix with Some n => n | None => 0 end + 1 in
  (Obj.set cs prefix n, placeholder prefix n).

(** `${pattern.type}-${start}-${end}` *)
Definition item_id (t : SensitiveInfoType) (s e : nat) : jsstring :=
  type_string t ++ js "-" ++ Number_toString s ++ js "-" ++ Number_toString e.

(** The body of the [while] loop for one match [(start, end)] of
    [pattern]; a [continue] leaves the state as it is. *)
Definition visit (text : jsstring) (pattern : DetectionPattern)
    (st : ScanState) (m : nat * nat) : ScanState :=
  let start := fst m in
  let end_ := snd m in
  let match0 := substring text start end_ in
  let range := (start, end_) in
  if existsb (fun r => rangesOverlap range r) (usedRanges st) then st
  else if type_eqb (pat_type pattern) ssn
          && negb (length (digits_of match0) =? 9) then st
  else if type_eqb (pat_type pattern) phone
          && ((length (digits_of match0) <? 10)
              || (15 <? length (digits_of match0))) then st
  else if type_eqb (pat_type pattern) username
          && negb (looksLikeUsername match0) then st
  else
    let (cs, repl) := getPlaceholder (counters st) (pat_prefix pattern) in
    mkState cs
      (scanned st ++
         [ mkItem (item_id (pat_type pattern) start end_) (pat_type pattern)
             (pat_label pattern) match0 repl start end_ false ])
      (usedRanges st ++ [range]).

(** One turn of [for (const pattern of DETECTION_PATTERNS)]. *)
Definition scan_pattern (text : jsstring) (st : ScanState)
    (pattern : DetectionPattern) : ScanState :=
  fold_left (visit text pattern) (exec_all (pat_regex pattern) text) st.

Definition scan (text : jsstring) (patterns : list DetectionPattern) : ScanState :=
  fold_left (scan_pattern text) patterns (mkState [] [] []).

(** ** Redaction and restoration *)

Definition applyReplacements (text : jsstring) (items : list SensitiveItem)
    : jsstring :=
  let active :=
    sort (fun a b => startIndex b <=? startIndex a)
         (filter (fun item => negb (ignored item)) items) in
  fold_left
    (fun result item =>
       substring result 0 (startIndex item) ++ replacement item ++
       substring_from result (endIndex item))
    active text.

Definition PROTO : jsstring := js "__proto__".

(** [mapping[key] = value] on an object literal with a string value: the
    name [__proto__] reaches the setter of [Object.prototype], which does
    nothing with a string; any other name becomes an own property. *)
Definition assign (mapping : ReplacementMapping) (key value : jsstring)
    : ReplacementMapping :=
  if str_eqb key PROTO then mapping else Obj.set mapping key value.

Definition buildReplacementMapping (items : list SensitiveItem)
    : ReplacementMapping :=
  fold_left
    (fun mapping item =>
       if negb (ignored item)
       then assign mapping (replacement item) (original item)
       else mapping)
    items [].

Definition restoreOriginals (text : jsstring) (mapping : ReplacementMapping)
    : jsstring :=
  fold_left
    (fun result entry => replaceAll result (fst entry) (snd entry))
    (Obj.entries mapping) text.

Definition hasMappablePlaceholders (text : jsstring)
    (mapping : ReplacementMapping) : bool :=
  if (length text =? 0) || (length (Obj.keys mapping) =? 0) then false
  else existsb (fun ph => includes text ph) (Obj.keys mapping).

Definition detectSensitiveInfo (text : jsstring) : GuardrailResult :=
  let found := scanned (scan text DETECTION_PATTERNS) in
  let items := sort (fun a b => startIndex a <=? startIndex b) found in
  mkResult (negb (length items =? 0)) items (applyReplacements text items).

(** [toggleItem] of the review dialog
    ([src/components/guardrail/GuardrailModal.tsx]). *)
Definition toggleItem (i : jsstring) (items : list SensitiveItem)
    : list SensitiveItem :=
  map (fun item =>
         if str_eqb (id item) i
         then mkItem (id item) (type item) (label item) (original item)
                (replacement item) (startIndex item) (endIndex item)
                (negb (ignored item))
         else item)
      items.


(* ================================================================== *)
(** * The mapping store and the conversations *)
(* ================================================================== *)

(** [{ ...old, ...mapping }] *)
Definition merge (old mapping : ReplacementMapping) : ReplacementMapping :=
  Obj.spread (Obj.spread [] old) mapping.

(** What [getReplacementMappings()] reads from the browser's store. *)
Definition MappingStore := Obj.t ReplacementMapping.

(** [saveReplacementMapping] of [src/lib/storage.ts], from the stored value
    to the one written back.  A conversation without a mapping has
    [undefined] spread, which adds nothing.  The name [__proto__] is no own
    property: the assignment then leaves the own properties, which are what
    is written back, as they were. *)
Definition saveReplacementMapping (all : MappingStore)
    (conversationId : jsstring) (mapping : ReplacementMapping) : MappingStore :=
  if str_eqb conversationId PROTO then all
  else
    Obj.set all conversationId
      (merge (match Obj.get all conversationId with
              | Some old => old
              | None => []
              end) mapping).

Inductive Role : Type := user | assistant.

Record Message : Type := mkMessage {
  msg_id : jsstring;
  role : Role;
  content : jsstring;
  timestamp : nat;
  originalContent : option jsstring;
  isError : option bool
}.

Record Conversation : Type := mkConversation {
  conv_id : jsstring;
  title : jsstring;
  messages : list Message;
  createdAt : nat;
  updatedAt : nat;
  replacementMappings : ReplacementMapping
}.

(** [updateReplacementMapping] of [src/contexts/ConversationContext.tsx]:
    [currentId] is [currentIdRef.current], [prev] the conversations; without
    a current conversation ([null] or the empty string) nothing changes. *)
Definition updateReplacementMapping (currentId : option jsstring)
    (mapping : ReplacementMapping) (prev : list Conversation)
    : list Conversation :=
  match currentId with
  | None => prev
  | Some cid =>
      if length cid =? 0 then prev
      else
        map (fun conv =>
               if negb (str_eqb (conv_id conv) cid) then conv
               else mkConversation (conv_id conv) (title conv) (messages conv)
                      (createdAt conv) (updatedAt conv)
                      (merge (replacementMappings conv) mapping))
            prev
  end.

(* ================================================================== *)
(** * The callers of the guardrail *)
(* ================================================================== *)

(** ** The review dialog: [src/components/guardrail/GuardrailModal.tsx] *)

Module Modal.

(** [activeCount] *)
Definition activeCount (items : list SensitiveItem) : nat :=
  length (filter (fun i => negb (ignored i)) items).

(** What a button of the dialog hands to [onConfirm]: the processed text
    and the mapping. *)
Definition handleReplaceAllAndSend (originalText : jsstring)
    (items : list SensitiveItem) : jsstring * ReplacementMapping :=
  (applyReplacements originalText items, buildReplacementMapping items).

Definition handleSendWithoutChanges (originalText : jsstring)
    : jsstring * ReplacementMapping :=
  (originalText, []).

End Modal.

(** ** The reveal state of a view: [src/hooks/useReplacementDisplay.ts] *)

Module ReplacementDisplay.

(** The two state variables of the hook. *)
Record State : Type := mkDisplay {
  replacementMapping : ReplacementMapping;
  revealed : bool
}.

(** [useState({})] and [useState(false)] *)
Definition initial : State := mkDisplay [] false.

Definition setReplacementMapping (mapping : ReplacementMapping) (s : State) : State :=
  mkDisplay mapping (revealed s).

Definition setRevealed (value : bool) (s : State) : State :=
  mkDisplay (replacementMapping s) value.

Definition applyGuardrailMapping (mapping : ReplacementMapping) (s : State) : State :=
  setRevealed false (setReplacementMapping mapping s).

Definition reset (s : State) : State :=
  setRevealed false (setReplacementMapping [] s).

Definition toggleRevealed (s : State) : State :=
  setRevealed (negb (revealed s)) s.

Definition getDisplayContent (s : State) (content : jsstring) : jsstring :=
  let contentHasMappable := hasMappablePlaceholders content (replacementMapping s) in
  if contentHasMappable && revealed s
  then restoreOriginals content (replacementMapping s)
  else content.

End ReplacementDisplay.

(** ** The chat view: [src/components/chat/ChatView.tsx] *)

Module ChatView.

(** [s.trim()]: the white space of [\s] is taken off both ends. *)
Fixpoint trimStart (s : jsstring) : jsstring :=
  match s with
  | [] => []
  | c :: s' => if is_space c then trimStart s' else s
  end.

Definition trim (s : jsstring) : jsstring :=
  List.rev (trimStart (List.rev (trimStart s))).

(** A [Set] of strings, its members in the order they were added. *)
Definition has (s : list jsstring) (x : jsstring) : bool := existsb (str_eqb x) s.
Definition add (s : list jsstring) (x : jsstring) : list jsstring :=
  if has s x then s else s ++ [x].
Definition delete (s : list jsstring) (x : jsstring) : list jsstring :=
  filter (fun y => negb (str_eqb y x)) s.

(** The updater of [toggleRevealMapped(messageId)] on [revealedMessageIds]. *)
Definition toggleRevealMapped (messageId : jsstring) (prev : list jsstring)
    : list jsstring :=
  if has prev messageId then delete prev messageId else add prev messageId.

Definition is_user (r : Role) : bool :=
  match r with user => true | assistant => false end.

Definition messageHasMappablePlaceholders (replacementMappings : ReplacementMapping)
    (msg : Message) : bool :=
  negb (is_user (role msg)) &&
  hasMappablePlaceholders (content msg) replacementMappings.

(** [a || b] on an optional string and a string: [undefined] and the empty
    string give way to [b]. *)
Definition or_else (a : option jsstring) (b : jsstring) : jsstring :=
  match a with
  | Some (c :: a') => c :: a'
  | _ => b
  end.

Definition getDisplayContent (replacementMappings : ReplacementMapping)
    (revealedMessageIds : list jsstring) (msg : Message) : jsstring :=
  if is_user (role msg) then or_else (originalContent msg) (content msg)
  else
    let hasMappable := messageHasMappablePlaceholders replacementMappings msg in
    let isRevealed := has revealedMessageIds (msg_id msg) in
    if hasMappable && isRevealed && (0 <? length (Obj.keys replacementMappings))
    then restoreOriginals (content msg) replacementMappings
    else content msg.

(** The user message [sendToAPI] adds to the conversation; [None] when it
    returns at once because the text is blank.  [newId] is what
    [generateId()] gives and [now] what [Date.now()] gives. *)
Definition userMessage (newId : jsstring) (now : nat) (anonymizedText : jsstring)
    (mapping : ReplacementMapping) (originalText : jsstring) : option Message :=
  if length (trim anonymizedText) =? 0 then None
  else
    Some (mkMessage newId user anonymizedText now
            (if 0 <? length (Obj.keys mapping) then Some originalText else None)
            None).

(** What pressing Send leads to. *)
Inductive SendStep : Type :=
| Nothing
| OpenGuardrail (text : jsstring) (items : list SensitiveItem)
| SendToAPI (anonymizedText : jsstring) (mapping : ReplacementMapping)
    (originalText : jsstring).

Definition handleSend (input : jsstring) (isLoading : bool) : SendStep :=
  if (length (trim input) =? 0) || isLoading then Nothing
  else
    let result := detectSensitiveInfo input in
    if hasSensitiveInfo result then OpenGuardrail input (items result)
    else SendToAPI input [] input.

(** [handleGuardrailConfirm]; [guardrailText] is [guardrailData?.text]. *)
Definition handleGuardrailConfirm (guardrailText : option jsstring)
    (processedText : jsstring) (mapping : ReplacementMapping) : SendStep :=
  SendToAPI processedText mapping (or_else guardrailText processedText).

(** [messages.findIndex((m) => m.id === errorMessageId)] *)
Fixpoint findIndex (i : jsstring) (messages : list Message) : option nat :=
  match messages with
  | [] => None
  | m :: rest =>
      if str_eqb (msg_id m) i then Some 0
      else option_map S (findIndex i rest)
  end.

(** The loop of [handleRetry] from index [n - 1] down to 0: the text of the
    first user message it meets. *)
Fixpoint lastUserBefore (n : nat) (messages : list Message) : option jsstring :=
  match n with
  | 0 => None
  | S i =>
      match nth_error messages i with
      | Some m =>
          if is_user (role m) then Some (or_else (originalContent m) (content m))
          else lastUserBefore i messages
      | None => None
      end
  end.

(** [handleRetry(errorMessageId)]: the text put back into the input, if
    any. *)
Definition handleRetry (errorMessageId : jsstring) (messages : list Message)
    : option jsstring :=
  match findIndex errorMessageId messages with
  | None => None
  | Some 0 => None
  | Some errorIndex => lastUserBefore errorIndex messages
  end.

End ChatView.

(** ** The conversations: [src/contexts/ConversationContext.tsx] *)

Module Conversations.

(** The conversations, [currentIdRef.current], and what was last written
    to the store by [saveConversations] and [saveCurrentConversationId]. *)
Record State : Type := mkContext {
  conversations : list Conversation;
  currentId : option jsstring;
  savedConversations : list Conversation;
  savedCurrentId : option jsstring
}.

Definition has_id (i : jsstring) (convs : list Conversation) : bool :=
  existsb (fun c => str_eqb (conv_id c) i) convs.

(** [convs[0]?.id ?? null] *)
Definition first_id (convs : list Conversation) : option jsstring :=
  match convs with
  | [] => None
  | c :: _ => Some (conv_id c)
  end.

(** A string or [null] taken as a condition. *)
Definition truthy (i : option jsstring) : bool :=
  match i with
  | Some (_ :: _) => true
  | _ => false
  end.

(** [persist(convs, id)]: what it writes. *)
Definition persist (convs : list Conversation) (i : option jsstring)
    : list Conversation * option jsstring :=
  let toSave := filter (fun c => negb (length (messages c) =? 0)) convs in
  let validId :=
    match i with
    | Some x => if truthy i && has_id x toSave then i else first_id toSave
    | None => first_id toSave
    end in
  (toSave, validId).

(** A state after an updater that sets the current id and persists. *)
Definition commit (next : list Conversation) (nextId : option jsstring) : State :=
  mkContext next nextId (fst (persist next nextId)) (snd (persist next nextId)).

Definition currentConversation (st : State) : option Conversation :=
  match currentId st with
  | Some x => find (fun c => str_eqb (conv_id c) x) (conversations st)
  | None => None
  end.


Definition selectConversation (i : jsstring) (st : State) : State :=
  let prev := conversations st in
  let current := currentConversation st in
  let next :=
    match current with
    | Some c =>
        if (length (messages c) =? 0) && negb (str_eqb i (conv_id c))
        then filter (fun c' => negb (str_eqb (conv_id c') (conv_id c))) prev
        else prev
    | None => prev
    end in
  let nextId := if has_id i next then Some i else first_id next in
  commit next nextId.

Definition deleteConversation (i : jsstring) (st : State) : State :=
  let cid := currentId st in
  let next := filter (fun c => negb (str_eqb (conv_id c) i)) (conversations st) in
  let nextId :=
    match cid with
    | Some x => if str_eqb x i then first_id next else cid
    | None => cid
    end in
  commit next nextId.

(** [message.content.slice(0, 60) + (message.content.length > 60 ? '...' : '')] *)
Definition derivedTitle (text : jsstring) : jsstring :=
  firstn 60 text ++ (if 60 <? length text then js "..." else []).

(** [addMessage(message)]; [newId] is what [generateId()] gives for a new
    conversation and [now] what [Date.now()] gives, the clock taken to
    stand still during one update. *)
Definition addMessage (message : Message) (newId : jsstring) (now : nat)
    (st : State) : State :=
  let start :=
    if truthy (currentId st) then (conversations st, currentId st)
    else
      (mkConversation newId (js "New Conversation") [] now now []
         :: conversations st,
       Some newId) in
  let list := fst start in
  let targetId := snd start in
  let updated :=
    map (fun conv =>
           if negb (match targetId with
                    | Some x => str_eqb (conv_id conv) x
                    | None => false
                    end)
           then conv
           else
             mkConversation (conv_id conv)
               (if (length (messages conv) =? 0) && ChatView.is_user (role message)
                then derivedTitle (content message) else title conv)
               (messages conv ++ [message]) (createdAt conv) now
               (replacementMappings conv))
        list in
  commit updated targetId.





End Conversations.

(** ** The chat route: [src/app/api/chat/route.ts] *)

Module ChatRoute.

Definition MAX_RETRIES : nat := 3.
Definition BASE_DELAY_MS : N := 5000.

(** What a call of the model can throw: the typed errors of the client
    library, which are [Error]s with a message, another [Error], or a value
    that is no [Error]. *)
Inductive Thrown : Type :=
| RateLimitError (message : jsstring)
| AuthenticationError (message : jsstring)
| PermissionDeniedError (message : jsstring)
| BadRequestError (message : jsstring)
| InternalServerError (message : jsstring)
| APIConnectionError (message : jsstring)
| OtherError (message : jsstring)
| NotAnError.

Definition message_of (e : Thrown) : option jsstring :=
  match e with
  | RateLimitError m | AuthenticationError m | PermissionDeniedError m
  | BadRequestError m | InternalServerError m | APIConnectionError m
  | OtherError m => Some m
  | NotAnError => None
  end.

(** [.] of a pattern: any code unit but a line terminator. *)
Definition any_unit (c : char) : bool :=
  negb (N.eqb c 10 || N.eqb c 13 || N.eqb c 8232 || N.eqb c 8233).

(** [regex.test(s)] of an expression without the [g] flag. *)
Definition test (r : regex) (s : jsstring) : bool :=
  is_some (first_match s r 0 (length s)).

(** /rate.?limit|quota/i *)
Definition re_rate_limit : regex :=
  Alt (seqs [ lit_i "rate"; opt (Char any_unit); lit_i "limit" ]) (lit_i "quota").

(** /content.?policy|safety|moderation/i *)
Definition re_content_policy : regex :=
  alts [ seqs [ lit_i "content"; opt (Char any_unit); lit_i "policy" ];
         lit_i "safety"; lit_i "moderation" ].

Definition isRateLimitError (error : Thrown) : bool :=
  match error with
  | RateLimitError _ => true
  | _ =>
      match message_of error with
      | Some m => includes m (js "429") || test re_rate_limit m
      | None => false
      end
  end.

(** The outcome of one call of the model: the response text or what it
    threw. *)
Inductive Outcome : Type :=
| Completed (response : jsstring)
| Failed (error : Thrown).

(** The result of the retry loop with the delays it slept, in order. *)
Record Run : Type := mkRun {
  result : Outcome;
  calls : nat;
  delays : list N
}.

(** The retry loop from [attempt] on, [left] being [MAX_RETRIES - attempt];
    [call k] is the outcome of the call of attempt [k]. *)
Fixpoint retry_from (left attempt : nat) (call : nat -> Outcome) : Run :=
  let delay :=
    match attempt with
    | 0 => []
    | S k => [(BASE_DELAY_MS * 2 ^ N.of_nat k)%N]
    end in
  match call attempt with
  | Completed response => mkRun (Completed response) 1 delay
  | Failed error =>
      match left with
      | 0 => mkRun (Failed error) 1 delay
      | S left' =>
          if negb (isRateLimitError error) then mkRun (Failed error) 1 delay
          else
            let rest := retry_from left' (S attempt) call in
            mkRun (result rest) (S (calls rest)) (delay ++ delays rest)
      end
  end.

Definition retry (call : nat -> Outcome) : Run := retry_from MAX_RETRIES 0 call.

(** The status and the code of the response for what the loop threw. *)
Definition errorResponse (error : Thrown) : nat * jsstring :=
  match error with
  | RateLimitError _ => (429, js "RATE_LIMITED")
  | AuthenticationError _ => (401, js "INVALID_API_KEY")
  | PermissionDeniedError _ => (403, js "FORBIDDEN")
  | BadRequestError msg =>
      if test re_content_policy msg then (400, js "CONTENT_FILTERED")
      else (400, js "BAD_REQUEST")
  | InternalServerError _ | APIConnectionError _ => (503, js "SERVICE_UNAVAILABLE")
  | _ => (500, js "SERVER_ERROR")
  end.

(** The status of the response of [POST] once the request is accepted. *)
Definition respond (call : nat -> Outcome) : nat :=
  match result (retry call) with
  | Completed _ => 200
  | Failed error => fst (errorResponse error)
  end.

End ChatRoute.

(* ================================================================== *)
(** * Notions the properties are stated with *)
(* ================================================================== *)

Definition range (it : SensitiveItem) : nat * nat := (startIndex it, endIndex it).

(** [p] occurs literally in [s]. *)
Definition occurs_in (p s : jsstring) : Prop :=
  exists pre post, s = pre ++ p ++ post.

(** A well-formed object has no two properties of the same name. *)
Definition wf_obj (V : Type) (o : Obj.t V) : Prop := NoDup (map fst o).

(** The least number of code units a match of a pattern spans. *)
Fixpoint min_len (r : regex) : nat :=
  match r with
  | Empty => 0
  | Char _ => 1
  | Seq r1 r2 => min_len r1 + min_len r2
  | Alt r1 r2 => Nat.min (min_len r1) (min_len r2)
  | Repeat r0 min max =>
      match max with
      | Some m => Nat.min min m
      | None => min
      end * min_len r0
  | WordBoundary => 0
  | LookAhead _ => 0
  | LookBehind _ => 0
  end.

(** The placeholder prefix the registry gives to a category: that of the
    first rule of the category. *)
Definition prefix_of_type (t : SensitiveInfoType) : jsstring :=
  match find (fun p => type_eqb (pat_type p) t) DETECTION_PATTERNS with
  | Some p => pat_prefix p
  | None => []
  end.

(** The items of a result that carry placeholders of one prefix. *)
Definition with_prefix (prefix : jsstring) (l : list SensitiveItem)
    : list SensitiveItem :=
  filter (fun it => str_eqb (prefix_of_type (type it)) prefix) l.

(** The items of [l] lie in [text] from index [from] on, one after the other
    and none empty. *)
Fixpoint fits (text : jsstring) (from : nat) (l : list SensitiveItem) : Prop :=
  match l with
  | [] => True
  | it :: l' =>
      from <= startIndex it /\ startIndex it < endIndex it /\
      endIndex it <= length text /\ fits text (endIndex it) l'
  end.

(** [text] from index [from] on with the range of every item of [l]
    replaced by its placeholder. *)
Fixpoint splice (text : jsstring) (from : nat) (l : list SensitiveItem)
    : jsstring :=
  match l with
  | [] => skipn from text
  | it :: l' =>
      firstn (startIndex it - from) (skipn from text) ++ replacement it ++
      splice text (endIndex it) l'
  end.

(** A bracketed token: [[body]] with no bracket inside [body]. *)
Fixpoint closes (q : jsstring) : bool :=
  match q with
  | [] => false
  | c :: q' =>
      if N.eqb c 93 then match q' with [] => true | _ :: _ => false end
      else negb (N.eqb c 91) && closes q'
  end.

Definition bracketed (p : jsstring) : bool :=
  match p with
  | [] => false
  | c :: q => N.eqb c 91 && closes q
  end.

Definition no_dollar (s : jsstring) : bool :=
  forallb (fun c => negb (N.eqb c DOLLAR)) s.

(** An item list the redaction of [text] can be undone for: all items
    active, lying in the text one after the other, each with the text of
    its range as original and a bracketed token that does not occur in the
    text as placeholder, no two placeholders equal, no [$] in an original. *)
Record restorable (text : jsstring) (l : list SensitiveItem) : Prop := mkRestorable {
  rs_active : forall it, In it l -> ignored it = false;
  rs_fits : fits text 0 l;
  rs_original : forall it, In it l ->
      original it = substring text (startIndex it) (endIndex it);
  rs_bracketed : forall it, In it l -> bracketed (replacement it) = true;
  rs_fresh : forall it, In it l -> includes text (replacement it) = false;
  rs_distinct : NoDup (map replacement l);
  rs_no_dollar : forall it, In it l -> no_dollar (original it) = true
}.

(** An item moved [k] code units to the left. *)
Definition shift (k : nat) (it : SensitiveItem) : SensitiveItem :=
  mkItem (id it) (type it) (label it) (original it) (replacement it)
    (startIndex it - k) (endIndex it - k) (ignored it).

(** ** Scenario texts *)

(** Scenario A of the specification and its two items. *)
Definition scenarioA : jsstring :=
  js "Contact me at jane.doe@example.com or call 415-555-0199".

Definition scenarioA_email : SensitiveItem :=
  mkItem (js "email-14-34") email (js "Email Address")
    (js "jane.doe@example.com") (js "[EMAIL_1]") 14 34 false.

Definition scenarioA_phone : SensitiveItem :=
  mkItem (js "phone-43-55") phone (js "Phone Number")
    (js "415-555-0199") (js "[PHONE_1]") 43 55 false.

(** A text that holds a placeholder before it is redacted. *)
Definition placeholder_text : jsstring := js "[EMAIL_1] x@y.com".

(** A credential with [$$] in it. *)
Definition dollar_text : jsstring := js "password: pa$$word".

(** The mapping a session holds, that of no session being empty. *)
Definition stored (all : MappingStore) (conversationId : jsstring)
    : ReplacementMapping :=
  match Obj.get all conversationId with
  | Some old => old
  | None => []
  end.

(** What a merge is to give for a key. *)
Definition merged_value (old mapping : ReplacementMapping) (k : jsstring)
    : option jsstring :=
  match Obj.get mapping k with
  | Some v => Some v
  | None => Obj.get old k
  end.

(** An item with its [ignored] flag flipped, as [toggleItem] leaves it. *)
Definition flip_ignored (item : SensitiveItem) : SensitiveItem :=
  mkItem (id item) (type item) (label item) (original item) (replacement item)
    (startIndex item) (endIndex item) (negb (ignored item)).

(** ** The state of the conversations *)

(** A state of the conversations in which every conversation has a message,
    the store holds the conversations of the state, and the current
    conversation, when there is one, is among them. *)
Definition consistent (st : Conversations.State) : Prop :=
  Forall (fun c => messages c <> []) (Conversations.conversations st) /\
  Conversations.savedConversations st = Conversations.conversations st /\
  match Conversations.currentId st with
  | Some x => Conversations.has_id x (Conversations.conversations st) = true
  | None => True
  end.

(** ** Marks in a match *)

(** The text has a digit, an underscore, a dot or a hyphen at an index from
    [x] on and before [y]. *)
Definition marked (text : jsstring) (x y : nat) : Prop :=
  exists i ch, x <= i /\ i < y /\ nth_error text i = Some ch /\
    Patterns.user_mark ch = true.

(** An expression every match of which consumes such a code unit. *)
Fixpoint marks (r : regex) : Prop :=
  match r with
  | Char p => forall ch, p ch = true -> Patterns.user_mark ch = true
  | Seq r1 r2 => marks r1 \/ marks r2
  | Alt r1 r2 => marks r1 /\ marks r2
  | _ => False
  end.

(* ================================================================== *)
(** * Notions of the proofs *)
(* ================================================================== *)

Unset Implicit Arguments.

(** A matcher is sound for [n] when it hands its continuation an index of
    the text at least [n] further on. *)
Definition sound (text : jsstring) (m : Matcher) (n : nat) : Prop :=
  forall x c z, x <= length text -> m x c = Some z ->
  exists y, x + n <= y /\ y <= length text /\ c y = Some z.

(** A matcher is local when it depends on its continuation only at the
    indices of the text from where it starts on. *)
Definition local (text : jsstring) (m : Matcher) : Prop :=
  forall x c c', x <= length text ->
  (forall y, x <= y -> y <= length text -> c y = c' y) -> m x c = m x c'.

(** The counter of a prefix, 0 when it has none. *)
Definition count_of (cs : Obj.t nat) (prefix : jsstring) : nat :=
  match Obj.get cs prefix with Some n => n | None => 0 end.

(** Two items whose ranges do not overlap. *)
Definition separate (a b : SensitiveItem) : Prop :=
  rangesOverlap (range a) (range b) = false.

(** The invariant of the scan of [text]. *)
Record scan_inv (text : jsstring) (st : ScanState) : Prop := mkInv {
  inv_ranges : usedRanges st = map range (scanned st);
  inv_separate : ForallOrdPairs separate (scanned st);
  inv_placeholders : forall prefix,
      map replacement (with_prefix prefix (scanned st)) =
      map (placeholder prefix) (seq 1 (count_of (counters st) prefix));
  inv_numbered : forall it, In it (scanned st) ->
      exists k, k <= count_of (counters st) (prefix_of_type (type it)) /\
      replacement it = placeholder (prefix_of_type (type it)) k;
  inv_distinct : NoDup (map replacement (scanned st));
  inv_valid : forall it, In it (scanned st) ->
      (type it = ssn -> length (digits_of (original it)) = 9) /\
      (type it = phone -> 10 <= length (digits_of (original it)) <= 15);
  inv_faithful : forall it, In it (scanned st) ->
      startIndex it < endIndex it /\ endIndex it <= length text /\
      original it = substring text (startIndex it) (endIndex it) /\
      id it = item_id (type it) (startIndex it) (endIndex it) /\
      ignored it = false
}.

(** The comparator of the final sort of [detectSensitiveInfo]. *)
Definition by_start (a b : SensitiveItem) : bool := startIndex a <=? startIndex b.

(** The step of the loop of [applyReplacements]. *)
Definition replace_range (result : jsstring) (item : SensitiveItem) : jsstring :=
  substring result 0 (startIndex item) ++ replacement item ++
  substring_from result (endIndex item).

(** The step of the loop of [buildReplacementMapping]. *)
Definition record_item (mapping : ReplacementMapping) (item : SensitiveItem)
    : ReplacementMapping :=
  if negb (ignored item)
  then assign mapping (replacement item) (original item)
  else mapping.

(** The step of the loop of [restoreOriginals]. *)
Definition restore_step (result : jsstring) (entry : jsstring * jsstring) : jsstring :=
  replaceAll result (fst entry) (snd entry).

(** The scan of [replaceAll] when the pattern is not empty and the
    replacement stands for itself. *)
Fixpoint replace_literal (p o : jsstring) (skip : nat) (s : jsstring) : jsstring :=
  match s with
  | [] => []
  | c :: s' =>
      match skip with
      | S k => replace_literal p o k s'
      | 0 =>
          if starts_with p s then o ++ replace_literal p o (length p - 1) s'
          else c :: replace_literal p o 0 s'
      end
  end.

(** Does a string start with an opening bracket? *)
Definition opens (s : jsstring) : bool :=
  match s with
  | c :: _ => N.eqb c 91
  | [] => false
  end.


(** The outcome of the retry loop when it stops at the call it is at. *)
Ltac one_call Ec :=
  simpl; rewrite ?Nat.add_0_r, ?app_nil_r;
  split; [lia | split; [lia | split; [now rewrite Ec | split;
    [intros k Hk; lia | split; [reflexivity|]]]]].

(* ================================================================== *)
(** * Strings: equality, prefixes, occurrences *)
(* ================================================================== *)

Lemma str_eqb_eq (a b : jsstring) : str_eqb a b = true <-> a = b.
Proof.
  revert b; induction a as [|x a IH]; intros [|y b]; simpl; split;
    try congruence; try reflexivity.
  - intros H. apply andb_true_iff in H as [H1 H2].
    apply N.eqb_eq in H1. apply IH in H2. congruence.
  - intros H. injection H as -> ->.
    apply andb_true_iff. split; [apply N.eqb_refl | now apply IH].
Qed.

Lemma str_eqb_refl (a : jsstring) : str_eqb a a = true.
Proof. now apply str_eqb_eq. Qed.

Lemma str_eqb_neq (a b : jsstring) : str_eqb a b = false <-> a <> b.
Proof.
  split.
  - intros H E. apply str_eqb_eq in E. congruence.
  - intros H. destruct (str_eqb a b) eqn:E; [|reflexivity].
    apply str_eqb_eq in E. contradiction.
Qed.

Lemma str_eqb_sym (a b : jsstring) : str_eqb a b = str_eqb b a.
Proof.
  destruct (str_eqb a b) eqn:E.
  - apply str_eqb_eq in E. subst. symmetry. apply str_eqb_refl.
  - symmetry. apply str_eqb_neq. apply str_eqb_neq in E. congruence.
Qed.

Lemma starts_with_app (p s : jsstring) : starts_with p (p ++ s) = true.
Proof.
  induction p as [|x p IH]; simpl; [reflexivity|].
  now rewrite N.eqb_refl, IH.
Qed.

Lemma starts_with_spec (p s : jsstring) :
  starts_with p s = true <-> exists post, s = p ++ post.
Proof.
  revert s; induction p as [|x p IH]; intros s; simpl.
  - split; [exists s; reflexivity | reflexivity].
  - destruct s as [|y s].
    + split; [discriminate | intros [post H]; discriminate].
    + rewrite andb_true_iff, N.eqb_eq, IH. split.
      * intros [-> [post ->]]. now exists post.
      * intros [post H]. injection H as -> ->. split; [reflexivity | now exists post].
Qed.

Lemma includes_spec (s p : jsstring) : includes s p = true <-> occurs_in p s.
Proof.
  unfold occurs_in. induction s as [|c s IH]; simpl.
  - rewrite orb_false_r, starts_with_spec. split.
    + intros [post H]. exists [], post. exact H.
    + intros [pre [post H]]. destruct pre; simpl in H.
      * now exists post.
      * discriminate.
  - rewrite orb_true_iff, starts_with_spec, IH. split.
    + intros [[post H] | [pre [post H]]].
      * exists [], post. exact H.
      * exists (c :: pre), post. simpl. now rewrite H.
    + intros [pre [post H]]. destruct pre as [|d pre]; simpl in H.
      * left. now exists post.
      * right. injection H as -> ->. now exists pre, post.
Qed.

Lemma includes_skipn (s p : jsstring) (n : nat) :
  includes s p = false -> includes (skipn n s) p = false.
Proof.
  revert s; induction n as [|n IH]; intros s H; [exact H|].
  destruct s as [|c s]; [exact H|]. simpl in *.
  apply orb_false_iff in H as [_ H]. now apply IH.
Qed.

Lemma includes_starts_false (s p : jsstring) :
  includes s p = false -> starts_with p s = false.
Proof.
  destruct s; simpl; intros H; now apply orb_false_iff in H as [H _].
Qed.

(** A prefix of a concatenation lies in the first part or runs over its
    end. *)
Lemma starts_with_split (p a b : jsstring) :
  starts_with p (a ++ b) = true ->
  starts_with p a = true \/
  (length a < length p /\ starts_with (skipn (length a) p) b = true).
Proof.
  revert a; induction p as [|x p IH]; intros a H; [now left|].
  destruct a as [|y a]; simpl in *.
  - right. split; [lia | exact H].
  - apply andb_true_iff in H as [H1 H2]. rewrite H1. simpl.
    destruct (IH _ H2) as [H | [H3 H4]]; [now left | right].
    split; [lia | exact H4].
Qed.

Lemma starts_with_firstn (p s : jsstring) (n : nat) :
  starts_with p (firstn n s) = true -> starts_with p s = true.
Proof.
  rewrite !starts_with_spec. intros [post H].
  exists (post ++ skipn n s). rewrite app_assoc, <- H. symmetry. apply firstn_skipn.
Qed.

(* ================================================================== *)
(** * Decimal numerals and the strings built from them *)
(* ================================================================== *)

Lemma uint_units_digits (d : Decimal.uint) : forallb is_digit (uint_units d) = true.
Proof. induction d; simpl; auto. Qed.

Lemma uint_units_inj (d d' : Decimal.uint) : uint_units d = uint_units d' -> d = d'.
Proof.
  revert d'; induction d; intros d'; destruct d'; simpl; intros H;
    try discriminate; try reflexivity;
    injection H as H; f_equal; now apply IHd.
Qed.

Lemma Number_toString_inj (n m : nat) : Number_toString n = Number_toString m -> n = m.
Proof.
  unfold Number_toString. intros H. apply uint_units_inj in H.
  apply (f_equal Nat.of_uint) in H. now rewrite !DecimalNat.Unsigned.of_to in H.
Qed.

Lemma Number_toString_digits (n : nat) : forallb is_digit (Number_toString n) = true.
Proof. apply uint_units_digits. Qed.

(** Two strings cut at the first occurrence of a separator agree part by
    part. *)
Lemma split_at_first (x : char) (a a' b b' : jsstring) :
  ~ In x a -> ~ In x a' -> a ++ x :: b = a' ++ x :: b' -> a = a' /\ b = b'.
Proof.
  revert a'; induction a as [|c a IH]; intros [|c' a'] Ha Ha' H; simpl in *.
  - injection H as ->. now split.
  - injection H as -> _. exfalso. apply Ha'. now left.
  - injection H as -> _. exfalso. apply Ha. now left.
  - injection H as -> H. destruct (IH a') as [-> ->]; auto.
Qed.

Lemma split_at_last (x : char) (a a' b b' : jsstring) :
  ~ In x b -> ~ In x b' -> a ++ x :: b = a' ++ x :: b' -> a = a' /\ b = b'.
Proof.
  intros Hb Hb' H. apply (f_equal (@List.rev char)) in H.
  rewrite !rev_app_distr in H. simpl in H. rewrite <- !app_assoc in H. simpl in H.
  apply split_at_first in H; try (rewrite <- in_rev; assumption).
  destruct H as [H1 H2].
  apply (f_equal (@List.rev char)) in H1, H2. rewrite !rev_involutive in H1, H2.
  now split.
Qed.

Lemma digits_not_in (x : char) (d : jsstring) :
  is_digit x = false -> forallb is_digit d = true -> ~ In x d.
Proof.
  intros Hx Hd Hin. rewrite forallb_forall in Hd. apply Hd in Hin. congruence.
Qed.

Lemma placeholder_inj (p p' : jsstring) (n n' : nat) :
  placeholder p n = placeholder p' n' -> p = p' /\ n = n'.
Proof.
  unfold placeholder. simpl. intros H. injection H as H.
  change (p ++ ((95%N :: Number_toString n) ++ [93%N]) =
          p' ++ ((95%N :: Number_toString n') ++ [93%N])) in H.
  rewrite !app_assoc in H. apply app_inj_tail in H as [H _].
  apply split_at_last in H;
    try (apply digits_not_in; [reflexivity | apply Number_toString_digits]).
  destruct H as [-> H]. split; [reflexivity | now apply Number_toString_inj].
Qed.

Lemma type_string_inj (t t' : SensitiveInfoType) : type_string t = type_string t' -> t = t'.
Proof. destruct t, t'; intros H; try reflexivity; discriminate H. Qed.

Lemma type_eqb_eq (t t' : SensitiveInfoType) : type_eqb t t' = true <-> t = t'.
Proof.
  unfold type_eqb. rewrite str_eqb_eq. split; [apply type_string_inj | congruence].
Qed.

Lemma type_string_no_dash (t : SensitiveInfoType) : ~ In 45%N (type_string t).
Proof.
  assert (H : forallb (fun c => negb (N.eqb c 45)) (type_string t) = true)
    by (destruct t; reflexivity).
  intros Hin. rewrite forallb_forall in H. apply H in Hin. discriminate Hin.
Qed.

Lemma item_id_inj (t t' : SensitiveInfoType) (s s' e e' : nat) :
  item_id t s e = item_id t' s' e' -> t = t' /\ s = s' /\ e = e'.
Proof.
  unfold item_id. simpl. intros H.
  apply split_at_first in H; try apply type_string_no_dash.
  destruct H as [Ht H]. apply type_string_inj in Ht.
  apply split_at_first in H;
    try (apply digits_not_in; [reflexivity | apply Number_toString_digits]).
  destruct H as [Hs He]. apply Number_toString_inj in Hs, He. now repeat split.
Qed.

(* ================================================================== *)
(** * Sorting *)
(* ================================================================== *)

Section SortFacts.
Variable A : Type.
Variable le : A -> A -> bool.

Lemma insert_sorted_perm (x : A) (l : list A) :
  Permutation (insert_sorted le x l) (x :: l).
Proof.
  induction l as [|y l IH]; simpl; [reflexivity|].
  destruct (le x y); [reflexivity|].
  rewrite IH. apply perm_swap.
Qed.

Lemma sort_perm (l : list A) : Permutation (sort le l) l.
Proof.
  induction l as [|x l IH]; simpl; [reflexivity|].
  rewrite insert_sorted_perm. now constructor.
Qed.

Lemma sort_in (x : A) (l : list A) : In x (sort le l) <-> In x l.
Proof.
  split; apply Permutation_in; [apply sort_perm | symmetry; apply sort_perm].
Qed.

(** An element that belongs after all of [l] is inserted at the end. *)
Lemma insert_sorted_last (x : A) (l : list A) :
  (forall y, In y l -> le x y = false) -> insert_sorted le x l = l ++ [x].
Proof.
  induction l as [|y l IH]; intros H; simpl; [reflexivity|].
  rewrite (H y) by now left. f_equal. apply IH. intros z Hz. apply H. now right.
Qed.
End SortFacts.

Section SortByKey.
Variable A : Type.
Variable key : A -> nat.

Lemma insert_by_key_sorted (x : A) (l : list A) :
  StronglySorted (fun a b => key a <= key b) l ->
  StronglySorted (fun a b => key a <= key b)
    (insert_sorted (fun a b => key a <=? key b) x l).
Proof.
  induction l as [|y l IH]; intros Hs; simpl.
  - constructor; constructor.
  - inversion Hs as [|? ? Hl Hy]; subst.
    destruct (key x <=? key y) eqn:E.
    + apply Nat.leb_le in E. constructor; [exact Hs|].
      constructor; [exact E|].
      rewrite Forall_forall in *. intros z Hz. specialize (Hy z Hz). lia.
    + apply Nat.leb_gt in E. constructor; [now apply IH|].
      rewrite Forall_forall in *. intros z Hz.
      apply (Permutation_in _ (insert_sorted_perm _ _ x l)) in Hz.
      destruct Hz as [<- | Hz]; [lia | now apply Hy].
Qed.

Lemma sort_by_key_sorted (l : list A) :
  StronglySorted (fun a b => key a <= key b)
    (sort (fun a b => key a <=? key b) l).
Proof.
  induction l as [|x l IH]; simpl; [constructor|].
  now apply insert_by_key_sorted.
Qed.

(** Sorting a strictly ascending list in descending order reverses it. *)
Lemma sort_descending_rev (l : list A) :
  StronglySorted (fun a b => key a < key b) l ->
  sort (fun a b => key b <=? key a) l = List.rev l.
Proof.
  induction l as [|x l IH]; intros Hs; simpl; [reflexivity|].
  inversion Hs as [|? ? Hl Hx]; subst.
  rewrite IH by assumption. apply insert_sorted_last.
  intros y Hy. apply in_rev in Hy. rewrite Forall_forall in Hx.
  specialize (Hx y Hy). apply Nat.leb_gt. exact Hx.
Qed.
End SortByKey.

Lemma filter_partition_perm (A : Type) (f : A -> bool) (l : list A) :
  Permutation (filter f l ++ filter (fun x => negb (f x)) l) l.
Proof.
  induction l as [|x l IH]; simpl; [reflexivity|].
  destruct (f x); simpl.
  - now constructor.
  - rewrite <- Permutation_middle. now constructor.
Qed.

Lemma filter_all (A : Type) (f : A -> bool) (l : list A) :
  (forall x, In x l -> f x = true) -> filter f l = l.
Proof.
  induction l as [|x l IH]; intros H; simpl; [reflexivity|].
  rewrite (H x) by now left. f_equal. apply IH. intros y Hy. apply H. now right.
Qed.

Lemma filter_none (A : Type) (f : A -> bool) (l : list A) :
  (forall x, In x l -> f x = false) -> filter f l = [].
Proof.
  induction l as [|x l IH]; intros H; simpl; [reflexivity|].
  rewrite (H x) by now left. apply IH. intros y Hy. apply H. now right.
Qed.

(* ================================================================== *)
(** * Objects *)
(* ================================================================== *)

Section ObjFacts.
Variable V : Type.
Implicit Types (o : Obj.t V) (k : jsstring) (v : V).

Lemma entries_perm o : Permutation (Obj.entries o) o.
Proof.
  unfold Obj.entries. rewrite sort_perm. apply filter_partition_perm.
Qed.

Lemma keys_perm o : Permutation (Obj.keys o) (map fst o).
Proof. unfold Obj.keys. apply Permutation_map, entries_perm. Qed.

Lemma keys_in o k : In k (Obj.keys o) <-> In k (map fst o).
Proof.
  split; apply Permutation_in; [apply keys_perm | symmetry; apply keys_perm].
Qed.

Lemma entries_in o (kv : jsstring * V) : In kv (Obj.entries o) <-> In kv o.
Proof.
  split; apply Permutation_in; [apply entries_perm | symmetry; apply entries_perm].
Qed.

Lemma entries_no_index o :
  (forall kv, In kv o -> Obj.is_index kv = false) -> Obj.entries o = o.
Proof.
  intros H. unfold Obj.entries.
  rewrite filter_none by assumption. simpl. apply filter_all.
  intros kv Hkv. now rewrite H.
Qed.

Lemma wf_entries o : wf_obj o -> wf_obj (Obj.entries o).
Proof.
  unfold wf_obj. intros H.
  eapply Permutation_NoDup; [|exact H]. symmetry. apply keys_perm.
Qed.

Lemma get_none o k : Obj.get o k = None <-> ~ In k (map fst o).
Proof.
  induction o as [|[k' v'] o IH]; simpl; [tauto|].
  destruct (str_eqb k' k) eqn:E.
  - apply str_eqb_eq in E. subst. split; [discriminate | intros H; exfalso; auto].
  - apply str_eqb_neq in E. rewrite IH. tauto.
Qed.

Lemma get_in o k v : Obj.get o k = Some v -> In (k, v) o.
Proof.
  induction o as [|[k' v'] o IH]; simpl; [discriminate|].
  destruct (str_eqb k' k) eqn:E.
  - apply str_eqb_eq in E. subst. intros H. injection H as ->. now left.
  - intros H. right. now apply IH.
Qed.

Lemma in_get o k v : wf_obj o -> In (k, v) o -> Obj.get o k = Some v.
Proof.
  unfold wf_obj. induction o as [|[k' v'] o IH]; simpl; [tauto|].
  intros Hnd [H | H].
  - injection H as -> ->. now rewrite str_eqb_refl.
  - inversion Hnd as [|? ? Hk Hnd']; subst.
    destruct (str_eqb k' k) eqn:E.
    + apply str_eqb_eq in E. subst. exfalso. apply Hk.
      change k with (fst (k, v)). now apply in_map.
    + now apply IH.
Qed.

Lemma get_perm o o' k : wf_obj o -> Permutation o o' -> Obj.get o k = Obj.get o' k.
Proof.
  intros Hwf Hp.
  assert (Hwf' : wf_obj o').
  { unfold wf_obj in *. eapply Permutation_NoDup; [|exact Hwf]. now apply Permutation_map. }
  destruct (Obj.get o k) as [v|] eqn:E.
  - symmetry. apply in_get; [exact Hwf'|]. eapply Permutation_in; [exact Hp|]. now apply get_in.
  - symmetry. apply get_none. apply get_none in E. intros Hin. apply E.
    eapply Permutation_in; [|exact Hin]. apply Permutation_map. now symmetry.
Qed.

Lemma get_entries o k : wf_obj o -> Obj.get (Obj.entries o) k = Obj.get o k.
Proof.
  intros H. symmetry. apply get_perm; [exact H|]. symmetry. apply entries_perm.
Qed.

Lemma get_set_same o k v : Obj.get (Obj.set o k v) k = Some v.
Proof.
  induction o as [|[k' v'] o IH]; simpl.
  - now rewrite str_eqb_refl.
  - destruct (str_eqb k' k) eqn:E; simpl; rewrite E; [reflexivity | exact IH].
Qed.

Lemma get_set_other o k k' v : k <> k' -> Obj.get (Obj.set o k v) k' = Obj.get o k'.
Proof.
  intros Hne. induction o as [|[k0 v0] o IH]; simpl.
  - apply str_eqb_neq in Hne. now rewrite Hne.
  - destruct (str_eqb k0 k) eqn:E; simpl.
    + apply str_eqb_eq in E. subst. apply str_eqb_neq in Hne. now rewrite Hne.
    + now rewrite IH.
Qed.

Lemma set_keys_in o k v k' :
  In k' (map fst (Obj.set o k v)) <-> k' = k \/ In k' (map fst o).
Proof.
  induction o as [|[k0 v0] o IH]; simpl.
  - intuition congruence.
  - destruct (str_eqb k0 k) eqn:E; simpl.
    + apply str_eqb_eq in E. subst. intuition congruence.
    + rewrite IH. intuition congruence.
Qed.

Lemma set_in o k v (kv : jsstring * V) :
  In kv (Obj.set o k v) -> kv = (k, v) \/ In kv o.
Proof.
  induction o as [|[k0 v0] o IH]; simpl.
  - intuition congruence.
  - destruct (str_eqb k0 k) eqn:E; simpl.
    + apply str_eqb_eq in E. subst. intuition congruence.
    + intuition congruence.
Qed.

Lemma wf_set o k v : wf_obj o -> wf_obj (Obj.set o k v).
Proof.
  unfold wf_obj. induction o as [|[k0 v0] o IH]; simpl; intros H.
  - constructor; [auto | constructor].
  - inversion H as [|? ? Hk Hnd]; subst.
    destruct (str_eqb k0 k) eqn:E; simpl.
    + now constructor.
    + constructor; [|now apply IH].
      rewrite set_keys_in. apply str_eqb_neq in E. intuition congruence.
Qed.

Lemma fold_set_get (es : list (jsstring * V)) o k :
  NoDup (map fst es) ->
  Obj.get (fold_left (fun o kv => Obj.set o (fst kv) (snd kv)) es o) k =
  match Obj.get es k with
  | Some v => Some v
  | None => Obj.get o k
  end.
Proof.
  revert o; induction es as [|[k1 v1] es IH]; intros o Hnd; simpl; [reflexivity|].
  inversion Hnd as [|? ? Hk Hnd']; subst.
  rewrite IH by assumption.
  destruct (str_eqb k1 k) eqn:E.
  - apply str_eqb_eq in E. subst.
    apply get_none in Hk. rewrite Hk. apply get_set_same.
  - apply str_eqb_neq in E. now rewrite get_set_other.
Qed.

Lemma wf_fold_set (es : list (jsstring * V)) o :
  wf_obj o -> wf_obj (fold_left (fun o kv => Obj.set o (fst kv) (snd kv)) es o).
Proof.
  revert o; induction es as [|kv es IH]; intros o H; simpl; [exact H|].
  apply IH. now apply wf_set.
Qed.

Lemma get_spread (target src : Obj.t V) k :
  wf_obj src ->
  Obj.get (Obj.spread target src) k =
  match Obj.get src k with
  | Some v => Some v
  | None => Obj.get target k
  end.
Proof.
  intros H. unfold Obj.spread.
  rewrite fold_set_get by now apply wf_entries.
  now rewrite get_entries.
Qed.

Lemma wf_spread (target src : Obj.t V) : wf_obj target -> wf_obj (Obj.spread target src).
Proof. apply wf_fold_set. Qed.
End ObjFacts.

Lemma wf_nil (V : Type) : wf_obj (@nil (jsstring * V)).
Proof. constructor. Qed.

Lemma get_merge (old mapping : ReplacementMapping) (k : jsstring) :
  wf_obj old -> wf_obj mapping ->
  Obj.get (merge old mapping) k =
  match Obj.get mapping k with
  | Some v => Some v
  | None => Obj.get old k
  end.
Proof.
  intros Ho Hm. unfold merge.
  rewrite get_spread by assumption.
  destruct (Obj.get mapping k); [reflexivity|].
  rewrite get_spread by assumption.
  now destruct (Obj.get old k).
Qed.

Lemma wf_merge (old mapping : ReplacementMapping) : wf_obj (merge old mapping).
Proof. unfold merge. apply wf_spread, wf_spread, wf_nil. Qed.

(* ================================================================== *)
(** * The matcher: where a match ends *)
(* ================================================================== *)

Section Engine.
Variable text : jsstring.

Lemma RepeatMatcher_sound (m : Matcher) (n : nat) :
  sound text m n ->
  forall fuel min max,
  sound text (RepeatMatcher fuel m min max)
    (match max with Some k => Nat.min min k | None => min end * n).
Proof.
  intros Hm. induction fuel as [|fuel IH]; intros min max x c z Hx H; simpl in H;
    [discriminate|].
  destruct max as [[|k]|].
  - exists x. rewrite Nat.min_0_r. simpl. repeat split; [lia | exact Hx | exact H].
  - destruct min as [|min'].
    + simpl in H.
      destruct (m x _) as [z'|] eqn:E.
      * injection H as ->. apply Hm in E as (y & Hy1 & Hy2 & Hd); [|exact Hx].
        destruct (Nat.eqb y x); [discriminate|].
        apply IH in Hd as (y' & Hy'1 & Hy'2 & Hc); [|exact Hy2].
        exists y'. simpl. repeat split; [lia | exact Hy'2 | exact Hc].
      * exists x. simpl. repeat split; [lia | exact Hx | exact H].
    + apply Hm in H as (y & Hy1 & Hy2 & Hd); [|exact Hx].
      simpl in Hd. apply IH in Hd as (y' & Hy'1 & Hy'2 & Hc); [|exact Hy2].
      exists y'. repeat split; [|exact Hy'2 | exact Hc].
      simpl in Hy'1 |- *. lia.
  - destruct min as [|min'].
    + simpl in H.
      destruct (m x _) as [z'|] eqn:E.
      * injection H as ->. apply Hm in E as (y & Hy1 & Hy2 & Hd); [|exact Hx].
        destruct (Nat.eqb y x); [discriminate|].
        apply IH in Hd as (y' & Hy'1 & Hy'2 & Hc); [|exact Hy2].
        exists y'. simpl. repeat split; [lia | exact Hy'2 | exact Hc].
      * exists x. simpl. repeat split; [lia | exact Hx | exact H].
    + apply Hm in H as (y & Hy1 & Hy2 & Hd); [|exact Hx].
      simpl in Hd. apply IH in Hd as (y' & Hy'1 & Hy'2 & Hc); [|exact Hy2].
      exists y'. repeat split; [|exact Hy'2 | exact Hc].
      simpl in Hy'1 |- *. lia.
Qed.

Lemma matcher_sound (r : regex) : sound text (matcher text r) (min_len r).
Proof.
  induction r as [|p|r1 IH1 r2 IH2|r1 IH1 r2 IH2|r0 IH min max| |r0 IH|r0 IH];
    intros x c z Hx H; simpl in H |- *.
  - exists x. repeat split; [lia | exact Hx | exact H].
  - destruct (nth_error text x) as [ch|] eqn:E; [|discriminate].
    destruct (p ch); [|discriminate].
    assert (x < length text) by (apply nth_error_Some; congruence).
    exists (S x). repeat split; [lia | lia | exact H].
  - apply IH1 in H as (y & Hy1 & Hy2 & H); [|exact Hx].
    apply IH2 in H as (y' & Hy'1 & Hy'2 & H); [|exact Hy2].
    exists y'. repeat split; [lia | exact Hy'2 | exact H].
  - destruct (matcher text r1 x c) as [z'|] eqn:E.
    + injection H as ->. apply IH1 in E as (y & Hy1 & Hy2 & H); [|exact Hx].
      exists y. repeat split; [lia | exact Hy2 | exact H].
    + apply IH2 in H as (y & Hy1 & Hy2 & H); [|exact Hx].
      exists y. repeat split; [lia | exact Hy2 | exact H].
  - eapply RepeatMatcher_sound; eassumption.
  - destruct (is_boundary text x); [|discriminate].
    exists x. repeat split; [lia | exact Hx | exact H].
  - destruct (matcher text r0 x _); [|discriminate].
    exists x. repeat split; [lia | exact Hx | exact H].
  - match type of H with (if ?b then _ else _) = _ => destruct b end; [|discriminate].
    exists x. repeat split; [lia | exact Hx | exact H].
Qed.

Lemma match_at_bounds (r : regex) (x e : nat) :
  x <= length text -> match_at text r x = Some e ->
  x + min_len r <= e /\ e <= length text.
Proof.
  intros Hx H. unfold match_at in H.
  apply matcher_sound in H as (y & H1 & H2 & H3); [|exact Hx].
  injection H3 as <-. now split.
Qed.

Lemma first_match_bounds (r : regex) (n x s e : nat) :
  x + n <= length text -> first_match text r x n = Some (s, e) ->
  x <= s /\ s + min_len r <= e /\ e <= length text.
Proof.
  revert x; induction n as [|n IH]; intros x Hx H; simpl in H.
  - destruct (match_at text r x) as [e'|] eqn:E; [|discriminate].
    injection H as <- <-. apply match_at_bounds in E; [lia | lia].
  - destruct (match_at text r x) as [e'|] eqn:E.
    + injection H as <- <-. apply match_at_bounds in E; [lia | lia].
    + apply IH in H; lia.
Qed.

Lemma exec_bounds (r : regex) (lastIndex s e : nat) :
  exec r text lastIndex = Some (s, e) ->
  lastIndex <= s /\ s + min_len r <= e /\ e <= length text.
Proof.
  unfold exec. destruct (Nat.ltb (length text) lastIndex) eqn:E; [discriminate|].
  apply Nat.ltb_ge in E. apply first_match_bounds. lia.
Qed.

Lemma exec_loop_bounds (r : regex) (fuel lastIndex : nat) :
  Forall (fun m => fst m + min_len r <= snd m /\ snd m <= length text)
    (exec_loop fuel r text lastIndex).
Proof.
  revert lastIndex; induction fuel as [|fuel IH]; intros lastIndex; simpl;
    [constructor|].
  destruct (exec r text lastIndex) as [[s e]|] eqn:E; [|constructor].
  apply exec_bounds in E. constructor; [simpl; lia | apply IH].
Qed.

(** The loop over the matches of a pattern that cannot match the empty
    string is over before its fuel is: more fuel changes nothing. *)
Lemma exec_loop_fuel (r : regex) :
  1 <= min_len r ->
  forall fuel lastIndex, length text < lastIndex + fuel ->
  exec_loop (S fuel) r text lastIndex = exec_loop fuel r text lastIndex.
Proof.
  intros Hr. induction fuel as [|fuel IH]; intros lastIndex H.
  - simpl. unfold exec.
    assert (E : Nat.ltb (length text) lastIndex = true) by (apply Nat.ltb_lt; lia).
    now rewrite E.
  - change (exec_loop (S (S fuel)) r text lastIndex) with
      (match exec r text lastIndex with
       | None => []
       | Some (s, e) => (s, e) :: exec_loop (S fuel) r text e
       end).
    change (exec_loop (S fuel) r text lastIndex) with
      (match exec r text lastIndex with
       | None => []
       | Some (s, e) => (s, e) :: exec_loop fuel r text e
       end).
    destruct (exec r text lastIndex) as [[s e]|] eqn:E; [|reflexivity].
    apply exec_bounds in E. f_equal. apply IH. lia.
Qed.

Lemma exec_all_fuel (r : regex) (fuel : nat) :
  1 <= min_len r -> length text < fuel ->
  exec_loop fuel r text 0 = exec_all r text.
Proof.
  intros Hr H. unfold exec_all.
  induction fuel as [|fuel IH]; [lia|].
  destruct (Nat.eq_dec fuel (length text)) as [->|Hne]; [reflexivity|].
  rewrite exec_loop_fuel by (assumption || lia). apply IH. lia.
Qed.

Lemma exec_all_bounds (r : regex) (m : nat * nat) :
  In m (exec_all r text) ->
  fst m + min_len r <= snd m /\ snd m <= length text.
Proof.
  intros H. pose proof (exec_loop_bounds r (S (length text)) 0) as HF.
  rewrite Forall_forall in HF. now apply HF.
Qed.
End Engine.

(** No pattern of the registry matches the empty string, so the loop over
    the matches of each is over before its fuel is. *)
Lemma registry_min_len (p : DetectionPattern) :
  In p DETECTION_PATTERNS -> 1 <= min_len (pat_regex p).
Proof.
  assert (H : forallb (fun p => 1 <=? min_len (pat_regex p)) DETECTION_PATTERNS = true)
    by (vm_compute; reflexivity).
  rewrite forallb_forall in H. intros Hin. apply H in Hin. now apply Nat.leb_le.
Qed.

Lemma registry_exec_all (p : DetectionPattern) (text : jsstring) (fuel : nat) :
  In p DETECTION_PATTERNS -> length text < fuel ->
  exec_loop fuel (pat_regex p) text 0 = exec_all (pat_regex p) text.
Proof.
  intros Hp Hfuel. apply exec_all_fuel; [now apply registry_min_len | exact Hfuel].
Qed.

(** The prefix of a rule is the one of its category. *)
Lemma registry_prefix (p : DetectionPattern) :
  In p DETECTION_PATTERNS -> prefix_of_type (pat_type p) = pat_prefix p.
Proof.
  assert (H : forallb (fun p => str_eqb (prefix_of_type (pat_type p)) (pat_prefix p))
                DETECTION_PATTERNS = true) by (vm_compute; reflexivity).
  rewrite forallb_forall in H. intros Hin. apply H in Hin. now apply str_eqb_eq.
Qed.

(** ** The fuel of the repetition is never used up *)

Lemma RepeatMatcher_local (text : jsstring) (m : Matcher) :
  local text m ->
  forall fuel min max, local text (RepeatMatcher fuel m min max).
Proof.
  intros Hm. induction fuel as [|fuel IH]; intros min max x c c' Hx Hc;
    [reflexivity|].
  simpl. destruct max as [[|k]|]; [apply Hc; lia | |].
  - assert (Hd : m x (fun y => if (Nat.eqb min 0 && Nat.eqb y x)%bool then None
                               else RepeatMatcher fuel m (Nat.pred min) (Some k) y c) =
                 m x (fun y => if (Nat.eqb min 0 && Nat.eqb y x)%bool then None
                               else RepeatMatcher fuel m (Nat.pred min) (Some k) y c')).
    { apply Hm; [exact Hx|]. intros y Hy1 Hy2.
      destruct (Nat.eqb min 0 && Nat.eqb y x)%bool; [reflexivity|].
      apply IH; [exact Hy2|]. intros z Hz1 Hz2. apply Hc; lia. }
    simpl option_map. rewrite Hd. destruct min; [|reflexivity].
    rewrite (Hc x) by lia. reflexivity.
  - assert (Hd : m x (fun y => if (Nat.eqb min 0 && Nat.eqb y x)%bool then None
                               else RepeatMatcher fuel m (Nat.pred min) None y c) =
                 m x (fun y => if (Nat.eqb min 0 && Nat.eqb y x)%bool then None
                               else RepeatMatcher fuel m (Nat.pred min) None y c')).
    { apply Hm; [exact Hx|]. intros y Hy1 Hy2.
      destruct (Nat.eqb min 0 && Nat.eqb y x)%bool; [reflexivity|].
      apply IH; [exact Hy2|]. intros z Hz1 Hz2. apply Hc; lia. }
    simpl option_map. rewrite Hd. destruct min; [|reflexivity].
    rewrite (Hc x) by lia. reflexivity.
Qed.

Lemma matcher_local (text : jsstring) (r : regex) : local text (matcher text r).
Proof.
  induction r as [|p|r1 IH1 r2 IH2|r1 IH1 r2 IH2|r0 IH min max| |r0 IH|r0 IH];
    intros x c c' Hx Hc; simpl.
  - apply Hc; lia.
  - destruct (nth_error text x) as [ch|] eqn:E; [|reflexivity].
    assert (x < length text) by (apply nth_error_Some; congruence).
    destruct (p ch); [apply Hc; lia | reflexivity].
  - apply IH1; [exact Hx|]. intros y Hy1 Hy2.
    apply IH2; [exact Hy2|]. intros z Hz1 Hz2. apply Hc; lia.
  - rewrite (IH1 x c c' Hx Hc), (IH2 x c c' Hx Hc). reflexivity.
  - apply (RepeatMatcher_local text (matcher text r0) IH); assumption.
  - rewrite (Hc x) by lia. reflexivity.
  - rewrite (Hc x) by lia. reflexivity.
  - rewrite (Hc x) by lia. reflexivity.
Qed.

(** One more unit of fuel changes nothing once the fuel exceeds [min] plus
    what is left of the text. *)
Lemma RepeatMatcher_fuel_step (text : jsstring) (m : Matcher) :
  local text m ->
  forall fuel min max x c,
  x <= length text -> min + (length text - x) < fuel ->
  RepeatMatcher (S fuel) m min max x c = RepeatMatcher fuel m min max x c.
Proof.
  intros Hm. induction fuel as [|fuel IH]; intros min max x c Hx Hfuel; [lia|].
  change (RepeatMatcher (S (S fuel)) m min max x c) with
    (match max with
     | Some 0 => c x
     | _ =>
         let d : continuation := fun y =>
           if (Nat.eqb min 0 && Nat.eqb y x)%bool then None
           else RepeatMatcher (S fuel) m (Nat.pred min) (option_map Nat.pred max) y c in
         match min with
         | S _ => m x d
         | 0 => match m x d with Some z => Some z | None => c x end
         end
     end).
  change (RepeatMatcher (S fuel) m min max x c) with
    (match max with
     | Some 0 => c x
     | _ =>
         let d : continuation := fun y =>
           if (Nat.eqb min 0 && Nat.eqb y x)%bool then None
           else RepeatMatcher fuel m (Nat.pred min) (option_map Nat.pred max) y c in
         match min with
         | S _ => m x d
         | 0 => match m x d with Some z => Some z | None => c x end
         end
     end).
  assert (Hd : forall max',
            m x (fun y => if (Nat.eqb min 0 && Nat.eqb y x)%bool then None
                          else RepeatMatcher (S fuel) m (Nat.pred min) max' y c) =
            m x (fun y => if (Nat.eqb min 0 && Nat.eqb y x)%bool then None
                          else RepeatMatcher fuel m (Nat.pred min) max' y c)).
  { intros max'. apply Hm; [exact Hx|]. intros y Hy1 Hy2.
    destruct (Nat.eqb min 0 && Nat.eqb y x)%bool eqn:E; [reflexivity|].
    apply IH; [exact Hy2|].
    destruct min as [|min']; simpl in *.
    - apply Nat.eqb_neq in E. lia.
    - lia. }
  destruct max as [[|k]|]; [reflexivity | |]; cbv zeta; now rewrite Hd.
Qed.

(** The fuel [matcher] gives to a repetition is enough: more of it gives
    the same result. *)
Lemma RepeatMatcher_fuel (text : jsstring) (r : regex) (min : nat) (max : option nat)
    (x : nat) (c : continuation) (extra : nat) :
  x <= length text ->
  RepeatMatcher (min + length text + 1 + extra) (matcher text r) min max x c =
  matcher text (Repeat r min max) x c.
Proof.
  intros Hx. simpl. induction extra as [|extra IH].
  - now rewrite Nat.add_0_r.
  - rewrite <- IH. rewrite Nat.add_succ_r.
    apply (RepeatMatcher_fuel_step text); [apply matcher_local | exact Hx | lia].
Qed.

(* ================================================================== *)
(** * The scan and what it keeps true *)
(* ================================================================== *)

Lemma fold_left_invariant (A B : Type) (f : A -> B -> A) (P : A -> Prop) (l : list B) :
  (forall a x, In x l -> P a -> P (f a x)) ->
  forall a, P a -> P (fold_left f l a).
Proof.
  induction l as [|x l IH]; intros Hstep a Ha; simpl; [exact Ha|].
  apply IH.
  - intros a' y Hy. apply Hstep. now right.
  - apply Hstep; [now left | exact Ha].
Qed.

(** What one turn of the [while] loop does: nothing, or it accepts the
    match, which then passed every check. *)
Lemma visit_spec (text : jsstring) (p : DetectionPattern) (st : ScanState)
    (m : nat * nat) :
  visit text p st m = st \/
  (existsb (fun r => rangesOverlap (fst m, snd m) r) (usedRanges st) = false /\
   (pat_type p = ssn ->
    length (digits_of (substring text (fst m) (snd m))) = 9) /\
   (pat_type p = phone ->
    10 <= length (digits_of (substring text (fst m) (snd m))) <= 15) /\
   visit text p st m =
   mkState
     (Obj.set (counters st) (pat_prefix p) (count_of (counters st) (pat_prefix p) + 1))
     (scanned st ++
        [ mkItem (item_id (pat_type p) (fst m) (snd m)) (pat_type p) (pat_label p)
            (substring text (fst m) (snd m))
            (placeholder (pat_prefix p) (count_of (counters st) (pat_prefix p) + 1))
            (fst m) (snd m) false ])
     (usedRanges st ++ [(fst m, snd m)])).
Proof.
  unfold visit.
  destruct (existsb _ (usedRanges st)) eqn:Eov; [now left|].
  destruct (type_eqb (pat_type p) ssn &&
            negb (length (digits_of (substring text (fst m) (snd m))) =? 9)) eqn:Essn;
    [now left|].
  destruct (type_eqb (pat_type p) phone &&
            ((length (digits_of (substring text (fst m) (snd m))) <? 10)
             || (15 <? length (digits_of (substring text (fst m) (snd m)))))) eqn:Eph;
    [now left|].
  destruct (type_eqb (pat_type p) username &&
            negb (looksLikeUsername (substring text (fst m) (snd m)))); [now left|].
  right. repeat split.
  - intros Ht. apply type_eqb_eq in Ht. rewrite Ht in Essn. simpl in Essn.
    apply negb_false_iff in Essn. now apply Nat.eqb_eq.
  - apply type_eqb_eq in H. rewrite H in Eph. simpl in Eph.
    apply orb_false_iff in Eph as [E _]. apply Nat.ltb_ge in E. exact E.
  - apply type_eqb_eq in H. rewrite H in Eph. simpl in Eph.
    apply orb_false_iff in Eph as [_ E]. apply Nat.ltb_ge in E. exact E.
Qed.

Lemma rangesOverlap_sym (a b : nat * nat) : rangesOverlap a b = rangesOverlap b a.
Proof. unfold rangesOverlap. apply andb_comm. Qed.

Lemma ForallOrdPairs_snoc (A : Type) (R : A -> A -> Prop) (l : list A) (x : A) :
  ForallOrdPairs R l -> Forall (fun y => R y x) l -> ForallOrdPairs R (l ++ [x]).
Proof.
  induction 1 as [|a l Ha Hl IH]; intros Hx; simpl.
  - constructor; constructor.
  - inversion Hx as [|? ? Hax Hlx]; subst. constructor; [|now apply IH].
    apply Forall_app. split; [exact Ha | now constructor].
Qed.

Lemma ForallOrdPairs_perm (A : Type) (R : A -> A -> Prop) (l l' : list A) :
  (forall a b, R a b -> R b a) ->
  Permutation l l' -> ForallOrdPairs R l -> ForallOrdPairs R l'.
Proof.
  intros Hsym. induction 1 as [|x l l' Hp IH|x y l|l l' l'' Hp1 IH1 Hp2 IH2]; intros H.
  - exact H.
  - inversion H as [|? ? Hx Hl]; subst. constructor; [|now apply IH].
    rewrite Forall_forall in *. intros z Hz. apply Hx.
    eapply Permutation_in; [symmetry; exact Hp | exact Hz].
  - inversion H as [|? ? Hy Hxl]; subst.
    inversion Hxl as [|? ? Hx Hl]; subst.
    inversion Hy as [|? ? Hyx Hyl]; subst.
    constructor; [|now constructor].
    constructor; [now apply Hsym | exact Hx].
  - auto.
Qed.

Lemma scan_inv_init (text : jsstring) : scan_inv text (mkState [] [] []).
Proof.
  constructor; simpl; try reflexivity; try (intros; contradiction);
    constructor.
Qed.

Lemma with_prefix_snoc (prefix : jsstring) (l : list SensitiveItem) (it : SensitiveItem) :
  with_prefix prefix (l ++ [it]) =
  with_prefix prefix l ++
  (if str_eqb (prefix_of_type (type it)) prefix then [it] else []).
Proof. unfold with_prefix. now rewrite filter_app. Qed.

Lemma scan_inv_visit (text : jsstring) (p : DetectionPattern) (st : ScanState)
    (m : nat * nat) :
  In p DETECTION_PATTERNS -> In m (exec_all (pat_regex p) text) ->
  scan_inv text st -> scan_inv text (visit text p st m).
Proof.
  intros Hp Hm Hinv.
  destruct (visit_spec text p st m) as [-> | (Hov & Hssn & Hphone & ->)]; [exact Hinv|].
  destruct Hinv as [Hr Hs Hpl Hnum Hnd Hv Hf].
  apply exec_all_bounds in Hm. pose proof (registry_min_len p Hp) as Hlen.
  constructor; simpl.
  - rewrite map_app, Hr. reflexivity.
  - apply ForallOrdPairs_snoc; [exact Hs|].
    rewrite Forall_forall. intros it Hit. unfold separate.
    rewrite rangesOverlap_sym.
    change (rangesOverlap (fst m, snd m) (range it) = false).
    rewrite Hr in Hov.
    destruct (rangesOverlap (fst m, snd m) (range it)) eqn:E; [|reflexivity].
    assert (Hex : existsb (fun r => rangesOverlap (fst m, snd m) r)
                    (map range (scanned st)) = true).
    { apply existsb_exists. exists (range it). split; [now apply in_map | exact E]. }
    congruence.
  - intros prefix. rewrite with_prefix_snoc, map_app, Hpl. simpl.
    rewrite (registry_prefix p Hp).
    destruct (str_eqb (pat_prefix p) prefix) eqn:E.
    + apply str_eqb_eq in E. subst prefix.
      unfold count_of at 3. rewrite get_set_same.
      rewrite Nat.add_1_r, seq_S, map_app. simpl. reflexivity.
    + apply str_eqb_neq in E. unfold count_of at 2.
      rewrite get_set_other by assumption. simpl. now rewrite app_nil_r.
  - intros it Hit. apply in_app_or in Hit as [Hit | [<- | []]].
    + destruct (Hnum it Hit) as (k & Hk & Hrep). exists k. split; [|exact Hrep].
      unfold count_of at 1.
      destruct (str_eqb (pat_prefix p) (prefix_of_type (type it))) eqn:E.
      * apply str_eqb_eq in E. rewrite <- E, get_set_same. rewrite <- E in Hk. lia.
      * apply str_eqb_neq in E. rewrite get_set_other by assumption. exact Hk.
    + simpl. rewrite (registry_prefix p Hp).
      exists (count_of (counters st) (pat_prefix p) + 1). split; [|reflexivity].
      unfold count_of at 2. now rewrite get_set_same.
  - rewrite map_app. simpl.
    apply NoDup_app; [exact Hnd | constructor; [intros [] | constructor] |].
    intros r Hr1 [<- | []].
    apply in_map_iff in Hr1 as (it & Hrep & Hit).
    destruct (Hnum it Hit) as (k & Hk & Hrep'). rewrite Hrep' in Hrep.
    apply placeholder_inj in Hrep as [E1 E2]. rewrite E1 in Hk. lia.
  - intros it Hit. apply in_app_or in Hit as [Hit | [<- | []]]; [now apply Hv|].
    simpl. now split.
  - intros it Hit. apply in_app_or in Hit as [Hit | [<- | []]]; [now apply Hf|].
    simpl. repeat split; lia.
Qed.

Lemma scan_invariant (text : jsstring) : scan_inv text (scan text DETECTION_PATTERNS).
Proof.
  unfold scan. apply fold_left_invariant; [|apply scan_inv_init].
  intros st p Hp Hst. unfold scan_pattern.
  apply fold_left_invariant; [|exact Hst].
  intros st' m Hm Hst'. now apply scan_inv_visit.
Qed.

(** ** The item list of a result *)

Lemma detect_items (text : jsstring) :
  items (detectSensitiveInfo text) = sort by_start (scanned (scan text DETECTION_PATTERNS)).
Proof. reflexivity. Qed.

Lemma detect_items_perm (text : jsstring) :
  Permutation (items (detectSensitiveInfo text)) (scanned (scan text DETECTION_PATTERNS)).
Proof. rewrite detect_items. apply sort_perm. Qed.

Lemma detect_items_in (text : jsstring) (it : SensitiveItem) :
  In it (items (detectSensitiveInfo text)) <->
  In it (scanned (scan text DETECTION_PATTERNS)).
Proof. rewrite detect_items. apply sort_in. Qed.

Lemma detect_sorted (text : jsstring) :
  StronglySorted (fun a b => startIndex a <= startIndex b)
    (items (detectSensitiveInfo text)).
Proof. rewrite detect_items. apply (sort_by_key_sorted _ startIndex). Qed.

Lemma detect_separate (text : jsstring) :
  ForallOrdPairs separate (items (detectSensitiveInfo text)).
Proof.
  eapply ForallOrdPairs_perm.
  - unfold separate. intros a b H. now rewrite rangesOverlap_sym.
  - symmetry. apply detect_items_perm.
  - apply scan_invariant.
Qed.

Lemma detect_faithful (text : jsstring) (it : SensitiveItem) :
  In it (items (detectSensitiveInfo text)) ->
  startIndex it < endIndex it /\ endIndex it <= length text /\
  original it = substring text (startIndex it) (endIndex it) /\
  id it = item_id (type it) (startIndex it) (endIndex it) /\
  ignored it = false.
Proof.
  intros H. apply detect_items_in in H.
  now apply (inv_faithful _ _ (scan_invariant text)).
Qed.

Lemma detect_placeholders (text prefix : jsstring) :
  exists n,
  Permutation (map replacement (with_prefix prefix (items (detectSensitiveInfo text))))
    (map (placeholder prefix) (seq 1 n)).
Proof.
  exists (count_of (counters (scan text DETECTION_PATTERNS)) prefix).
  rewrite <- (inv_placeholders _ _ (scan_invariant text)).
  apply Permutation_map. unfold with_prefix.
  (* filter respects permutations *)
  generalize (detect_items_perm text).
  generalize (items (detectSensitiveInfo text)) (scanned (scan text DETECTION_PATTERNS)).
  induction 1; simpl.
  - constructor.
  - destruct (str_eqb _ _); [now constructor | assumption].
  - destruct (str_eqb (prefix_of_type (type x)) prefix),
             (str_eqb (prefix_of_type (type y)) prefix);
      try reflexivity. apply perm_swap.
  - etransitivity; eassumption.
Qed.

(* ================================================================== *)
(** * Redaction as a splice *)
(* ================================================================== *)

Lemma substring_prefix (s : jsstring) (b : nat) : substring s 0 b = firstn b s.
Proof.
  unfold substring. simpl. rewrite Nat.sub_0_r.
  destruct (Nat.le_ge_cases b (length s)) as [H | H].
  - now rewrite Nat.min_l.
  - rewrite Nat.min_r by assumption. now rewrite !firstn_all2.
Qed.

Lemma substring_from_skipn (s : jsstring) (a : nat) : substring_from s a = skipn a s.
Proof.
  unfold substring_from.
  destruct (Nat.le_ge_cases a (length s)) as [H | H].
  - now rewrite Nat.min_l.
  - rewrite Nat.min_r by assumption. now rewrite !skipn_all2.
Qed.

Lemma substring_inside (s : jsstring) (a b : nat) :
  a <= b -> b <= length s -> substring s a b = firstn (b - a) (skipn a s).
Proof.
  intros Hab Hb. unfold substring.
  rewrite (Nat.min_l a), (Nat.min_l b) by lia.
  now rewrite Nat.max_r, Nat.min_l by lia.
Qed.

Lemma firstn_plus (A : Type) (n m : nat) (l : list A) :
  firstn (n + m) l = firstn n l ++ firstn m (skipn n l).
Proof.
  revert l; induction n as [|n IH]; intros l; simpl; [reflexivity|].
  destruct l as [|x l]; simpl.
  - now rewrite firstn_nil.
  - now rewrite IH.
Qed.

Lemma skipn_plus (A : Type) (n m : nat) (l : list A) :
  skipn (n + m) l = skipn m (skipn n l).
Proof.
  revert l; induction n as [|n IH]; intros l; simpl; [reflexivity|].
  destruct l as [|x l]; simpl; [now rewrite skipn_nil | apply IH].
Qed.

(** The text between [a] and [c] is the text between [a] and [b] followed by
    the text between [b] and [c]. *)
Lemma chunk_split (text : jsstring) (a b c : nat) :
  a <= b -> b <= c ->
  firstn (c - a) (skipn a text) =
  firstn (b - a) (skipn a text) ++ firstn (c - b) (skipn b text).
Proof.
  intros Hab Hbc.
  replace (c - a) with ((b - a) + (c - b)) by lia.
  rewrite firstn_plus. f_equal. f_equal.
  rewrite <- skipn_plus. f_equal. lia.
Qed.

Lemma chunk_rest (text : jsstring) (a b : nat) :
  a <= b -> skipn a text = firstn (b - a) (skipn a text) ++ skipn b text.
Proof.
  intros Hab. rewrite <- (firstn_skipn (b - a) (skipn a text)) at 1.
  f_equal. rewrite <- skipn_plus. f_equal. lia.
Qed.

Lemma fits_weaken (text : jsstring) (from from' : nat) (l : list SensitiveItem) :
  from' <= from -> fits text from l -> fits text from' l.
Proof.
  destruct l as [|it l]; simpl; [tauto|]. intros H (H1 & H2 & H3 & H4).
  repeat split; (lia || assumption).
Qed.

Lemma fits_filter (text : jsstring) (f : SensitiveItem -> bool) (l : list SensitiveItem) :
  forall from, fits text from l -> fits text from (filter f l).
Proof.
  induction l as [|it l IH]; intros from H; simpl; [exact I|].
  destruct H as (H1 & H2 & H3 & H4). destruct (f it); simpl.
  - repeat split; try assumption. now apply IH.
  - apply IH. apply fits_weaken with (from := endIndex it); [lia | exact H4].
Qed.

Lemma fits_in (text : jsstring) (l : list SensitiveItem) :
  forall from it, fits text from l -> In it l ->
  from <= startIndex it /\ startIndex it < endIndex it /\ endIndex it <= length text.
Proof.
  induction l as [|x l IH]; intros from it H Hin; [contradiction|].
  destruct H as (H1 & H2 & H3 & H4). destruct Hin as [<- | Hin]; [lia|].
  destruct (IH _ _ H4 Hin) as (H5 & H6 & H7). lia.
Qed.

Lemma fits_ascending (text : jsstring) (l : list SensitiveItem) :
  forall from, fits text from l ->
  StronglySorted (fun a b => startIndex a < startIndex b) l.
Proof.
  induction l as [|x l IH]; intros from H; [constructor|].
  destruct H as (H1 & H2 & H3 & H4). constructor; [now apply IH with (endIndex x)|].
  rewrite Forall_forall. intros y Hy.
  destruct (fits_in _ _ _ _ H4 Hy) as (H5 & _). lia.
Qed.

Lemma fits_app (text : jsstring) (l1 l2 : list SensitiveItem) :
  forall from, fits text from (l1 ++ l2) ->
  fits text from l1 /\
  (forall a b, In a l1 -> In b l2 -> endIndex a <= startIndex b).
Proof.
  induction l1 as [|x l1 IH]; intros from H; simpl in *.
  - split; [exact I | intros a b []].
  - destruct H as (H1 & H2 & H3 & H4). destruct (IH _ H4) as [H5 H6].
    split; [now repeat split|].
    intros a b [<- | Ha] Hb.
    + assert (Hin : In b (l1 ++ l2)) by (apply in_or_app; now right).
      destruct (fits_in _ _ _ _ H4 Hin) as (H7 & _). exact H7.
    + now apply H6.
Qed.

Lemma fold_splice (text : jsstring) (l : list SensitiveItem) :
  forall from, from <= length text -> fits text from l ->
  fold_right (fun item result => replace_range result item) text l =
  firstn from text ++ splice text from l.
Proof.
  induction l as [|it l IH]; intros from Hfrom H; simpl.
  - symmetry. apply firstn_skipn.
  - destruct H as (H1 & H2 & H3 & H4).
    rewrite (IH (endIndex it)) by assumption.
    unfold replace_range. rewrite substring_prefix, substring_from_skipn.
    assert (Hlen : length (firstn (endIndex it) text) = endIndex it)
      by (apply firstn_length_le; exact H3).
    rewrite firstn_app, Hlen.
    replace (startIndex it - endIndex it) with 0 by lia.
    rewrite firstn_O, app_nil_r, firstn_firstn, Nat.min_l by lia.
    rewrite skipn_app, Hlen, Nat.sub_diag. simpl.
    rewrite skipn_all2 by lia. simpl.
    rewrite <- (firstn_skipn from (firstn (startIndex it) text)).
    rewrite firstn_firstn, Nat.min_l by lia.
    rewrite <- app_assoc. f_equal. f_equal.
    now rewrite skipn_firstn_comm.
Qed.

Lemma applyReplacements_splice (text : jsstring) (l : list SensitiveItem) :
  fits text 0 l ->
  applyReplacements text l =
  splice text 0 (filter (fun item => negb (ignored item)) l).
Proof.
  intros H. unfold applyReplacements.
  pose proof (fits_filter _ (fun item => negb (ignored item)) _ _ H) as Hf.
  rewrite (sort_descending_rev _ startIndex) by (eapply fits_ascending; exact Hf).
  change (fun result item => substring result 0 (startIndex item) ++
            replacement item ++ substring_from result (endIndex item))
    with replace_range.
  rewrite <- fold_left_rev_right, rev_involutive.
  rewrite (fold_splice text _ 0) by (lia || assumption). reflexivity.
Qed.

Lemma applyReplacements_ignored (text : jsstring) (l : list SensitiveItem) :
  (forall it, In it l -> ignored it = true) -> applyReplacements text l = text.
Proof.
  intros H. unfold applyReplacements. rewrite filter_none; [reflexivity|].
  intros it Hit. now rewrite H.
Qed.

(** Before the first item the splice is the text itself. *)
Lemma splice_split (text : jsstring) (l : list SensitiveItem) (from b : nat) :
  from <= b -> (forall it, In it l -> b <= startIndex it) ->
  splice text from l = firstn (b - from) (skipn from text) ++ splice text b l.
Proof.
  intros Hb Hl. destruct l as [|it l]; simpl.
  - now apply chunk_rest.
  - assert (Hs : b <= startIndex it) by (apply Hl; now left).
    rewrite (chunk_split text from b (startIndex it)) by assumption.
    now rewrite <- app_assoc.
Qed.

(** ** The items of a result lie in the text *)

Lemma sorted_separate_fits (text : jsstring) (l : list SensitiveItem) :
  StronglySorted (fun a b => startIndex a <= startIndex b) l ->
  ForallOrdPairs separate l ->
  (forall it, In it l -> startIndex it < endIndex it /\ endIndex it <= length text) ->
  forall from, (forall it, In it l -> from <= startIndex it) -> fits text from l.
Proof.
  induction l as [|x l IH]; intros Hs Hp Hb from Hfrom; simpl; [exact I|].
  inversion Hs as [|? ? Hs' Hx]; subst. inversion Hp as [|? ? Hpx Hp']; subst.
  destruct (Hb x (or_introl eq_refl)) as [H1 H2].
  repeat split; [apply Hfrom; now left | exact H1 | exact H2 |].
  apply IH; try assumption.
  - intros it Hit. apply Hb. now right.
  - intros it Hit. rewrite Forall_forall in Hx, Hpx.
    specialize (Hx it Hit). specialize (Hpx it Hit).
    destruct (Hb it (or_intror Hit)) as [H3 H4].
    unfold separate, rangesOverlap, range in Hpx. simpl in Hpx.
    apply andb_false_iff in Hpx as [E | E]; apply Nat.ltb_ge in E; lia.
Qed.

Lemma detect_fits (text : jsstring) : fits text 0 (items (detectSensitiveInfo text)).
Proof.
  apply sorted_separate_fits.
  - apply detect_sorted.
  - apply detect_separate.
  - intros it Hit. destruct (detect_faithful _ _ Hit) as (H1 & H2 & _). now split.
  - intros; lia.
Qed.

(* ================================================================== *)
(** * [replaceAll] with a replacement free of [$] *)
(* ================================================================== *)

Lemma GetSubstitution_plain (matched before after template : jsstring) :
  no_dollar template = true ->
  GetSubstitution matched before after template = template.
Proof.
  induction template as [|c t1 IH]; intros H; [reflexivity|].
  simpl in H. apply andb_true_iff in H as [Hc Ht].
  apply negb_true_iff in Hc.
  destruct t1 as [|d t2]; [reflexivity|].
  change (GetSubstitution matched before after (c :: d :: t2)) with
    (if N.eqb c DOLLAR then
       if N.eqb d DOLLAR then DOLLAR :: GetSubstitution matched before after t2
       else if N.eqb d 38%N then matched ++ GetSubstitution matched before after t2
       else if N.eqb d 96%N then before ++ GetSubstitution matched before after t2
       else if N.eqb d 39%N then after ++ GetSubstitution matched before after t2
       else c :: GetSubstitution matched before after (d :: t2)
     else c :: GetSubstitution matched before after (d :: t2)).
  rewrite Hc. f_equal. now apply IH.
Qed.

Lemma replaceAll_scan_literal (p o : jsstring) :
  p <> [] -> no_dollar o = true ->
  forall rest whole pos skip,
  replaceAll_scan p o whole pos skip rest = replace_literal p o skip rest.
Proof.
  intros Hp Ho. induction rest as [|c rest IH]; intros whole pos skip.
  - simpl. destruct skip, p; try reflexivity. contradiction.
  - destruct skip as [|k].
    + simpl. destruct p as [|x p']; [contradiction|].
      destruct (starts_with (x :: p') (c :: rest)).
      * rewrite GetSubstitution_plain by assumption. now rewrite IH.
      * now rewrite IH.
    + simpl. apply IH.
Qed.

Lemma replaceAll_literal (s p o : jsstring) :
  p <> [] -> no_dollar o = true -> replaceAll s p o = replace_literal p o 0 s.
Proof. intros Hp Ho. unfold replaceAll. now apply replaceAll_scan_literal. Qed.

Lemma replace_literal_cons (p o : jsstring) (c : char) (s : jsstring) :
  replace_literal p o 0 (c :: s) =
  if starts_with p (c :: s)
  then o ++ replace_literal p o (length p - 1) s
  else c :: replace_literal p o 0 s.
Proof. reflexivity. Qed.

Lemma replace_literal_skip (p o u s : jsstring) :
  replace_literal p o (length u) (u ++ s) = replace_literal p o 0 s.
Proof. induction u as [|c u IH]; simpl; [reflexivity | exact IH]. Qed.

Lemma replace_literal_match (p o s : jsstring) :
  p <> [] -> replace_literal p o 0 (p ++ s) = o ++ replace_literal p o 0 s.
Proof.
  intros Hp. destruct p as [|c p']; [contradiction|].
  rewrite <- app_comm_cons, replace_literal_cons, app_comm_cons.
  rewrite starts_with_app. f_equal.
  replace (length (c :: p') - 1) with (length p') by (simpl; lia).
  apply replace_literal_skip.
Qed.

Lemma replace_literal_pass (p o u s : jsstring) :
  (forall i, i < length u -> starts_with p (skipn i (u ++ s)) = false) ->
  replace_literal p o 0 (u ++ s) = u ++ replace_literal p o 0 s.
Proof.
  induction u as [|c u IH]; intros H; [reflexivity|].
  rewrite <- !app_comm_cons, replace_literal_cons.
  assert (H0 : starts_with p (c :: u ++ s) = false)
    by (apply (H 0); simpl; lia).
  rewrite H0. f_equal. apply IH.
  intros i Hi. apply (H (S i)). simpl. lia.
Qed.

Lemma replace_literal_id (p o s : jsstring) :
  includes s p = false -> replace_literal p o 0 s = s.
Proof.
  induction s as [|c s IH]; intros H; [reflexivity|].
  simpl in H. apply orb_false_iff in H as [H1 H2].
  rewrite replace_literal_cons, H1. f_equal. now apply IH.
Qed.

(* ================================================================== *)
(** * Bracketed tokens *)
(* ================================================================== *)

Lemma bracketed_opens (p : jsstring) : bracketed p = true -> opens p = true.
Proof. destruct p; simpl; [discriminate|]. intros H. now apply andb_true_iff in H. Qed.

Lemma bracketed_not_nil (p : jsstring) : bracketed p = true -> p <> [].
Proof. destruct p; simpl; [discriminate | discriminate]. Qed.

Lemma starts_with_opens (p s : jsstring) :
  p <> [] -> starts_with p s = true -> opens s = opens p.
Proof.
  destruct p as [|x p]; [contradiction|]. intros _.
  destruct s as [|y s]; simpl; [discriminate|].
  intros H. apply andb_true_iff in H as [H _]. apply N.eqb_eq in H. now subst.
Qed.

Lemma opens_app (p r : jsstring) : p <> [] -> opens (p ++ r) = opens p.
Proof. destruct p; [contradiction | reflexivity]. Qed.

Lemma closes_no_open (q : jsstring) : closes q = true -> forall c, In c q -> N.eqb c 91 = false.
Proof.
  induction q as [|x q IH]; intros H c Hc; [contradiction|].
  simpl in H. destruct (N.eqb x 93) eqn:E.
  - destruct q; [|discriminate]. destruct Hc as [<- | []].
    apply N.eqb_eq in E. now subst.
  - apply andb_true_iff in H as [H1 H2]. destruct Hc as [<- | Hc].
    + now apply negb_true_iff.
    + now apply IH.
Qed.

(** Inside a token no other token starts. *)
Lemma bracketed_inside (p r : jsstring) (i : nat) :
  bracketed p = true -> 0 < i -> i < length p -> opens (skipn i p ++ r) = false.
Proof.
  destruct p as [|c q]; simpl; [discriminate|]. intros H Hi Hlen.
  apply andb_true_iff in H as [_ H].
  destruct i as [|j]; [lia|]. simpl.
  assert (Hj : j < length q) by lia.
  destruct (skipn j q) as [|d rest] eqn:E.
  - apply (f_equal (@length char)) in E. rewrite length_skipn in E. simpl in E. lia.
  - simpl. apply (closes_no_open q H).
    rewrite <- (firstn_skipn j q), E. apply in_or_app. right. now left.
Qed.

Lemma closes_prefix_eq (a : jsstring) :
  forall b r, closes a = true -> closes b = true ->
  starts_with a (b ++ r) = true -> a = b.
Proof.
  induction a as [|c a IH]; intros b r Ha Hb H; [discriminate|].
  destruct b as [|d b]; [discriminate|].
  simpl in H. apply andb_true_iff in H as [Hcd H]. apply N.eqb_eq in Hcd. subst d.
  simpl in Ha, Hb. destruct (N.eqb c 93).
  - destruct a; [|discriminate]. destruct b; [reflexivity | discriminate].
  - apply andb_true_iff in Ha as [_ Ha]. apply andb_true_iff in Hb as [_ Hb].
    f_equal. now apply (IH b r).
Qed.

(** A token that starts where another one does is that one. *)
Lemma bracketed_prefix_eq (p q r : jsstring) :
  bracketed p = true -> bracketed q = true ->
  starts_with p (q ++ r) = true -> p = q.
Proof.
  destruct p as [|c a]; [discriminate|]. destruct q as [|d b]; [discriminate|].
  simpl. intros Hp Hq H.
  apply andb_true_iff in Hp as [Hc Ha]. apply andb_true_iff in Hq as [Hd Hb].
  apply andb_true_iff in H as [_ H].
  apply N.eqb_eq in Hc, Hd. subst. f_equal. now apply (closes_prefix_eq a b r).
Qed.

(* ================================================================== *)
(** * Restoring one placeholder in a splice *)
(* ================================================================== *)

Lemma filter_In_sub (A : Type) (f : A -> bool) (l : list A) (x : A) :
  In x (filter f l) -> In x l.
Proof. intros H. now apply filter_In in H. Qed.

Lemma replace_in_splice (text p o : jsstring) :
  bracketed p = true -> includes text p = false ->
  forall l from,
  fits text from l ->
  (forall it, In it l -> bracketed (replacement it) = true) ->
  (forall it, In it l -> replacement it = p ->
     o = firstn (endIndex it - startIndex it) (skipn (startIndex it) text)) ->
  replace_literal p o 0 (splice text from l) =
  splice text from (filter (fun it => negb (str_eqb (replacement it) p)) l).
Proof.
  intros Hp Hfresh. induction l as [|it l IH]; intros from Hfit Hbr Ho.
  - simpl. apply replace_literal_id. now apply includes_skipn.
  - destruct Hfit as (H1 & H2 & H3 & H4).
    assert (Hq : bracketed (replacement it) = true) by (apply Hbr; now left).
    assert (IH' : replace_literal p o 0 (splice text (endIndex it) l) =
                  splice text (endIndex it)
                    (filter (fun it => negb (str_eqb (replacement it) p)) l)).
    { apply IH; [exact H4 | |].
      - intros it' Hit'. apply Hbr. now right.
      - intros it' Hit'. apply Ho. now right. }
    simpl splice.
    (* the text before the item holds no occurrence of [p] *)
    rewrite replace_literal_pass.
    2:{ intros i Hi. rewrite skipn_app.
        replace (i - length (firstn (startIndex it - from) (skipn from text)))
          with 0 by lia.
        simpl skipn.
        destruct (starts_with p _) eqn:E; [exfalso | reflexivity].
        apply starts_with_split in E as [E | [E1 E2]].
        - rewrite skipn_firstn_comm in E. apply starts_with_firstn in E.
          rewrite <- skipn_plus in E.
          pose proof (includes_skipn text p (from + i) Hfresh) as Hn.
          apply includes_starts_false in Hn. congruence.
        - rewrite length_skipn in E1, E2.
          apply starts_with_opens in E2.
          + rewrite opens_app in E2 by now apply bracketed_not_nil.
            rewrite (bracketed_opens _ Hq) in E2.
            rewrite <- (app_nil_r (skipn _ p)) in E2.
            rewrite bracketed_inside in E2; [discriminate | exact Hp | lia | lia].
          + intros Hnil. apply (f_equal (@length char)) in Hnil.
            rewrite length_skipn in Hnil. simpl in Hnil. lia. }
    simpl filter.
    destruct (str_eqb (replacement it) p) eqn:E; simpl negb; cbv iota.
    + apply str_eqb_eq in E.
      pose proof (Ho it (or_introl eq_refl) E) as Hoi.
      rewrite E, replace_literal_match by now apply bracketed_not_nil.
      rewrite IH'.
      rewrite (splice_split text _ from (endIndex it)); [|lia|].
      2:{ intros it' Hit'. apply filter_In_sub in Hit'.
          now destruct (fits_in _ _ _ _ H4 Hit'). }
      rewrite (chunk_split text from (startIndex it) (endIndex it)) by lia.
      rewrite <- app_assoc. now rewrite <- Hoi.
    + apply str_eqb_neq in E.
      rewrite replace_literal_pass.
      2:{ intros i Hi. destruct i as [|j].
          - simpl skipn.
            destruct (starts_with p _) eqn:Es; [exfalso | reflexivity].
            apply bracketed_prefix_eq in Es; [congruence | exact Hp | exact Hq].
          - rewrite skipn_app.
            replace (S j - length (replacement it)) with 0 by lia. simpl skipn at 2.
            destruct (starts_with p _) eqn:Es; [exfalso | reflexivity].
            apply starts_with_opens in Es; [|now apply bracketed_not_nil].
            rewrite (bracketed_opens _ Hp) in Es.
            rewrite bracketed_inside in Es; [discriminate | exact Hq | lia | lia]. }
      rewrite IH'. reflexivity.
Qed.

(* ================================================================== *)
(** * The mapping built from an item list *)
(* ================================================================== *)

Lemma buildReplacementMapping_fold (l : list SensitiveItem) :
  buildReplacementMapping l = fold_left record_item l [].
Proof. reflexivity. Qed.

Lemma record_item_cases (mapping : ReplacementMapping) (item : SensitiveItem) :
  record_item mapping item = mapping \/
  (ignored item = false /\ replacement item <> PROTO /\
   record_item mapping item =
   Obj.set mapping (replacement item) (original item)).
Proof.
  unfold record_item, assign. destruct (ignored item); [left; reflexivity|].
  change (negb false) with true. cbv iota.
  destruct (str_eqb (replacement item) PROTO) eqn:E; [left; reflexivity|].
  right. apply str_eqb_neq in E. now repeat split.
Qed.

Lemma record_item_in (mapping : ReplacementMapping) (item : SensitiveItem)
    (kv : jsstring * jsstring) :
  In kv (record_item mapping item) ->
  In kv mapping \/
  (ignored item = false /\ kv = (replacement item, original item)).
Proof.
  destruct (record_item_cases mapping item) as [-> | (H1 & _ & ->)]; [now left|].
  intros H. apply set_in in H as [H | H]; [right | left]; auto.
Qed.

Lemma build_in (l : list SensitiveItem) :
  forall acc kv, In kv (fold_left record_item l acc) ->
  In kv acc \/
  exists it, In it l /\ ignored it = false /\ kv = (replacement it, original it).
Proof.
  induction l as [|x l IH]; intros acc kv H; simpl in H; [now left|].
  apply IH in H as [H | (it & H1 & H2 & H3)].
  - apply record_item_in in H as [H | [H1 H2]]; [now left | right].
    exists x. repeat split; [now left | exact H1 | exact H2].
  - right. exists it. repeat split; [now right | exact H2 | exact H3].
Qed.

Lemma record_item_keys (mapping : ReplacementMapping) (item : SensitiveItem)
    (k : jsstring) :
  In k (map fst mapping) -> In k (map fst (record_item mapping item)).
Proof.
  destruct (record_item_cases mapping item) as [-> | (_ & _ & ->)]; [auto|].
  intros H. apply set_keys_in. now right.
Qed.

Lemma build_keys_acc (l : list SensitiveItem) :
  forall acc k, In k (map fst acc) -> In k (map fst (fold_left record_item l acc)).
Proof.
  induction l as [|x l IH]; intros acc k H; simpl; [exact H|].
  apply IH. now apply record_item_keys.
Qed.

Lemma build_keys (l : list SensitiveItem) :
  forall acc it, In it l -> ignored it = false -> replacement it <> PROTO ->
  In (replacement it) (map fst (fold_left record_item l acc)).
Proof.
  induction l as [|x l IH]; intros acc it Hin Hact Hne; [contradiction|].
  simpl. destruct Hin as [-> | Hin]; [|now apply IH].
  apply build_keys_acc. unfold record_item, assign. rewrite Hact.
  change (negb false) with true. cbv iota. apply str_eqb_neq in Hne. rewrite Hne. apply set_keys_in. now left.
Qed.

Lemma build_no_key (l : list SensitiveItem) (k : jsstring) :
  (forall it, In it l -> ignored it = false -> replacement it <> k) ->
  forall acc, ~ In k (map fst acc) ->
  ~ In k (map fst (fold_left record_item l acc)).
Proof.
  induction l as [|x l IH]; intros Hl acc Hacc; simpl; [exact Hacc|].
  apply IH.
  - intros it Hit. apply Hl. now right.
  - destruct (record_item_cases acc x) as [-> | (Eig & _ & ->)]; [exact Hacc|].
    rewrite set_keys_in. intros [E | H]; [|contradiction].
    apply (Hl x (or_introl eq_refl) Eig). now symmetry.
Qed.

Lemma wf_build (l : list SensitiveItem) : wf_obj (buildReplacementMapping l).
Proof.
  rewrite buildReplacementMapping_fold.
  apply fold_left_invariant; [|apply wf_nil].
  intros acc x _ H.
  destruct (record_item_cases acc x) as [-> | (_ & _ & ->)];
    [exact H | now apply wf_set].
Qed.

Lemma bracketed_not_proto (p : jsstring) : bracketed p = true -> p <> PROTO.
Proof. intros H E. rewrite E in H. discriminate H. Qed.

(* ================================================================== *)
(** * Restoring a redacted text *)
(* ================================================================== *)

Lemma NoDup_map_eq (A B : Type) (f : A -> B) (l : list A) (x y : A) :
  NoDup (map f l) -> In x l -> In y l -> f x = f y -> x = y.
Proof.
  induction l as [|a l IH]; intros Hnd Hx Hy E; [contradiction|].
  simpl in Hnd. inversion Hnd as [|? ? Ha Hnd']; subst.
  destruct Hx as [<- | Hx], Hy as [<- | Hy]; auto.
  - exfalso. apply Ha. rewrite E. now apply in_map.
  - exfalso. apply Ha. rewrite <- E. now apply in_map.
Qed.

Lemma filter_twice (A : Type) (f g : A -> bool) (l : list A) :
  filter f (filter g l) = filter (fun x => g x && f x) l.
Proof.
  induction l as [|x l IH]; simpl; [reflexivity|].
  destruct (g x); simpl; [destruct (f x); now rewrite IH | exact IH].
Qed.

(** Restoring from entries that come from the items of a restorable list
    removes from the splice exactly the placeholders they name. *)
Lemma restore_entries (text : jsstring) (l0 : list SensitiveItem) :
  restorable text l0 ->
  forall es l,
  (forall kv, In kv es ->
     exists it, In it l0 /\ kv = (replacement it, original it)) ->
  (forall it, In it l -> In it l0) -> fits text 0 l ->
  fold_left restore_step es (splice text 0 l) =
  splice text 0
    (filter (fun it => negb (existsb (str_eqb (replacement it)) (map fst es))) l).
Proof.
  intros R. induction es as [|[k v] es IH]; intros l Hes Hl Hfit.
  - simpl. now rewrite filter_all.
  - destruct (Hes (k, v) (or_introl eq_refl)) as (it0 & Hit0 & E).
    injection E as -> ->.
    simpl fold_left. unfold restore_step at 2. simpl fst. simpl snd.
    rewrite replaceAll_literal;
      [| apply bracketed_not_nil; now apply (rs_bracketed R)
       | now apply (rs_no_dollar R)].
    rewrite (replace_in_splice text (replacement it0) (original it0)).
    + rewrite IH.
      * rewrite filter_twice. f_equal.
        apply filter_ext. intros it. simpl.
        now rewrite negb_orb.
      * intros kv Hkv. apply Hes. now right.
      * intros it Hit. apply Hl. now apply filter_In_sub in Hit.
      * now apply fits_filter.
    + now apply (rs_bracketed R).
    + now apply (rs_fresh R).
    + exact Hfit.
    + intros it Hit. apply (rs_bracketed R). now apply Hl.
    + intros it Hit E.
      assert (it = it0).
      { apply (NoDup_map_eq _ _ replacement l0); auto. apply (rs_distinct R). }
      subst it0. rewrite (rs_original R it (Hl it Hit)).
      destruct (fits_in _ _ _ _ Hfit Hit) as (_ & H1 & H2).
      apply substring_inside; lia.
Qed.

Lemma restore_empty (text : jsstring) : restoreOriginals text [] = text.
Proof. reflexivity. Qed.

(** Without an occurrence of one of its keys in the text, and with
    replacements free of [$], a mapping restores nothing. *)
Lemma restore_no_key (text : jsstring) (mapping : ReplacementMapping) :
  (forall kv, In kv mapping ->
     includes text (fst kv) = false /\ no_dollar (snd kv) = true) ->
  restoreOriginals text mapping = text.
Proof.
  intros H. unfold restoreOriginals.
  assert (He : forall kv, In kv (Obj.entries mapping) ->
                 includes text (fst kv) = false /\ no_dollar (snd kv) = true).
  { intros kv Hkv. apply H. now apply (proj1 (entries_in _ _ _)). }
  clear H. induction (Obj.entries mapping) as [|[k v] es IH]; [reflexivity|].
  simpl. destruct (He (k, v) (or_introl eq_refl)) as [H1 H2]. simpl in H1, H2.
  rewrite replaceAll_literal.
  - rewrite replace_literal_id by exact H1. apply IH.
    intros kv Hkv. apply He. now right.
  - intros ->. destruct text; discriminate H1.
  - exact H2.
Qed.

(* ================================================================== *)
(** * Splitting a splice at an item *)
(* ================================================================== *)

Lemma fits_remove (text : jsstring) (it : SensitiveItem) (l2 : list SensitiveItem) :
  forall l1 from, fits text from (l1 ++ it :: l2) -> fits text from (l1 ++ l2).
Proof.
  induction l1 as [|x l1 IH]; intros from H; simpl in *.
  - destruct H as (H1 & H2 & H3 & H4).
    apply fits_weaken with (from := endIndex it); [lia | exact H4].
  - destruct H as (H1 & H2 & H3 & H4). repeat split; try assumption. now apply IH.
Qed.

Lemma fits_firstn (text : jsstring) (b : nat) :
  b <= length text ->
  forall l from, fits text from l -> (forall it, In it l -> endIndex it <= b) ->
  fits (firstn b text) from l.
Proof.
  intros Hb. induction l as [|x l IH]; intros from H Hl; simpl; [exact I|].
  destruct H as (H1 & H2 & H3 & H4).
  repeat split; [exact H1 | exact H2 | |].
  - rewrite firstn_length_le by exact Hb. apply Hl. now left.
  - apply IH; [exact H4|]. intros it Hit. apply Hl. now right.
Qed.

Lemma fits_shift (text : jsstring) (k : nat) :
  forall l from, k <= from -> fits text from l ->
  fits (skipn k text) (from - k) (map (shift k) l).
Proof.
  induction l as [|x l IH]; intros from Hk H; simpl; [exact I|].
  destruct H as (H1 & H2 & H3 & H4). rewrite length_skipn.
  repeat split; try lia. apply IH; [lia | exact H4].
Qed.

Lemma splice_shift (text : jsstring) (k : nat) :
  forall l from, k <= from -> fits text from l ->
  splice (skipn k text) (from - k) (map (shift k) l) = splice text from l.
Proof.
  induction l as [|x l IH]; intros from Hk H; simpl.
  - rewrite <- skipn_plus. f_equal. lia.
  - destruct H as (H1 & H2 & H3 & H4).
    rewrite <- skipn_plus. replace (k + (from - k)) with from by lia.
    replace (startIndex x - k - (from - k)) with (startIndex x - from) by lia.
    f_equal. f_equal. apply IH; [lia | exact H4].
Qed.

Lemma splice_app (text : jsstring) (b : nat) (l2 : list SensitiveItem) :
  (forall it, In it l2 -> b <= startIndex it) ->
  forall l1 from, from <= b -> fits text from l1 ->
  (forall it, In it l1 -> endIndex it <= b) ->
  splice text from (l1 ++ l2) = splice (firstn b text) from l1 ++ splice text b l2.
Proof.
  intros Hl2. induction l1 as [|x l1 IH]; intros from Hb H Hl1; simpl.
  - rewrite skipn_firstn_comm. now apply splice_split.
  - destruct H as (H1 & H2 & H3 & H4).
    assert (Hx : endIndex x <= b) by (apply Hl1; now left).
    rewrite (IH (endIndex x)); [|exact Hx | exact H4 |].
    2:{ intros it Hit. apply Hl1. now right. }
    rewrite skipn_firstn_comm, firstn_firstn, Nat.min_l by lia.
    now rewrite <- !app_assoc.
Qed.

(** ** Toggling an item *)

Lemma toggleItem_at (l1 l2 : list SensitiveItem) (it : SensitiveItem) :
  NoDup (map id (l1 ++ it :: l2)) ->
  toggleItem (id it) (l1 ++ it :: l2) = l1 ++ flip_ignored it :: l2.
Proof.
  intros Hnd. unfold toggleItem. rewrite map_app. simpl. rewrite str_eqb_refl.
  assert (Hother : forall l, (forall x, In x l -> id x <> id it) ->
            map (fun item => if str_eqb (id item) (id it)
                             then flip_ignored item else item) l = l).
  { intros l Hl. rewrite <- (map_id l) at 2. apply map_ext_in.
    intros x Hx. apply Hl in Hx. apply str_eqb_neq in Hx. now rewrite Hx. }
  rewrite map_app in Hnd. simpl in Hnd.
  pose proof (NoDup_remove_2 _ _ _ Hnd) as Hnot.
  change (fun item => if str_eqb (id item) (id it)
            then mkItem (id item) (type item) (label item) (original item)
                   (replacement item) (startIndex item) (endIndex item)
                   (negb (ignored item))
            else item)
    with (fun item => if str_eqb (id item) (id it) then flip_ignored item else item).
  rewrite !Hother; [reflexivity | |].
  - intros x Hx E. apply Hnot. apply in_or_app. right. rewrite <- E. now apply in_map.
  - intros x Hx E. apply Hnot. apply in_or_app. left. rewrite <- E. now apply in_map.
Qed.

Lemma nth_error_parts (A : Type) (l : list A) (i : nat) (x : A) :
  nth_error l i = Some x -> l = firstn i l ++ x :: skipn (S i) l.
Proof.
  revert l; induction i as [|i IH]; intros [|y l] H; simpl in *; try discriminate.
  - now injection H as ->.
  - f_equal. now apply IH.
Qed.

(** ** Unique identifiers and placeholders in a result *)

Lemma separate_ids (l : list SensitiveItem) :
  ForallOrdPairs separate l ->
  (forall it, In it l ->
     startIndex it < endIndex it /\
     id it = item_id (type it) (startIndex it) (endIndex it)) ->
  NoDup (map id l).
Proof.
  induction 1 as [|x l Hx Hl IH]; intros Hok; simpl; constructor.
  - intros Hin. apply in_map_iff in Hin as (y & E & Hy).
    destruct (Hok x (or_introl eq_refl)) as [Hxs Hxi].
    destruct (Hok y (or_intror Hy)) as [Hys Hyi].
    rewrite Hxi, Hyi in E. apply item_id_inj in E as (_ & Es & Ee).
    rewrite Forall_forall in Hx. specialize (Hx y Hy).
    unfold separate, rangesOverlap, range in Hx. simpl in Hx.
    apply andb_false_iff in Hx as [Hx | Hx]; apply Nat.ltb_ge in Hx; lia.
  - apply IH. intros it Hit. apply Hok. now right.
Qed.

Lemma detect_ids (text : jsstring) : NoDup (map id (items (detectSensitiveInfo text))).
Proof.
  apply separate_ids; [apply detect_separate|].
  intros it Hit. destruct (detect_faithful text it Hit) as (H1 & _ & _ & H2 & _).
  now split.
Qed.

Lemma detect_distinct (text : jsstring) :
  NoDup (map replacement (items (detectSensitiveInfo text))).
Proof.
  eapply Permutation_NoDup.
  - apply Permutation_map. symmetry. apply detect_items_perm.
  - apply (inv_distinct _ _ (scan_invariant text)).
Qed.

(** ** The placeholders of a result are bracketed tokens *)

Lemma closes_body (body : jsstring) :
  forallb (fun c => negb (N.eqb c 91) && negb (N.eqb c 93)) body = true ->
  closes (body ++ [93%N]) = true.
Proof.
  induction body as [|c body IH]; intros H; [reflexivity|].
  simpl in H. apply andb_true_iff in H as [Hc Hb].
  apply andb_true_iff in Hc as [H1 H2].
  simpl. apply negb_true_iff in H2. rewrite H2, H1. simpl. now apply IH.
Qed.

Lemma digits_no_bracket (d : jsstring) :
  forallb is_digit d = true ->
  forallb (fun c => negb (N.eqb c 91) && negb (N.eqb c 93)) d = true.
Proof.
  intros H. rewrite forallb_forall in *. intros c Hc. specialize (H c Hc).
  unfold is_digit, in_range in H. apply andb_true_iff in H as [H1 H2].
  apply N.leb_le in H1, H2.
  apply andb_true_iff. split; apply negb_true_iff, N.eqb_neq; lia.
Qed.

Lemma bracketed_placeholder (prefix : jsstring) (n : nat) :
  forallb (fun c => negb (N.eqb c 91) && negb (N.eqb c 93)) prefix = true ->
  bracketed (placeholder prefix n) = true.
Proof.
  intros H.
  assert (E : placeholder prefix n =
              91%N :: (prefix ++ 95%N :: Number_toString n) ++ [93%N])
    by (unfold placeholder; simpl; now rewrite <- app_assoc).
  rewrite E. change (closes ((prefix ++ 95%N :: Number_toString n) ++ [93%N]) = true).
  apply closes_body.
  rewrite forallb_app. apply andb_true_iff. split; [exact H|].
  simpl. apply digits_no_bracket, Number_toString_digits.
Qed.

Lemma registry_prefix_plain (t : SensitiveInfoType) :
  forallb (fun c => negb (N.eqb c 91) && negb (N.eqb c 93)) (prefix_of_type t) = true.
Proof. destruct t; reflexivity. Qed.

Lemma detect_bracketed (text : jsstring) (it : SensitiveItem) :
  In it (items (detectSensitiveInfo text)) -> bracketed (replacement it) = true.
Proof.
  intros H. apply detect_items_in in H.
  destruct (inv_numbered _ _ (scan_invariant text) it H) as (k & _ & ->).
  apply bracketed_placeholder, registry_prefix_plain.
Qed.

(** The items of a result are restorable when no placeholder of theirs
    occurs in the text and no original holds a [$]. *)
Lemma detect_restorable (text : jsstring) :
  (forall it, In it (items (detectSensitiveInfo text)) ->
     includes text (replacement it) = false /\ no_dollar (original it) = true) ->
  restorable text (items (detectSensitiveInfo text)).
Proof.
  intros H. constructor.
  - intros it Hit. now destruct (detect_faithful text it Hit) as (_ & _ & _ & _ & ?).
  - apply detect_fits.
  - intros it Hit. now destruct (detect_faithful text it Hit) as (_ & _ & ? & _).
  - apply detect_bracketed.
  - intros it Hit. now destruct (H it Hit).
  - apply detect_distinct.
  - intros it Hit. now destruct (H it Hit).
Qed.

(* ================================================================== *)
(** * The properties of the specification *)
(* ================================================================== *)

(** ** C9: scenario A *)

(** C9.  For the text "Contact me at jane.doe@example.com or call
    415-555-0199" detection returns exactly two items, the e-mail address
    (range 14 to 34) before the phone number (range 43 to 55), and the
    anonymized text "Contact me at [EMAIL_1] or call [PHONE_1]". *)
Theorem C9_scenario_A :
  items (detectSensitiveInfo scenarioA) = [scenarioA_email; scenarioA_phone] /\
  length (items (detectSensitiveInfo scenarioA)) = 2 /\
  map type (items (detectSensitiveInfo scenarioA)) = [email; phone] /\
  hasSensitiveInfo (detectSensitiveInfo scenarioA) = true /\
  anonymizedText (detectSensitiveInfo scenarioA) =
  js "Contact me at [EMAIL_1] or call [PHONE_1]".
Proof. vm_compute. repeat split. Qed.

(** ** C2: ranges *)

(** C2.  For every text the items of a result have pairwise non-overlapping
    ranges, the test being [a.start < b.end && b.start < a.end], and the
    list is sorted ascending by [startIndex]. *)
Theorem C2_ranges_separate_and_sorted (text : jsstring) :
  ForallOrdPairs
    (fun a b => rangesOverlap (range a) (range b) = false)
    (items (detectSensitiveInfo text)) /\
  StronglySorted (fun a b => startIndex a <= startIndex b)
    (items (detectSensitiveInfo text)).
Proof. split; [apply detect_separate | apply detect_sorted]. Qed.

(** ** C4: placeholders *)

(** C4.  For every text and every prefix, the placeholders of the [N] items
    of the result that have this prefix are, up to their order, [PREFIX_1]
    to [PREFIX_N]; and no two items of the result have the same
    placeholder. *)
Theorem C4_placeholders_unique (text prefix : jsstring) :
  Permutation
    (map replacement (with_prefix prefix (items (detectSensitiveInfo text))))
    (map (placeholder prefix)
       (seq 1 (length (with_prefix prefix (items (detectSensitiveInfo text)))))) /\
  NoDup (map replacement (items (detectSensitiveInfo text))).
Proof.
  split; [|apply detect_distinct].
  destruct (detect_placeholders text prefix) as [n Hn].
  assert (E : length (with_prefix prefix (items (detectSensitiveInfo text))) = n).
  { apply Permutation_length in Hn. now rewrite !length_map, length_seq in Hn. }
  now rewrite E.
Qed.

(** ** C5: validators *)

(** C5.  For every text, an item of category ssn has exactly 9 digits in
    its original and an item of category phone between 10 and 15; so none
    of category ssn has 8 digits and none of category phone has 16. *)
Theorem C5_validator_bounds (text : jsstring) (it : SensitiveItem)
    (Hit : In it (items (detectSensitiveInfo text))) :
  (type it = ssn ->
   length (digits_of (original it)) = 9 /\ length (digits_of (original it)) <> 8) /\
  (type it = phone ->
   10 <= length (digits_of (original it)) <= 15 /\
   length (digits_of (original it)) <> 16).
Proof.
  apply detect_items_in in Hit.
  destruct (inv_valid _ _ (scan_invariant text) it Hit) as [H1 H2].
  split; intros Ht; [specialize (H1 Ht) | specialize (H2 Ht)]; lia.
Qed.

Lemma C5_validator_bounds_witness :
  In scenarioA_phone (items (detectSensitiveInfo scenarioA)) /\
  ((type scenarioA_phone = ssn ->
    length (digits_of (original scenarioA_phone)) = 9 /\
    length (digits_of (original scenarioA_phone)) <> 8) /\
   (type scenarioA_phone = phone ->
    10 <= length (digits_of (original scenarioA_phone)) <= 15 /\
    length (digits_of (original scenarioA_phone)) <> 16)).
Proof.
  assert (H : In scenarioA_phone (items (detectSensitiveInfo scenarioA)))
    by (vm_compute; right; left; reflexivity).
  split; [exact H | exact (C5_validator_bounds scenarioA scenarioA_phone H)].
Defined.

(** Eight digits in the shape of a national identifier and sixteen digits
    in the shape of a phone number give no item. *)
Example eight_digits_not_flagged :
  items (detectSensitiveInfo (js "My SSN is 123-45-678")) = [].
Proof. vm_compute. reflexivity. Qed.

Example sixteen_digits_not_flagged :
  items (detectSensitiveInfo (js "call +12 345 678 901 234 56")) = [].
Proof. vm_compute. reflexivity. Qed.

(** ** C10: items are faithful to the text *)

(** C10.  For every text, every item of the result has
    [0 <= startIndex < endIndex <= length text], its original is the text
    at its range, its identifier is made of its category and its range, and
    two items have the same identifier only when they have the same
    category and range, in which case they are the same item. *)
Theorem C10_items_faithful (text : jsstring) (a b : SensitiveItem)
    (Ha : In a (items (detectSensitiveInfo text)))
    (Hb : In b (items (detectSensitiveInfo text))) :
  0 <= startIndex a /\ startIndex a < endIndex a /\ endIndex a <= length text /\
  original a = substring text (startIndex a) (endIndex a) /\
  id a = item_id (type a) (startIndex a) (endIndex a) /\
  (id a = id b <->
   type a = type b /\ startIndex a = startIndex b /\ endIndex a = endIndex b) /\
  (id a = id b -> a = b).
Proof.
  destruct (detect_faithful text a Ha) as (H1 & H2 & H3 & H4 & _).
  destruct (detect_faithful text b Hb) as (_ & _ & _ & H5 & _).
  split; [lia|]. split; [exact H1|]. split; [exact H2|]. split; [exact H3|].
  split; [exact H4|]. split; [split|].
  - intros E. rewrite H4, H5 in E. now apply item_id_inj in E.
  - intros (E1 & E2 & E3). rewrite H4, H5. congruence.
  - intros E. apply (NoDup_map_eq _ _ id (items (detectSensitiveInfo text)));
      [apply detect_ids | assumption..].
Qed.

Lemma C10_items_faithful_witness :
  In scenarioA_email (items (detectSensitiveInfo scenarioA)) /\
  In scenarioA_phone (items (detectSensitiveInfo scenarioA)) /\
  (0 <= startIndex scenarioA_email /\
   startIndex scenarioA_email < endIndex scenarioA_email /\
   endIndex scenarioA_email <= length scenarioA /\
   original scenarioA_email =
   substring scenarioA (startIndex scenarioA_email) (endIndex scenarioA_email) /\
   id scenarioA_email =
   item_id (type scenarioA_email) (startIndex scenarioA_email)
     (endIndex scenarioA_email) /\
   (id scenarioA_email = id scenarioA_phone <->
    type scenarioA_email = type scenarioA_phone /\
    startIndex scenarioA_email = startIndex scenarioA_phone /\
    endIndex scenarioA_email = endIndex scenarioA_phone) /\
   (id scenarioA_email = id scenarioA_phone -> scenarioA_email = scenarioA_phone)).
Proof.
  assert (Ha : In scenarioA_email (items (detectSensitiveInfo scenarioA)))
    by (vm_compute; left; reflexivity).
  assert (Hb : In scenarioA_phone (items (detectSensitiveInfo scenarioA)))
    by (vm_compute; right; left; reflexivity).
  split; [exact Ha | split; [exact Hb|]].
  exact (C10_items_faithful scenarioA scenarioA_email scenarioA_phone Ha Hb).
Defined.

(** ** C7: is there anything to reveal *)

(** C7 as stated fails on the empty text: the empty key occurs in it, and
    the answer is false. *)
Lemma C7_counterexample :
  ~ (forall (text : jsstring) (mapping : ReplacementMapping),
       hasMappablePlaceholders text mapping = true <->
       exists k, In k (map fst mapping) /\ occurs_in k text).
Proof.
  intros H.
  destruct (H [] [([], js "x")]) as [_ H']. 
  assert (E : hasMappablePlaceholders [] [([], js "x")] = true).
  { apply H'. exists []. split; [now left | now exists [], []]. }
  discriminate E.
Qed.

(** C7 (as amended).  [hasMappablePlaceholders] answers true if and only if
    the text is not empty and at least one key of the mapping occurs
    literally in it. *)
Theorem C7_hasMappablePlaceholders_iff (text : jsstring) (mapping : ReplacementMapping) :
  hasMappablePlaceholders text mapping = true <->
  text <> [] /\ exists k, In k (map fst mapping) /\ occurs_in k text.
Proof.
  unfold hasMappablePlaceholders. destruct text as [|c text].
  - simpl. split; [discriminate | intros [H _]; now contradiction H].
  - change (length (c :: text) =? 0) with false. simpl orb.
    destruct (length (Obj.keys mapping) =? 0) eqn:E.
    + apply Nat.eqb_eq in E. split; [discriminate|].
      intros (_ & k & Hk & _). apply (proj2 (keys_in _ _ _)) in Hk.
      destruct (Obj.keys mapping); [contradiction | discriminate].
    + rewrite existsb_exists. split.
      * intros (k & Hk & Hinc). split; [discriminate|].
        exists k. split;
          [now apply (proj1 (keys_in _ _ _)) | now apply (proj1 (includes_spec _ _))].
      * intros (_ & k & Hk & Hocc).
        exists k. split;
          [now apply (proj2 (keys_in _ _ _)) | now apply (proj2 (includes_spec _ _))].
Qed.

(** ** C8: merging mappings *)

(** C8.  Merging a new mapping into the mapping a session holds gives, for
    every key, the new value when the new mapping has the key and the old
    value otherwise; [saveReplacementMapping] stores this merge for the
    conversation and leaves the other conversations alone, and
    [updateReplacementMapping] puts it into the current conversation and
    leaves the other conversations alone. *)
Theorem C8_merge_semantics (old mapping : ReplacementMapping) (k : jsstring)
    (Hold : wf_obj old) (Hnew : wf_obj mapping) :
  Obj.get (merge old mapping) k = merged_value old mapping k /\
  (forall (all : MappingStore) (conversationId : jsstring),
     conversationId <> PROTO -> stored all conversationId = old ->
     (exists m,
        Obj.get (saveReplacementMapping all conversationId mapping) conversationId
        = Some m /\
        Obj.get m k = merged_value old mapping k) /\
     (forall other, other <> conversationId ->
        Obj.get (saveReplacementMapping all conversationId mapping) other =
        Obj.get all other)) /\
  (forall (prev : list Conversation) (cid : jsstring) (i : nat) (conv : Conversation),
     cid <> [] -> nth_error prev i = Some conv ->
     exists conv',
       nth_error (updateReplacementMapping (Some cid) mapping prev) i = Some conv' /\
       conv_id conv' = conv_id conv /\
       (conv_id conv <> cid -> conv' = conv) /\
       (conv_id conv = cid -> replacementMappings conv = old ->
        Obj.get (replacementMappings conv') k = merged_value old mapping k)).
Proof.
  split; [now apply get_merge | split].
  - intros all cid Hcid Hst. unfold saveReplacementMapping.
    apply str_eqb_neq in Hcid. rewrite Hcid.
    fold (stored all cid). rewrite Hst. split.
    + exists (merge old mapping). split; [apply get_set_same | now apply get_merge].
    + intros other Hne. apply get_set_other. congruence.
  - intros prev cid i conv Hcid Hnth. unfold updateReplacementMapping.
    assert (E : (length cid =? 0) = false)
      by (destruct cid; [contradiction | reflexivity]).
    rewrite E, nth_error_map, Hnth. simpl.
    destruct (str_eqb (conv_id conv) cid) eqn:Ec; simpl.
    + apply str_eqb_eq in Ec.
      eexists. split; [reflexivity|]. split; [reflexivity|]. split.
      * intros Hne. contradiction.
      * intros _ Ho. simpl. rewrite Ho. now apply get_merge.
    + apply str_eqb_neq in Ec.
      exists conv. split; [reflexivity|]. split; [reflexivity|]. split.
      * reflexivity.
      * intros Heq. contradiction.
Qed.

(** ** C3: ignored items *)

Lemma fits_middle (text : jsstring) (it : SensitiveItem) (l2 : list SensitiveItem) :
  forall l1 from, fits text from (l1 ++ it :: l2) ->
  fits text from l1 /\ (forall a, In a l1 -> endIndex a <= startIndex it) /\
  from <= startIndex it /\ startIndex it < endIndex it /\
  endIndex it <= length text /\ fits text (endIndex it) l2.
Proof.
  induction l1 as [|x l1 IH]; intros from H; simpl in *.
  - destruct H as (H1 & H2 & H3 & H4). repeat split; try assumption. intros a [].
  - destruct H as (H1 & H2 & H3 & H4).
    destruct (IH _ H4) as (H5 & H6 & H7 & H8 & H9 & H10).
    repeat split; try assumption; try lia.
    intros a [<- | Ha]; [exact H7 | now apply H6].
Qed.

Lemma fits_flip (text : jsstring) (it : SensitiveItem) (l2 : list SensitiveItem) :
  forall l1 from, fits text from (l1 ++ it :: l2) ->
  fits text from (l1 ++ flip_ignored it :: l2).
Proof.
  induction l1 as [|x l1 IH]; intros from H; simpl in *; [exact H|].
  destruct H as (H1 & H2 & H3 & H4). repeat split; try assumption. now apply IH.
Qed.

Lemma toggled_redaction (text : jsstring) (l1 l2 : list SensitiveItem) (it : SensitiveItem) :
  fits text 0 (l1 ++ it :: l2) ->
  (forall x, In x (l1 ++ it :: l2) -> ignored x = false) ->
  original it = substring text (startIndex it) (endIndex it) ->
  applyReplacements text (l1 ++ flip_ignored it :: l2) =
  applyReplacements (firstn (startIndex it) text) l1 ++ original it ++
  applyReplacements (skipn (endIndex it) text) (map (shift (endIndex it)) l2).
Proof.
  intros Hfit Hact Horig.
  destruct (fits_middle text it l2 l1 0 Hfit) as (F1 & F2 & _ & F3 & F4 & F5).
  assert (A1 : forall x, In x l1 -> negb (ignored x) = true).
  { intros x Hx. rewrite Hact; [reflexivity | apply in_or_app; now left]. }
  assert (A2 : forall x, In x l2 -> negb (ignored x) = true).
  { intros x Hx. rewrite Hact; [reflexivity | apply in_or_app; right; now right]. }
  assert (A3 : ignored it = false) by (apply Hact, in_or_app; right; now left).
  assert (S2 : forall x, In x l2 -> endIndex it <= startIndex x).
  { intros x Hx. now destruct (fits_in _ _ _ _ F5 Hx). }
  (* the whole text *)
  rewrite applyReplacements_splice by now apply fits_flip.
  rewrite filter_app. simpl filter. rewrite A3. simpl negb. cbv iota.
  rewrite (filter_all _ _ l1 A1), (filter_all _ _ l2 A2).
  rewrite (splice_app text (startIndex it) l2); [| |lia|exact F1|exact F2].
  2:{ intros x Hx. specialize (S2 x Hx). lia. }
  rewrite (splice_split text l2 (startIndex it) (endIndex it)); [|lia|exact S2].
  (* the text before the item *)
  rewrite (applyReplacements_splice (firstn (startIndex it) text) l1)
    by (apply fits_firstn; [lia | exact F1 | exact F2]).
  rewrite (filter_all _ _ l1 A1).
  (* the text after the item *)
  pose proof (fits_shift text (endIndex it) l2 (endIndex it) (Nat.le_refl _) F5) as F6.
  rewrite Nat.sub_diag in F6.
  rewrite (applyReplacements_splice (skipn (endIndex it) text)) by exact F6.
  rewrite filter_all.
  2:{ intros x Hx. apply in_map_iff in Hx as (y & <- & Hy). simpl. now apply A2. }
  pose proof (splice_shift text (endIndex it) l2 (endIndex it) (Nat.le_refl _) F5) as E.
  rewrite Nat.sub_diag in E. rewrite E, Horig.
  rewrite substring_inside by lia. reflexivity.
Qed.

(** C3.  For every text, when one item of the result of detection is
    toggled to ignored, the redacted text is the redaction of the text
    before the item by the items before it, then the original of the item,
    which is the text at its range, then the redaction of the text after the
    item by the items after it; the placeholder of the item is no key of
    the mapping built; and an item list that is empty or wholly ignored
    leaves a text as it is. *)
Theorem C3_ignored_items_untouched (text : jsstring) (i : nat)
    (it : SensitiveItem) (ignored_items : list SensitiveItem)
    (Hit : nth_error (items (detectSensitiveInfo text)) i = Some it)
    (Hall : forall x, In x ignored_items -> ignored x = true) :
  applyReplacements text (toggleItem (id it) (items (detectSensitiveInfo text))) =
  applyReplacements (firstn (startIndex it) text)
    (firstn i (items (detectSensitiveInfo text))) ++
  original it ++
  applyReplacements (skipn (endIndex it) text)
    (map (shift (endIndex it)) (skipn (S i) (items (detectSensitiveInfo text)))) /\
  original it = substring text (startIndex it) (endIndex it) /\
  ~ In (replacement it)
      (Obj.keys (buildReplacementMapping
                   (toggleItem (id it) (items (detectSensitiveInfo text))))) /\
  applyReplacements text ignored_items = text /\
  applyReplacements text [] = text.
Proof.
  pose proof (nth_error_parts _ _ _ _ Hit) as E.
  pose proof (detect_fits text) as Hfit.
  pose proof (detect_ids text) as Hids.
  pose proof (detect_distinct text) as Hnd.
  assert (Hin : In it (items (detectSensitiveInfo text)))
    by (eapply nth_error_In; exact Hit).
  destruct (detect_faithful text it Hin) as (_ & _ & Horig & _ & Hact).
  assert (Hactive : forall x, In x (items (detectSensitiveInfo text)) ->
                      ignored x = false).
  { intros x Hx. now destruct (detect_faithful text x Hx) as (_ & _ & _ & _ & ?). }
  remember (firstn i (items (detectSensitiveInfo text))) as l1 eqn:E1.
  remember (skipn (S i) (items (detectSensitiveInfo text))) as l2 eqn:E2.
  clear E1 E2.
  rewrite E in Hfit, Hids, Hnd, Hactive. rewrite E.
  rewrite toggleItem_at by exact Hids.
  split; [now apply toggled_redaction|]. split; [exact Horig|]. split.
  - intros Hk. apply (proj1 (keys_in _ _ _)) in Hk. revert Hk.
    rewrite buildReplacementMapping_fold. apply build_no_key; [|intros []].
    intros x Hx Hxa Erep.
    rewrite map_app in Hnd. simpl in Hnd. apply NoDup_remove_2 in Hnd.
    apply Hnd. rewrite <- map_app, <- Erep. apply in_map.
    apply in_app_or in Hx as [Hx | [<- | Hx]]; apply in_or_app; auto.
    simpl in Hxa. rewrite Hact in Hxa. discriminate Hxa.
  - split; [now apply applyReplacements_ignored | reflexivity].
Qed.

Lemma C3_ignored_items_untouched_witness :
  nth_error (items (detectSensitiveInfo scenarioA)) 0 = Some scenarioA_email /\
  (forall x, In x [flip_ignored scenarioA_phone] -> ignored x = true) /\
  applyReplacements scenarioA
    (toggleItem (id scenarioA_email) (items (detectSensitiveInfo scenarioA))) =
  js "Contact me at jane.doe@example.com or call [PHONE_1]" /\
  ~ In (replacement scenarioA_email)
      (Obj.keys (buildReplacementMapping
                   (toggleItem (id scenarioA_email)
                      (items (detectSensitiveInfo scenarioA))))) /\
  applyReplacements scenarioA [flip_ignored scenarioA_phone] = scenarioA.
Proof.
  assert (H1 : nth_error (items (detectSensitiveInfo scenarioA)) 0 =
               Some scenarioA_email) by (vm_compute; reflexivity).
  assert (H2 : forall x, In x [flip_ignored scenarioA_phone] -> ignored x = true)
    by (intros x [<- | []]; reflexivity).
  destruct (C3_ignored_items_untouched scenarioA 0 scenarioA_email
              [flip_ignored scenarioA_phone] H1 H2) as (E & _ & K & I & _).
  split; [exact H1 | split; [exact H2 | split; [|split; [exact K | exact I]]]].
  rewrite E. vm_compute. reflexivity.
Defined.

(** ** C1: the round trip *)

(** C1 as stated fails on a text that holds a placeholder before it is
    redacted: "[EMAIL_1] x@y.com" is redacted to "[EMAIL_1] [EMAIL_1]" and
    restored to "x@y.com x@y.com".  The hypothesis on the originals is
    taken here for all pairs of items. *)
Lemma C1_counterexample :
  ~ (forall (text : jsstring) (l : list SensitiveItem),
       (forall it, In it l -> ignored it = false) ->
       (forall a b, In a l -> In b l -> original a <> replacement b) ->
       restoreOriginals (applyReplacements text l) (buildReplacementMapping l) = text).
Proof.
  intros H.
  specialize (H placeholder_text (items (detectSensitiveInfo placeholder_text))).
  assert (H1 : forall it, In it (items (detectSensitiveInfo placeholder_text)) ->
                 ignored it = false).
  { intros it Hit. vm_compute in Hit. destruct Hit as [<- | []]. reflexivity. }
  assert (H2 : forall a b, In a (items (detectSensitiveInfo placeholder_text)) ->
                 In b (items (detectSensitiveInfo placeholder_text)) ->
                 original a <> replacement b).
  { intros a b Ha Hb. vm_compute in Ha, Hb.
    destruct Ha as [<- | []], Hb as [<- | []]. discriminate. }
  specialize (H H1 H2). vm_compute in H. discriminate H.
Qed.

(** C1 (as amended).  For a text and an item list that is restorable for
    it (all items active, their ranges non-empty, in the text and one after
    the other, each original the text at its range, each placeholder a
    bracketed token that does not occur in the text, no two placeholders
    equal, no [$] in an original), restoring the redacted text with the
    mapping built from the items gives the text back. *)
Theorem C1_round_trip (text : jsstring) (l : list SensitiveItem)
    (Hl : restorable text l) :
  restoreOriginals (applyReplacements text l) (buildReplacementMapping l) = text.
Proof.
  rename Hl into R.
  rewrite applyReplacements_splice by apply (rs_fits R).
  rewrite filter_all by (intros it Hit; now rewrite (rs_active R it Hit)).
  unfold restoreOriginals.
  change (fun result entry => replaceAll result (fst entry) (snd entry))
    with restore_step.
  rewrite (restore_entries text l R).
  - rewrite filter_none; [reflexivity|].
    intros it Hit. apply negb_false_iff. apply existsb_exists.
    exists (replacement it). split; [|apply str_eqb_refl].
    apply (proj2 (keys_in _ _ _)). rewrite buildReplacementMapping_fold.
    apply build_keys; [exact Hit | now apply (rs_active R) |].
    apply bracketed_not_proto. now apply (rs_bracketed R).
  - intros kv Hkv. apply (proj1 (entries_in _ _ _)) in Hkv.
    rewrite buildReplacementMapping_fold in Hkv.
    apply build_in in Hkv as [[] | (it & H1 & _ & H2)]. now exists it.
  - auto.
  - apply (rs_fits R).
Qed.

Lemma C1_round_trip_witness :
  restorable scenarioA [scenarioA_email; scenarioA_phone] /\
  restoreOriginals
    (applyReplacements scenarioA [scenarioA_email; scenarioA_phone])
    (buildReplacementMapping [scenarioA_email; scenarioA_phone]) = scenarioA.
Proof.
  assert (R : restorable scenarioA [scenarioA_email; scenarioA_phone]).
  { constructor.
    - intros it [<- | [<- | []]]; reflexivity.
    - simpl. vm_compute. repeat split; lia.
    - intros it [<- | [<- | []]]; vm_compute; reflexivity.
    - intros it [<- | [<- | []]]; vm_compute; reflexivity.
    - intros it [<- | [<- | []]]; vm_compute; reflexivity.
    - simpl. constructor; [|constructor; [intros [] | constructor]].
      intros [E | []]. discriminate E.
    - intros it [<- | [<- | []]]; vm_compute; reflexivity. }
  split; [exact R | exact (C1_round_trip scenarioA _ R)].
Defined.

(** ** C6: restoration *)

(** C6, at the input where the function departs from it.  The original
    "pa$$word" is restored as "pa$word": [replaceAll] reads the mapped
    value as a replacement template, in which [$$] stands for one [$].  The
    same holds from detection on: the credential of "password: pa$$word"
    comes back changed. *)
Theorem C6_restore_expands_dollar :
  restoreOriginals (js "[PASSWORD_1]") [(js "[PASSWORD_1]", js "pa$$word")] =
  js "pa$word" /\
  buildReplacementMapping (items (detectSensitiveInfo dollar_text)) =
  [(js "[PASSWORD_1]", js "password: pa$$word")] /\
  restoreOriginals (anonymizedText (detectSensitiveInfo dollar_text))
    (buildReplacementMapping (items (detectSensitiveInfo dollar_text))) =
  js "password: pa$word".
Proof. vm_compute. repeat split. Qed.

(** What [restoreOriginals] does when no mapped value holds a [$] and no key
    is empty: the entries in turn, each replacing every occurrence of its
    key in the text as it then is. *)
Lemma restore_literal (text : jsstring) (mapping : ReplacementMapping) :
  (forall kv, In kv mapping -> fst kv <> [] /\ no_dollar (snd kv) = true) ->
  restoreOriginals text mapping =
  fold_left (fun result kv => replace_literal (fst kv) (snd kv) 0 result)
    (Obj.entries mapping) text.
Proof.
  intros H. unfold restoreOriginals.
  assert (He : forall kv, In kv (Obj.entries mapping) ->
                 fst kv <> [] /\ no_dollar (snd kv) = true).
  { intros kv Hkv. apply H. now apply (proj1 (entries_in _ _ _)). }
  clear H. revert text.
  induction (Obj.entries mapping) as [|kv es IH]; intros text; [reflexivity|].
  simpl. destruct (He kv (or_introl eq_refl)) as [H1 H2].
  rewrite replaceAll_literal by assumption. apply IH.
  intros kv' Hkv'. apply He. now right.
Qed.

(** ** Witnesses of C7 and C8 *)

Lemma C7_hasMappablePlaceholders_iff_witness :
  hasMappablePlaceholders (js "Reach [EMAIL_1]") [] = false /\
  hasMappablePlaceholders (js "Reach [EMAIL_1]")
    [(js "[EMAIL_1]", js "jane.doe@example.com")] = true.
Proof.
  split; [reflexivity|].
  apply (proj2 (C7_hasMappablePlaceholders_iff (js "Reach [EMAIL_1]")
                  [(js "[EMAIL_1]", js "jane.doe@example.com")])).
  split; [discriminate|].
  exists (js "[EMAIL_1]"). split; [now left|].
  exists (js "Reach "), []. reflexivity.
Defined.

Lemma C8_merge_semantics_witness :
  wf_obj [(js "[EMAIL_1]", js "a@b.co"); (js "[SSN_1]", js "123-45-6789")] /\
  wf_obj [(js "[EMAIL_1]", js "c@d.org"); (js "[PHONE_1]", js "415-555-0199")] /\
  Obj.get
    (merge [(js "[EMAIL_1]", js "a@b.co"); (js "[SSN_1]", js "123-45-6789")]
       [(js "[EMAIL_1]", js "c@d.org"); (js "[PHONE_1]", js "415-555-0199")])
    (js "[EMAIL_1]") = Some (js "c@d.org").
Proof.
  assert (H1 : wf_obj [(js "[EMAIL_1]", js "a@b.co"); (js "[SSN_1]", js "123-45-6789")]).
  { unfold wf_obj. simpl. constructor; [|constructor; [intros [] | constructor]].
    intros [E | []]. discriminate E. }
  assert (H2 : wf_obj [(js "[EMAIL_1]", js "c@d.org");
                       (js "[PHONE_1]", js "415-555-0199")]).
  { unfold wf_obj. simpl. constructor; [|constructor; [intros [] | constructor]].
    intros [E | []]. discriminate E. }
  split; [exact H1 | split; [exact H2|]].
  exact (proj1 (C8_merge_semantics _ _ (js "[EMAIL_1]") H1 H2)).
Defined.

(* ================================================================== *)
(** * Further properties of the code *)
(* ================================================================== *)

(** ** Toggling *)

Lemma flip_ignored_twice (item : SensitiveItem) :
  flip_ignored (flip_ignored item) = item.
Proof. destruct item as [? ? ? ? ? ? ? ig]. unfold flip_ignored. simpl. now rewrite negb_involutive. Qed.

Lemma toggleItem_map (i : jsstring) (l : list SensitiveItem) :
  toggleItem i l =
  map (fun item => if str_eqb (id item) i then flip_ignored item else item) l.
Proof. reflexivity. Qed.

(** X1.  Toggling the same identifier twice gives the item list back, and
    one toggle changes nothing of an item list but [ignored] flags: the
    identifiers, categories, originals, placeholders and ranges stay. *)
Theorem X1_toggleItem_twice (i : jsstring) (l : list SensitiveItem) :
  toggleItem i (toggleItem i l) = l /\
  length (toggleItem i l) = length l /\
  map id (toggleItem i l) = map id l /\
  map type (toggleItem i l) = map type l /\
  map original (toggleItem i l) = map original l /\
  map replacement (toggleItem i l) = map replacement l /\
  map range (toggleItem i l) = map range l.
Proof.
  rewrite !toggleItem_map.
  split.
  { rewrite map_map. rewrite <- (map_id l) at 2. apply map_ext. intros a.
    destruct (str_eqb (id a) i) eqn:E.
    - change (id (flip_ignored a)) with (id a). rewrite E. apply flip_ignored_twice.
    - now rewrite E. }
  split; [apply length_map|].
  repeat split; rewrite map_map; apply map_ext; intros a;
    destruct (str_eqb (id a) i); reflexivity.
Qed.

(** ** Ranges *)

(** X8.  On two non-empty ranges [rangesOverlap] says whether they share an
    index, and it does not depend on the order of its arguments. *)
Theorem X8_rangesOverlap_shared_index (a b : nat * nat)
    (Ha : fst a < snd a) (Hb : fst b < snd b) :
  (rangesOverlap a b = true <->
   exists i, fst a <= i /\ i < snd a /\ fst b <= i /\ i < snd b) /\
  rangesOverlap a b = rangesOverlap b a.
Proof.
  split; [|apply rangesOverlap_sym].
  unfold rangesOverlap. rewrite andb_true_iff, !Nat.ltb_lt. split.
  - intros [H1 H2]. exists (Nat.max (fst a) (fst b)). lia.
  - intros (i & H1 & H2 & H3 & H4). lia.
Qed.

Lemma X8_rangesOverlap_shared_index_witness :
  fst (14, 34) < snd (14, 34) /\ fst (20, 40) < snd (20, 40) /\
  rangesOverlap (14, 34) (20, 40) = rangesOverlap (20, 40) (14, 34).
Proof.
  assert (H1 : fst (14, 34) < snd (14, 34)) by (simpl; lia).
  assert (H2 : fst (20, 40) < snd (20, 40)) by (simpl; lia).
  split; [exact H1 | split; [exact H2|]].
  exact (proj2 (X8_rangesOverlap_shared_index (14, 34) (20, 40) H1 H2)).
Defined.

(** ** The size of a result *)

Lemma fits_total (text : jsstring) (l : list SensitiveItem) :
  forall from, from <= length text -> fits text from l ->
  from + length l <= length text /\
  from + list_sum (map (fun it => endIndex it - startIndex it) l) <= length text.
Proof.
  induction l as [|it l IH]; intros from Hfrom H; simpl; [lia|].
  destruct H as (H1 & H2 & H3 & H4).
  destruct (IH (endIndex it) H3 H4) as [H5 H6]. lia.
Qed.

(** X7.  A result has at most as many items as the text has code units, and
    the lengths of their ranges add up to at most the length of the text;
    so the empty text has no item. *)
Theorem X7_items_bounded (text : jsstring) :
  length (items (detectSensitiveInfo text)) <= length text /\
  list_sum (map (fun it => endIndex it - startIndex it)
              (items (detectSensitiveInfo text))) <= length text /\
  items (detectSensitiveInfo []) = [].
Proof.
  destruct (fits_total text _ 0 (Nat.le_0_l _) (detect_fits text)) as [H1 H2].
  split; [exact H1 | split; [exact H2|]].
  destruct (fits_total [] _ 0 (Nat.le_0_l _) (detect_fits [])) as [H3 _].
  destruct (items (detectSensitiveInfo [])); [reflexivity | simpl in H3; lia].
Qed.

(** ** The mapping *)

Lemma build_get_other (k : jsstring) (l : list SensitiveItem) :
  (forall it, In it l -> ignored it = false -> replacement it <> k) ->
  forall acc, Obj.get (fold_left record_item l acc) k = Obj.get acc k.
Proof.
  induction l as [|x l IH]; intros Hl acc; simpl; [reflexivity|].
  rewrite IH by (intros it Hit; apply Hl; now right).
  destruct (record_item_cases acc x) as [-> | (Eig & _ & ->)]; [reflexivity|].
  apply get_set_other. now apply (Hl x (or_introl eq_refl)).
Qed.

Lemma build_get (l : list SensitiveItem) (it : SensitiveItem) :
  NoDup (map replacement l) -> In it l -> ignored it = false ->
  replacement it <> PROTO ->
  forall acc, Obj.get (fold_left record_item l acc) (replacement it) = Some (original it).
Proof.
  induction l as [|x l IH]; intros Hnd Hin Hact Hne acc; [contradiction|].
  simpl in Hnd. inversion Hnd as [|? ? Hx Hnd']; subst.
  simpl. destruct Hin as [-> | Hin].
  - rewrite build_get_other.
    + unfold record_item, assign. rewrite Hact.
      change (negb false) with true. cbv iota.
      apply str_eqb_neq in Hne. rewrite Hne. apply get_set_same.
    + intros y Hy _ E. apply Hx. rewrite <- E. now apply in_map.
  - now apply IH.
Qed.

(** X3.  In the mapping built from an item list with pairwise different
    placeholders, the placeholder of each item that is not ignored looks up
    as the original of that item (the name [__proto__] apart). *)
Theorem X3_mapping_lookup (l : list SensitiveItem) (it : SensitiveItem)
    (Hdistinct : NoDup (map replacement l)) (Hin : In it l)
    (Hactive : ignored it = false) (Hname : replacement it <> PROTO) :
  Obj.get (buildReplacementMapping l) (replacement it) = Some (original it).
Proof. rewrite buildReplacementMapping_fold. now apply build_get. Qed.

Lemma X3_mapping_lookup_witness :
  NoDup (map replacement [scenarioA_email; scenarioA_phone]) /\
  In scenarioA_phone [scenarioA_email; scenarioA_phone] /\
  ignored scenarioA_phone = false /\
  replacement scenarioA_phone <> PROTO /\
  Obj.get (buildReplacementMapping [scenarioA_email; scenarioA_phone])
    (replacement scenarioA_phone) = Some (original scenarioA_phone).
Proof.
  assert (H1 : NoDup (map replacement [scenarioA_email; scenarioA_phone])).
  { simpl. constructor; [|constructor; [intros [] | constructor]].
    intros [E | []]. discriminate E. }
  assert (H2 : In scenarioA_phone [scenarioA_email; scenarioA_phone])
    by (right; left; reflexivity).
  assert (H3 : ignored scenarioA_phone = false) by reflexivity.
  assert (H4 : replacement scenarioA_phone <> PROTO) by discriminate.
  split; [exact H1 | split; [exact H2 | split; [exact H3 | split; [exact H4|]]]].
  exact (X3_mapping_lookup _ _ H1 H2 H3 H4).
Defined.

(** X4.  The keys of the mapping built from an item list are the
    placeholders of its items that are not ignored, the name [__proto__]
    left out; each value is the original of such an item; and the mapping
    has no key twice. *)
Theorem X4_mapping_keys (l : list SensitiveItem) (k : jsstring) :
  (In k (Obj.keys (buildReplacementMapping l)) <->
   k <> PROTO /\ exists it, In it l /\ ignored it = false /\ replacement it = k) /\
  (forall v, Obj.get (buildReplacementMapping l) k = Some v ->
     exists it, In it l /\ ignored it = false /\ replacement it = k /\
                original it = v) /\
  wf_obj (buildReplacementMapping l).
Proof.
  split; [|split; [|apply wf_build]].
  - split.
    + intros Hk. apply (proj1 (keys_in _ _ _)) in Hk.
      apply in_map_iff in Hk as ([k' v] & <- & Hkv).
      rewrite buildReplacementMapping_fold in Hkv.
      assert (Hgen : forall l' acc kv, In kv (fold_left record_item l' acc) ->
                In kv acc \/
                exists it, In it l' /\ ignored it = false /\
                  replacement it <> PROTO /\ kv = (replacement it, original it)).
      { induction l' as [|x l' IH]; intros acc kv H; simpl in H; [now left|].
        apply IH in H as [H | (it & H1 & H2 & H3 & H4)].
        - destruct (record_item_cases acc x) as [E | (H1 & H2 & E)];
            rewrite E in H; [now left|].
          apply set_in in H as [H | H]; [right | now left].
          exists x. repeat split; auto. now left.
        - right. exists it. repeat split; auto. now right. }
      apply Hgen in Hkv as [[] | (it & H1 & H2 & H3 & H4)].
      injection H4 as -> ->. simpl. split; [exact H3|]. now exists it.
    + intros (Hne & it & H1 & H2 & <-).
      apply (proj2 (keys_in _ _ _)). rewrite buildReplacementMapping_fold.
      now apply build_keys.
  - intros v Hv. apply get_in in Hv. rewrite buildReplacementMapping_fold in Hv.
    apply build_in in Hv as [[] | (it & H1 & H2 & H3)].
    injection H3 as -> ->. now exists it.
Qed.

(** ** Restoring without anything to restore *)

Lemma replaceAll_scan_absent (p o whole : jsstring) :
  forall rest pos, includes rest p = false ->
  replaceAll_scan p o whole pos 0 rest = rest.
Proof.
  induction rest as [|c rest IH]; intros pos H.
  - simpl. destruct p; [discriminate H | reflexivity].
  - simpl in H. apply orb_false_iff in H as [H1 H2].
    simpl. rewrite H1. f_equal. now apply IH.
Qed.

Lemma replaceAll_absent (s p o : jsstring) :
  includes s p = false -> replaceAll s p o = s.
Proof. apply replaceAll_scan_absent. Qed.

Lemma restore_absent (text : jsstring) (mapping : ReplacementMapping) :
  (forall k, In k (map fst mapping) -> includes text k = false) ->
  restoreOriginals text mapping = text.
Proof.
  intros H. unfold restoreOriginals.
  assert (He : forall kv, In kv (Obj.entries mapping) -> includes text (fst kv) = false).
  { intros kv Hkv. apply H. apply in_map. now apply (proj1 (entries_in _ _ _)). }
  clear H. induction (Obj.entries mapping) as [|kv es IH]; [reflexivity|].
  simpl. rewrite replaceAll_absent by (apply He; now left).
  apply IH. intros kv' Hkv'. apply He. now right.
Qed.

(** X5.  [restoreOriginals] leaves a text as it is when no key of the
    mapping occurs in it, whatever the mapped values are; so it leaves
    every text as it is under the empty mapping. *)
Theorem X5_restore_without_occurrence (text : jsstring) (mapping : ReplacementMapping)
    (Habsent : forall k, In k (map fst mapping) -> ~ occurs_in k text) :
  restoreOriginals text mapping = text.
Proof.
  apply restore_absent. intros k Hk.
  destruct (includes text k) eqn:E; [|reflexivity].
  apply includes_spec in E. now apply Habsent in E.
Qed.

Lemma X5_restore_without_occurrence_witness :
  (forall k, In k (map fst [(js "[EMAIL_1]", js "a$$b")]) ->
     ~ occurs_in k (js "see [EMAIL_2]")) /\
  restoreOriginals (js "see [EMAIL_2]") [(js "[EMAIL_1]", js "a$$b")] =
  js "see [EMAIL_2]".
Proof.
  assert (H : forall k, In k (map fst [(js "[EMAIL_1]", js "a$$b")]) ->
                ~ occurs_in k (js "see [EMAIL_2]")).
  { intros k [<- | []] Hocc. apply (proj2 (includes_spec _ _)) in Hocc.
    vm_compute in Hocc. discriminate Hocc. }
  split; [exact H | exact (X5_restore_without_occurrence _ _ H)].
Defined.

(** X6.  When [hasMappablePlaceholders] answers false for a text that is
    not empty, [restoreOriginals] leaves the text as it is: the answer that
    hides the reveal control is right. *)
Theorem X6_not_mappable_not_restored (text : jsstring) (mapping : ReplacementMapping)
    (Hgate : hasMappablePlaceholders text mapping = false) (Htext : text <> []) :
  restoreOriginals text mapping = text.
Proof.
  apply restore_absent. intros k Hk.
  unfold hasMappablePlaceholders in Hgate.
  apply (proj2 (keys_in _ _ _)) in Hk.
  destruct text as [|c text]; [contradiction|].
  change (length (c :: text) =? 0) with false in Hgate. simpl orb in Hgate.
  destruct (length (Obj.keys mapping) =? 0) eqn:E.
  - apply Nat.eqb_eq in E. destruct (Obj.keys mapping); [contradiction | discriminate].
  - destruct (includes (c :: text) k) eqn:Ek; [|reflexivity].
    assert (Hex : existsb (fun ph => includes (c :: text) ph) (Obj.keys mapping) = true).
    { apply existsb_exists. now exists k. }
    congruence.
Qed.

Lemma X6_not_mappable_not_restored_witness :
  hasMappablePlaceholders (js "Reach [EMAIL_1]") [(js "[PHONE_1]", js "415")] = false /\
  js "Reach [EMAIL_1]" <> [] /\
  restoreOriginals (js "Reach [EMAIL_1]") [(js "[PHONE_1]", js "415")] =
  js "Reach [EMAIL_1]".
Proof.
  assert (H1 : hasMappablePlaceholders (js "Reach [EMAIL_1]")
                 [(js "[PHONE_1]", js "415")] = false) by (vm_compute; reflexivity).
  assert (H2 : js "Reach [EMAIL_1]" <> []) by discriminate.
  split; [exact H1 | split; [exact H2|]].
  exact (X6_not_mappable_not_restored _ _ H1 H2).
Defined.

(** ** The review dialog *)

(** X26.  When no item is active ([activeCount] is 0), "Replace and send"
    hands over what "Send without changes" does: the original text and the
    empty mapping. *)
Theorem X26_nothing_active (originalText : jsstring) (l : list SensitiveItem)
    (Hnone : Modal.activeCount l = 0) :
  Modal.handleReplaceAllAndSend originalText l =
  Modal.handleSendWithoutChanges originalText.
Proof.
  assert (Hall : forall it, In it l -> ignored it = true).
  { intros it Hit. destruct (ignored it) eqn:E; [reflexivity|].
    unfold Modal.activeCount in Hnone.
    assert (Hin : In it (filter (fun i => negb (ignored i)) l))
      by (apply filter_In; split; [exact Hit | now rewrite E]).
    destruct (filter (fun i => negb (ignored i)) l); [contradiction | discriminate]. }
  unfold Modal.handleReplaceAllAndSend, Modal.handleSendWithoutChanges.
  rewrite applyReplacements_ignored by exact Hall. f_equal.
  rewrite buildReplacementMapping_fold.
  clear Hnone. generalize (@nil (jsstring * jsstring)) as acc.
  induction l as [|x l IH]; intros acc; [reflexivity|].
  simpl. unfold record_item at 2. rewrite (Hall x (or_introl eq_refl)). simpl.
  apply IH. intros it Hit. apply Hall. now right.
Qed.

Lemma X26_nothing_active_witness :
  Modal.activeCount [flip_ignored scenarioA_email; flip_ignored scenarioA_phone] = 0 /\
  Modal.handleReplaceAllAndSend scenarioA
    [flip_ignored scenarioA_email; flip_ignored scenarioA_phone] =
  Modal.handleSendWithoutChanges scenarioA.
Proof.
  assert (H : Modal.activeCount
                [flip_ignored scenarioA_email; flip_ignored scenarioA_phone] = 0)
    by reflexivity.
  split; [exact H | exact (X26_nothing_active scenarioA _ H)].
Defined.

(** ** Redaction around an active item *)

Lemma active_redaction (text : jsstring) (l1 l2 : list SensitiveItem) (it : SensitiveItem) :
  fits text 0 (l1 ++ it :: l2) ->
  (forall x, In x (l1 ++ it :: l2) -> ignored x = false) ->
  applyReplacements text (l1 ++ it :: l2) =
  applyReplacements (firstn (startIndex it) text) l1 ++ replacement it ++
  applyReplacements (skipn (endIndex it) text) (map (shift (endIndex it)) l2).
Proof.
  intros Hfit Hact.
  destruct (fits_middle text it l2 l1 0 Hfit) as (F1 & F2 & _ & F3 & F4 & F5).
  assert (A1 : forall x, In x l1 -> negb (ignored x) = true).
  { intros x Hx. rewrite Hact; [reflexivity | apply in_or_app; now left]. }
  assert (A2 : forall x, In x l2 -> negb (ignored x) = true).
  { intros x Hx. rewrite Hact; [reflexivity | apply in_or_app; right; now right]. }
  assert (A3 : forall x, In x (l1 ++ it :: l2) -> negb (ignored x) = true).
  { intros x Hx. now rewrite Hact. }
  assert (S2 : forall x, In x (it :: l2) -> startIndex it <= startIndex x).
  { intros x [<- | Hx]; [lia|]. destruct (fits_in _ _ _ _ F5 Hx). lia. }
  rewrite applyReplacements_splice by exact Hfit.
  rewrite (filter_all _ _ _ A3).
  rewrite (splice_app text (startIndex it) (it :: l2) S2 l1 0 (Nat.le_0_l _) F1 F2).
  simpl splice. rewrite Nat.sub_diag. simpl firstn. simpl app.
  rewrite (applyReplacements_splice (firstn (startIndex it) text) l1)
    by (apply fits_firstn; [lia | exact F1 | exact F2]).
  rewrite (filter_all _ _ l1 A1).
  pose proof (fits_shift text (endIndex it) l2 (endIndex it) (Nat.le_refl _) F5) as F6.
  rewrite Nat.sub_diag in F6.
  rewrite (applyReplacements_splice (skipn (endIndex it) text)) by exact F6.
  rewrite filter_all.
  2:{ intros x Hx. apply in_map_iff in Hx as (y & <- & Hy). simpl. now apply A2. }
  pose proof (splice_shift text (endIndex it) l2 (endIndex it) (Nat.le_refl _) F5) as E.
  rewrite Nat.sub_diag in E. now rewrite E.
Qed.

(** X2.  For every text and every item of the result of detection, the
    anonymized text is the redaction of the text before the item by the
    items before it, then the placeholder of the item, then the redaction
    of the text after the item by the items after it; so the placeholder of
    every item occurs in the anonymized text. *)
Theorem X2_redaction_around_item (text : jsstring) (i : nat) (it : SensitiveItem)
    (Hit : nth_error (items (detectSensitiveInfo text)) i = Some it) :
  anonymizedText (detectSensitiveInfo text) =
  applyReplacements (firstn (startIndex it) text)
    (firstn i (items (detectSensitiveInfo text))) ++
  replacement it ++
  applyReplacements (skipn (endIndex it) text)
    (map (shift (endIndex it)) (skipn (S i) (items (detectSensitiveInfo text)))) /\
  occurs_in (replacement it) (anonymizedText (detectSensitiveInfo text)).
Proof.
  assert (E : anonymizedText (detectSensitiveInfo text) =
              applyReplacements text (items (detectSensitiveInfo text))) by reflexivity.
  pose proof (detect_fits text) as Hfit.
  assert (Hact : forall x, In x (items (detectSensitiveInfo text)) -> ignored x = false).
  { intros x Hx. apply (proj1 (detect_items_in _ _)) in Hx.
    now apply (inv_faithful _ _ (scan_invariant text)) in Hx. }
  rewrite E. clear E.
  pose proof (nth_error_parts _ _ _ _ Hit) as P.
  remember (firstn i (items (detectSensitiveInfo text))) as l1.
  remember (skipn (S i) (items (detectSensitiveInfo text))) as l2.
  clear Heql1 Heql2. rewrite P in Hfit, Hact |- *.
  rewrite (active_redaction text l1 l2 it Hfit Hact).
  split; [reflexivity|]. eexists. eexists. reflexivity.
Qed.

Lemma X2_redaction_around_item_witness :
  nth_error (items (detectSensitiveInfo scenarioA)) 1 = Some scenarioA_phone /\
  occurs_in (replacement scenarioA_phone)
    (anonymizedText (detectSensitiveInfo scenarioA)).
Proof.
  assert (H : nth_error (items (detectSensitiveInfo scenarioA)) 1 = Some scenarioA_phone)
    by (vm_compute; reflexivity).
  split; [exact H | exact (proj2 (X2_redaction_around_item scenarioA 1 _ H))].
Defined.

(** ** The first rule of the registry *)

Lemma exec_loop_chain (text : jsstring) (r : regex) :
  forall fuel lastIndex,
  Forall (fun m => lastIndex <= fst m) (exec_loop fuel r text lastIndex) /\
  StronglySorted (fun a b => snd a <= fst b) (exec_loop fuel r text lastIndex).
Proof.
  induction fuel as [|fuel IH]; intros li; simpl; [split; constructor|].
  destruct (exec r text li) as [[s e]|] eqn:E; [|split; constructor].
  destruct (exec_bounds text r li s e E) as (H1 & H2 & H3).
  destruct (IH e) as [H4 H5]. split.
  - constructor; [exact H1|].
    eapply Forall_impl; [|exact H4]. simpl. intros m Hm. lia.
  - constructor; [exact H5|]. exact H4.
Qed.

Lemma visit_kept (text : jsstring) (p : DetectionPattern) (st : ScanState)
    (m : nat * nat) (it : SensitiveItem) :
  In it (scanned st) -> In it (scanned (visit text p st m)).
Proof.
  intros H. destruct (visit_spec text p st m) as [-> | (_ & _ & _ & ->)]; [exact H|].
  simpl. apply in_or_app. now left.
Qed.

Lemma scan_pattern_kept (text : jsstring) (p : DetectionPattern) (it : SensitiveItem)
    (st : ScanState) :
  In it (scanned st) -> In it (scanned (scan_pattern text st p)).
Proof.
  intros H. unfold scan_pattern.
  apply (fold_left_invariant _ _ (visit text p) (fun a => In it (scanned a)));
    [|exact H].
  intros a x _. apply visit_kept.
Qed.

Lemma scan_kept (text : jsstring) (it : SensitiveItem) (ps : list DetectionPattern)
    (st : ScanState) :
  In it (scanned st) -> In it (scanned (fold_left (scan_pattern text) ps st)).
Proof.
  apply (fold_left_invariant _ _ (scan_pattern text) (fun a => In it (scanned a))).
  intros a p _. apply scan_pattern_kept.
Qed.

Lemma visit_free (text : jsstring) (p : DetectionPattern) (st : ScanState)
    (m : nat * nat) :
  pat_type p = email ->
  (forall r, In r (usedRanges st) -> snd r <= fst m) ->
  exists it,
    scanned (visit text p st m) = scanned st ++ [it] /\
    usedRanges (visit text p st m) = usedRanges st ++ [m] /\
    type it = email /\ range it = m /\
    original it = substring text (fst m) (snd m).
Proof.
  intros Hty Hfree. unfold visit.
  assert (E : existsb (fun r => rangesOverlap (fst m, snd m) r) (usedRanges st) = false).
  { destruct (existsb _ _) eqn:E; [|reflexivity].
    apply existsb_exists in E as (r & Hr & Ho).
    unfold rangesOverlap in Ho. apply andb_true_iff in Ho as [Ho _].
    apply Nat.ltb_lt in Ho. simpl in Ho. specialize (Hfree r Hr). lia. }
  rewrite E, Hty. simpl andb. cbv iota.
  destruct (getPlaceholder (counters st) (pat_prefix p)) as [cs repl].
  eexists. split; [reflexivity|]. simpl.
  destruct m as [s e]. repeat split.
Qed.

Lemma scan_first_rule (text : jsstring) (p : DetectionPattern) :
  pat_type p = email ->
  forall ms st,
  StronglySorted (fun a b : nat * nat => snd a <= fst b) ms ->
  (forall r m, In r (usedRanges st) -> In m ms -> snd r <= fst m) ->
  forall m, In m ms ->
  exists it, In it (scanned (fold_left (visit text p) ms st)) /\
    type it = email /\ range it = m /\
    original it = substring text (fst m) (snd m).
Proof.
  intros Hty. induction ms as [|m0 ms IH]; intros st Hs Hfree m Hm; [contradiction|].
  inversion Hs as [|? ? Hs' Hall]; subst.
  destruct (visit_free text p st m0 Hty) as (it & E1 & E2 & H1 & H2 & H3).
  { intros r Hr. apply (Hfree r m0 Hr). now left. }
  simpl. destruct Hm as [<- | Hm].
  - exists it. split; [|auto].
    apply (fold_left_invariant _ _ (visit text p) (fun a => In it (scanned a))).
    + intros a x _. apply visit_kept.
    + rewrite E1. apply in_or_app. right. now left.
  - apply IH; [exact Hs' | | exact Hm].
    intros r m' Hr Hm'. rewrite E2 in Hr. apply in_app_or in Hr as [Hr | [<- | []]].
    + apply (Hfree r m' Hr). now right.
    + rewrite Forall_forall in Hall. now apply Hall.
Qed.

Lemma email_match_scanned (text : jsstring) (m : nat * nat) :
  In m (exec_all Patterns.re_email text) ->
  exists it, In it (scanned (scan text DETECTION_PATTERNS)) /\
    type it = email /\ range it = m /\
    original it = substring text (fst m) (snd m).
Proof.
  intros Hm.
  pose (p := mkPattern email (js "Email Address") Patterns.re_email (js "EMAIL")).
  destruct (scan_first_rule text p eq_refl (exec_all Patterns.re_email text)
              (mkState [] [] [])
              (proj2 (exec_loop_chain text _ _ _))
              (fun r m' (Hr : In r []) _ => match Hr with end) m Hm)
    as (it & H1 & H2).
  exists it. split; [|exact H2].
  apply (scan_kept text it (tl DETECTION_PATTERNS)
           (scan_pattern text (mkState [] [] []) (hd p DETECTION_PATTERNS))).
  exact H1.
Qed.

(** X9.  The rule for e-mail addresses is the first of the registry, and
    nothing can take a range before it: every match of its expression in a
    text is an item of the result, of category [email], with the range and
    the text of the match. *)
Theorem X9_email_matches_all_flagged (text : jsstring) (m : nat * nat)
    (Hm : In m (exec_all Patterns.re_email text)) :
  exists it, In it (items (detectSensitiveInfo text)) /\
    type it = email /\ range it = m /\
    original it = substring text (fst m) (snd m).
Proof.
  destruct (email_match_scanned text m Hm) as (it & H1 & H2).
  exists it. split; [|exact H2].
  apply (proj2 (detect_items_in _ _)). exact H1.
Qed.

Lemma X9_email_matches_all_flagged_witness :
  In (14, 34) (exec_all Patterns.re_email scenarioA) /\
  exists it, In it (items (detectSensitiveInfo scenarioA)) /\
    type it = email /\ range it = (14, 34) /\
    original it = substring scenarioA (fst (14, 34)) (snd (14, 34)).
Proof.
  assert (H : In (14, 34) (exec_all Patterns.re_email scenarioA))
    by (vm_compute; left; reflexivity).
  split; [exact H | exact (X9_email_matches_all_flagged scenarioA (14, 34) H)].
Defined.

(** ** The blocklist of the username rules *)

Lemma user_mark_not_upper (c : char) :
  Patterns.user_mark c = true -> is_upper c = false.
Proof.
  unfold Patterns.user_mark, is_digit, is_upper, in_range, one_of. simpl.
  rewrite !orb_true_iff, andb_true_iff, andb_false_iff, !N.leb_le, !N.leb_gt, !N.eqb_eq.
  lia.
Qed.

Lemma toLowerCase_mark (token : jsstring) :
  existsb Patterns.user_mark token = true ->
  existsb Patterns.user_mark (toLowerCase token) = true.
Proof.
  intros H. apply existsb_exists in H as (c & Hc & Hm).
  apply existsb_exists. exists c. split; [|exact Hm].
  unfold toLowerCase. apply in_map_iff. exists c. split; [|exact Hc].
  unfold to_lower. now rewrite (user_mark_not_upper c Hm).
Qed.

Lemma marked_token_accepted (token : jsstring) :
  existsb Patterns.user_mark token = true -> looksLikeUsername token = true.
Proof.
  intros Hmark. unfold looksLikeUsername.
  destruct (existsb (str_eqb (toLowerCase token)) USERNAME_BLOCKLIST) eqn:E;
    [|reflexivity].
  apply existsb_exists in E as (w & Hw & Ew). apply str_eqb_eq in Ew.
  apply toLowerCase_mark in Hmark. rewrite Ew in Hmark.
  assert (Hall : forallb (fun w => negb (existsb Patterns.user_mark w))
                   USERNAME_BLOCKLIST = true) by (vm_compute; reflexivity).
  rewrite forallb_forall in Hall. specialize (Hall w Hw).
  rewrite Hmark in Hall. discriminate Hall.
Qed.

Lemma matcher_marks (text : jsstring) (r : regex) :
  marks r ->
  forall x c z, x <= length text -> matcher text r x c = Some z ->
  exists y, x <= y /\ y <= length text /\ marked text x y /\ c y = Some z.
Proof.
  induction r as [|p|r1 IH1 r2 IH2|r1 IH1 r2 IH2|r0 IH min max| |r0 IH|r0 IH];
    intros Hr x c z Hx H; simpl in Hr; try contradiction; simpl in H.
  - destruct (nth_error text x) as [ch|] eqn:E; [|discriminate].
    destruct (p ch) eqn:Ep; [|discriminate].
    assert (x < length text) by (apply nth_error_Some; congruence).
    exists (S x). split; [lia | split; [lia | split; [|exact H]]].
    exists x, ch. split; [lia | split; [lia | split; [exact E | now apply Hr]]].
  - destruct Hr as [Hr | Hr].
    + apply (IH1 Hr) in H as (y & H1 & H2 & (i & ch & H3 & H4 & H5) & H); [|exact Hx].
      apply matcher_sound in H as (y' & H6 & H7 & H); [|exact H2].
      exists y'. split; [lia | split; [exact H7 | split; [|exact H]]].
      exists i, ch. split; [lia | split; [lia | now split]].
    + apply matcher_sound in H as (y & H1 & H2 & H); [|exact Hx].
      apply (IH2 Hr) in H as (y' & H3 & H4 & (i & ch & H5 & H6 & H7) & H); [|exact H2].
      exists y'. split; [lia | split; [exact H4 | split; [|exact H]]].
      exists i, ch. split; [lia | split; [lia | now split]].
  - destruct Hr as [Hr1 Hr2].
    destruct (matcher text r1 x c) as [z'|] eqn:E.
    + injection H as ->. now apply (IH1 Hr1) in E.
    + now apply (IH2 Hr2) in H.
Qed.

Lemma exec_loop_marked (text : jsstring) (r : regex) :
  marks r ->
  forall fuel lastIndex,
  Forall (fun m => marked text (fst m) (snd m)) (exec_loop fuel r text lastIndex).
Proof.
  intros Hr.
  assert (F : forall n x s e, x + n <= length text ->
                first_match text r x n = Some (s, e) -> marked text s e).
  { induction n as [|n IH]; intros x s e Hx H; simpl in H;
      destruct (match_at text r x) as [e'|] eqn:E.
    - injection H as <- <-. unfold match_at in E.
      apply (matcher_marks text r Hr) in E as (y & _ & _ & Hm & Hy); [|lia].
      injection Hy as <-. exact Hm.
    - discriminate.
    - injection H as <- <-. unfold match_at in E.
      apply (matcher_marks text r Hr) in E as (y & _ & _ & Hm & Hy); [|lia].
      injection Hy as <-. exact Hm.
    - apply (IH (S x)); [lia | exact H]. }
  induction fuel as [|fuel IH]; intros lastIndex; simpl; [constructor|].
  destruct (exec r text lastIndex) as [[s e]|] eqn:E; [|constructor].
  constructor; [|apply IH]. simpl. unfold exec in E.
  destruct (Nat.ltb (length text) lastIndex) eqn:El; [discriminate|].
  apply Nat.ltb_ge in El.
  apply (F (length text - lastIndex) lastIndex); [lia | exact E].
Qed.

Lemma marked_substring (text : jsstring) (s e : nat) :
  e <= length text -> marked text s e ->
  existsb Patterns.user_mark (substring text s e) = true.
Proof.
  intros He (i & ch & H1 & H2 & H3 & H4).
  rewrite substring_inside by lia.
  apply existsb_exists. exists ch. split; [|exact H4].
  apply nth_error_In with (n := i - s).
  rewrite nth_error_firstn.
  assert (Hlt : i - s < e - s) by lia.
  apply Nat.ltb_lt in Hlt. rewrite Hlt.
  rewrite nth_error_skipn. rewrite <- H3. f_equal. lia.
Qed.

(** X10.  The blocklist of the username rules never rejects anything: every
    match of a username rule has a digit, an underscore, a dot or a hyphen
    in it, no word of the blocklist has one, and so [looksLikeUsername]
    accepts every match it is asked about. *)
Theorem X10_username_blocklist_idle (text : jsstring) (p : DetectionPattern)
    (m : nat * nat)
    (Hp : In p DETECTION_PATTERNS) (Hty : pat_type p = username)
    (Hm : In m (exec_all (pat_regex p) text)) :
  existsb Patterns.user_mark (substring text (fst m) (snd m)) = true /\
  looksLikeUsername (substring text (fst m) (snd m)) = true /\
  (forall token, existsb Patterns.user_mark token = true ->
     looksLikeUsername token = true).
Proof.
  assert (Hr : marks (pat_regex p)).
  { unfold DETECTION_PATTERNS in Hp. simpl in Hp.
    repeat (destruct Hp as [<- | Hp]; [try discriminate Hty|]);
      try contradiction; simpl; auto 10. }
  assert (Hmk : existsb Patterns.user_mark (substring text (fst m) (snd m)) = true).
  { pose proof (exec_loop_marked text _ Hr (S (length text)) 0) as HF.
    rewrite Forall_forall in HF.
    apply marked_substring; [|now apply HF].
    now apply (exec_all_bounds text (pat_regex p) m). }
  split; [exact Hmk | split; [|exact marked_token_accepted]].
  now apply marked_token_accepted.
Qed.

Lemma X10_username_blocklist_idle_witness :
  In (mkPattern username (js "Username") Patterns.re_username_after (js "USERNAME"))
    DETECTION_PATTERNS /\
  In (9, 14) (exec_all Patterns.re_username_after (js "username The-1 here")) /\
  looksLikeUsername (substring (js "username The-1 here") 9 14) = true.
Proof.
  assert (H1 : In (mkPattern username (js "Username") Patterns.re_username_after
                     (js "USERNAME")) DETECTION_PATTERNS).
  { unfold DETECTION_PATTERNS. do 11 right. left. reflexivity. }
  assert (H2 : In (9, 14) (exec_all Patterns.re_username_after
                             (js "username The-1 here")))
    by (vm_compute; left; reflexivity).
  split; [exact H1 | split; [exact H2|]].
  exact (proj1 (proj2 (X10_username_blocklist_idle (js "username The-1 here") _
                         (9, 14) H1 eq_refl H2))).
Defined.

(** ** Mappings over several turns *)

Lemma get_merges (k : jsstring) (ms : list ReplacementMapping) :
  Forall (fun m => wf_obj m) ms ->
  forall old, wf_obj old ->
  Obj.get (fold_left merge ms old) k =
  fold_left (fun found m => match Obj.get m k with Some v => Some v | None => found end)
    ms (Obj.get old k).
Proof.
  induction 1 as [|m ms Hm Hms IH]; intros old Hold; [reflexivity|].
  simpl. rewrite IH by apply wf_merge. now rewrite get_merge.
Qed.

(** X11.  Over any number of merges the value of a key is that of the last
    mapping merged that has the key, and the value the first mapping had
    when none has: a placeholder of an earlier turn stays in the mapping of
    a session until a later turn gives the same placeholder again. *)
Theorem X11_merges_last_wins (old : ReplacementMapping)
    (ms : list ReplacementMapping) (k : jsstring)
    (Hold : wf_obj old) (Hms : Forall (fun m => wf_obj m) ms) :
  Obj.get (fold_left merge ms old) k =
  fold_left (fun found m => match Obj.get m k with Some v => Some v | None => found end)
    ms (Obj.get old k) /\
  (forall v, Obj.get old k = Some v ->
     (forall m, In m ms -> Obj.get m k = None) ->
     Obj.get (fold_left merge ms old) k = Some v).
Proof.
  split; [now apply get_merges|].
  intros v Hv Hnone. rewrite get_merges by assumption. rewrite Hv.
  clear Hms. induction ms as [|m ms IH]; [reflexivity|].
  simpl. rewrite (Hnone m (or_introl eq_refl)). apply IH.
  intros m' Hm'. apply Hnone. now right.
Qed.

Lemma X11_merges_last_wins_witness :
  wf_obj [(js "[EMAIL_1]", js "a@b.co")] /\
  Forall (fun m : ReplacementMapping => wf_obj m)
    [[(js "[PHONE_1]", js "415")]; [(js "[EMAIL_1]", js "c@d.co")]] /\
  Obj.get
    (fold_left merge [[(js "[PHONE_1]", js "415")]; [(js "[EMAIL_1]", js "c@d.co")]]
       [(js "[EMAIL_1]", js "a@b.co")]) (js "[EMAIL_1]") =
  fold_left (fun found m =>
               match Obj.get m (js "[EMAIL_1]") with Some v => Some v | None => found end)
    [[(js "[PHONE_1]", js "415")]; [(js "[EMAIL_1]", js "c@d.co")]]
    (Obj.get [(js "[EMAIL_1]", js "a@b.co")] (js "[EMAIL_1]")).
Proof.
  assert (W : forall k v : jsstring, wf_obj [(k, v)]).
  { intros k v. constructor; [intros [] | constructor]. }
  assert (H1 : wf_obj [(js "[EMAIL_1]", js "a@b.co")]) by apply W.
  assert (H2 : Forall (fun m : ReplacementMapping => wf_obj m)
                 [[(js "[PHONE_1]", js "415")]; [(js "[EMAIL_1]", js "c@d.co")]]).
  { constructor; [apply W | constructor; [apply W | constructor]]. }
  split; [exact H1 | split; [exact H2|]].
  exact (proj1 (X11_merges_last_wins _ _ (js "[EMAIL_1]") H1 H2)).
Defined.

Lemma stored_save (all : MappingStore) (cid : jsstring) (mapping : ReplacementMapping) :
  cid <> PROTO ->
  stored (saveReplacementMapping all cid mapping) cid = merge (stored all cid) mapping.
Proof.
  intros H. unfold stored at 1, saveReplacementMapping.
  apply str_eqb_neq in H. rewrite H. now rewrite get_set_same.
Qed.

Lemma stored_saves (cid : jsstring) (ms : list ReplacementMapping) :
  cid <> PROTO ->
  forall all,
  stored (fold_left (fun a m => saveReplacementMapping a cid m) ms all) cid =
  fold_left merge ms (stored all cid).
Proof.
  intros H. induction ms as [|m ms IH]; intros all; [reflexivity|].
  simpl. rewrite IH. now rewrite stored_save.
Qed.

(** X12.  Over any number of calls of [saveReplacementMapping] for one
    conversation, the mapping stored for the conversation is the merge of
    all the mappings in the order of the calls, the mappings of the other
    conversations are what they were, and a store without a repeated
    conversation stays one. *)
Theorem X12_saves_accumulate (all : MappingStore) (cid : jsstring)
    (ms : list ReplacementMapping) (Hcid : cid <> PROTO) :
  stored (fold_left (fun a m => saveReplacementMapping a cid m) ms all) cid =
  fold_left merge ms (stored all cid) /\
  (forall other, other <> cid ->
     Obj.get (fold_left (fun a m => saveReplacementMapping a cid m) ms all) other =
     Obj.get all other) /\
  (wf_obj all ->
   wf_obj (fold_left (fun a m => saveReplacementMapping a cid m) ms all)).
Proof.
  split; [now apply stored_saves | split].
  - intros other Hne. revert all. induction ms as [|m ms IH]; intros all; [reflexivity|].
    simpl. rewrite IH. unfold saveReplacementMapping.
    destruct (str_eqb cid PROTO); [reflexivity|].
    apply get_set_other. congruence.
  - revert all. induction ms as [|m ms IH]; intros all Hwf; [exact Hwf|].
    simpl. apply IH. unfold saveReplacementMapping.
    destruct (str_eqb cid PROTO); [exact Hwf | now apply wf_set].
Qed.

Lemma X12_saves_accumulate_witness :
  js "c1" <> PROTO /\
  stored (fold_left (fun a m => saveReplacementMapping a (js "c1") m)
            [[(js "[EMAIL_1]", js "a@b.co")]; [(js "[PHONE_1]", js "415")]] [])
    (js "c1") =
  fold_left merge [[(js "[EMAIL_1]", js "a@b.co")]; [(js "[PHONE_1]", js "415")]]
    (stored [] (js "c1")).
Proof.
  assert (H : js "c1" <> PROTO) by discriminate.
  split; [exact H | exact (proj1 (X12_saves_accumulate [] (js "c1") _ H))].
Defined.

(** ** Restoring after the review *)

Lemma restore_restorable (text : jsstring) (l : list SensitiveItem) :
  restorable text l ->
  restoreOriginals (applyReplacements text l) (buildReplacementMapping l) = text.
Proof.
  intros R.
  rewrite applyReplacements_splice by apply (rs_fits R).
  rewrite filter_all by (intros it Hit; now rewrite (rs_active R it Hit)).
  unfold restoreOriginals.
  change (fun result entry => replaceAll result (fst entry) (snd entry))
    with restore_step.
  rewrite (restore_entries text l R).
  - rewrite filter_none; [reflexivity|].
    intros it Hit. apply negb_false_iff. apply existsb_exists.
    exists (replacement it). split; [|apply str_eqb_refl].
    apply (proj2 (keys_in _ _ _)). rewrite buildReplacementMapping_fold.
    apply build_keys; [exact Hit | now apply (rs_active R) |].
    apply bracketed_not_proto. now apply (rs_bracketed R).
  - intros kv Hkv. apply (proj1 (entries_in _ _ _)) in Hkv.
    rewrite buildReplacementMapping_fold in Hkv.
    apply build_in in Hkv as [[] | (it & H1 & _ & H2)]. now exists it.
  - auto.
  - apply (rs_fits R).
Qed.

Lemma NoDup_map_filter (A B : Type) (r : A -> B) (f : A -> bool) (l : list A) :
  NoDup (map r l) -> NoDup (map r (filter f l)).
Proof.
  induction l as [|x l IH]; intros H; [constructor|].
  simpl in H. inversion H as [|? ? Hx Hl]; subst. simpl.
  destruct (f x); [|now apply IH].
  simpl. constructor; [|now apply IH].
  intros Hin. apply Hx. apply in_map_iff in Hin as (y & E & Hy).
  apply filter_In in Hy as [Hy _]. apply in_map_iff. now exists y.
Qed.

Lemma restorable_filter (text : jsstring) (f : SensitiveItem -> bool)
    (l : list SensitiveItem) :
  restorable text l -> restorable text (filter f l).
Proof.
  intros R.
  assert (S : forall it, In it (filter f l) -> In it l)
    by (intros it Hit; now apply filter_In in Hit).
  constructor.
  - intros it Hit. apply (rs_active R), S, Hit.
  - apply fits_filter, (rs_fits R).
  - intros it Hit. apply (rs_original R), S, Hit.
  - intros it Hit. apply (rs_bracketed R), S, Hit.
  - intros it Hit. apply (rs_fresh R), S, Hit.
  - apply NoDup_map_filter, (rs_distinct R).
  - intros it Hit. apply (rs_no_dollar R), S, Hit.
Qed.

Lemma build_active (l : list SensitiveItem) :
  forall acc,
  fold_left record_item (filter (fun item => negb (ignored item)) l) acc =
  fold_left record_item l acc.
Proof.
  induction l as [|x l IH]; intros acc; [reflexivity|].
  simpl. destruct (ignored x) eqn:E; simpl.
  - rewrite IH. unfold record_item at 3. now rewrite E.
  - apply IH.
Qed.

Lemma apply_active (text : jsstring) (l : list SensitiveItem) :
  applyReplacements text (filter (fun item => negb (ignored item)) l) =
  applyReplacements text l.
Proof.
  unfold applyReplacements. rewrite filter_twice.
  do 2 f_equal. apply filter_ext. intros a. now destruct (ignored a).
Qed.

Lemma restore_active (text : jsstring) (l : list SensitiveItem) :
  restorable text (filter (fun item => negb (ignored item)) l) ->
  restoreOriginals (applyReplacements text l) (buildReplacementMapping l) = text.
Proof.
  intros R. rewrite <- apply_active.
  rewrite (buildReplacementMapping_fold l), <- build_active,
    <- buildReplacementMapping_fold.
  now apply restore_restorable.
Qed.

Lemma toggles_as_map (toggles : list jsstring) :
  forall l0, exists g : jsstring -> bool,
  fold_left (fun l i => toggleItem i l) toggles l0 =
  map (fun a => if g (id a) then flip_ignored a else a) l0.
Proof.
  induction toggles as [|t ts IH]; intros l0.
  - exists (fun _ => false). simpl. now rewrite map_id.
  - simpl. destruct (IH (toggleItem t l0)) as [g E].
    exists (fun x => xorb (g x) (str_eqb x t)).
    rewrite E, toggleItem_map, map_map. apply map_ext. intros a.
    destruct (str_eqb (id a) t) eqn:Et.
    + change (id (flip_ignored a)) with (id a).
      destruct (g (id a)); simpl; [apply flip_ignored_twice | reflexivity].
    + destruct (g (id a)); reflexivity.
Qed.

Lemma active_after_toggles (g : jsstring -> bool) (l0 : list SensitiveItem) :
  (forall a, In a l0 -> ignored a = false) ->
  filter (fun item => negb (ignored item))
    (map (fun a => if g (id a) then flip_ignored a else a) l0) =
  filter (fun a => negb (g (id a))) l0.
Proof.
  induction l0 as [|a l0 IH]; intros H; [reflexivity|].
  simpl. rewrite IH by (intros x Hx; apply H; now right).
  pose proof (H a (or_introl eq_refl)) as Ha.
  destruct (g (id a)); simpl; now rewrite Ha.
Qed.

Lemma detect_active (text : jsstring) (it : SensitiveItem) :
  In it (items (detectSensitiveInfo text)) -> ignored it = false.
Proof.
  intros H. apply (proj1 (detect_items_in _ _)) in H.
  now apply (inv_faithful _ _ (scan_invariant text)) in H.
Qed.

(** X13.  Whatever the user toggles in the review dialog, and in whatever
    order, restoring the text the dialog hands over with the mapping it
    hands over gives the original text back, when no placeholder of the
    result occurs in the text already and no original has a [$]. *)
Theorem X13_round_trip_after_toggles (text : jsstring) (toggles : list jsstring)
    (Hfresh : forall it, In it (items (detectSensitiveInfo text)) ->
       includes text (replacement it) = false /\ no_dollar (original it) = true) :
  restoreOriginals
    (fst (Modal.handleReplaceAllAndSend text
            (fold_left (fun l i => toggleItem i l) toggles
               (items (detectSensitiveInfo text)))))
    (snd (Modal.handleReplaceAllAndSend text
            (fold_left (fun l i => toggleItem i l) toggles
               (items (detectSensitiveInfo text))))) = text.
Proof.
  unfold Modal.handleReplaceAllAndSend. cbn [fst snd].
  apply restore_active.
  destruct (toggles_as_map toggles (items (detectSensitiveInfo text))) as [g ->].
  rewrite active_after_toggles by apply detect_active.
  apply restorable_filter. now apply detect_restorable.
Qed.

Lemma X13_round_trip_after_toggles_witness :
  (forall it, In it (items (detectSensitiveInfo scenarioA)) ->
     includes scenarioA (replacement it) = false /\ no_dollar (original it) = true) /\
  restoreOriginals
    (fst (Modal.handleReplaceAllAndSend scenarioA
            (fold_left (fun l i => toggleItem i l) [js "phone-43-55"]
               (items (detectSensitiveInfo scenarioA)))))
    (snd (Modal.handleReplaceAllAndSend scenarioA
            (fold_left (fun l i => toggleItem i l) [js "phone-43-55"]
               (items (detectSensitiveInfo scenarioA))))) = scenarioA.
Proof.
  assert (H : forall it, In it (items (detectSensitiveInfo scenarioA)) ->
     includes scenarioA (replacement it) = false /\ no_dollar (original it) = true).
  { assert (E : items (detectSensitiveInfo scenarioA) =
                [scenarioA_email; scenarioA_phone]) by (vm_compute; reflexivity).
    rewrite E. intros it [<- | [<- | []]]; vm_compute; split; reflexivity. }
  split; [exact H | exact (X13_round_trip_after_toggles scenarioA _ H)].
Defined.

(** ** The reveal state of a view *)

Lemma restore_not_mappable (text : jsstring) (mapping : ReplacementMapping) :
  hasMappablePlaceholders text mapping = false ->
  (forall k, In k (map fst mapping) -> k <> []) ->
  restoreOriginals text mapping = text.
Proof.
  intros Hgate Hkeys. apply restore_absent. intros k Hk.
  destruct text as [|c text].
  - specialize (Hkeys k Hk). destruct k; [contradiction | reflexivity].
  - unfold hasMappablePlaceholders in Hgate.
    apply (proj2 (keys_in _ _ _)) in Hk.
    change (length (c :: text) =? 0) with false in Hgate. simpl orb in Hgate.
    destruct (length (Obj.keys mapping) =? 0) eqn:E.
    + apply Nat.eqb_eq in E. destruct (Obj.keys mapping); [contradiction | discriminate].
    + destruct (includes (c :: text) k) eqn:Ek; [|reflexivity].
      assert (Hex : existsb (fun ph => includes (c :: text) ph) (Obj.keys mapping) = true).
      { apply existsb_exists. now exists k. }
      congruence.
Qed.

Lemma build_keys_bracketed (l : list SensitiveItem) (k : jsstring) :
  (forall it, In it l -> ignored it = false -> bracketed (replacement it) = true) ->
  In k (map fst (buildReplacementMapping l)) -> bracketed k = true.
Proof.
  intros H Hk. apply in_map_iff in Hk as ([k' v] & <- & Hkv).
  rewrite buildReplacementMapping_fold in Hkv.
  apply build_in in Hkv as [[] | (it & H1 & H2 & H3)].
  injection H3 as -> ->. now apply H.
Qed.

(** X14.  In a view that holds the mapping of a confirmed review, the text
    the review handed over is shown as it is until the user asks to reveal,
    and as the original text after that, for an item list whose active
    items can be restored; a second toggle hides it again. *)
Theorem X14_view_reveals_original (text : jsstring) (l : list SensitiveItem)
    (s : ReplacementDisplay.State)
    (Hl : restorable text (filter (fun item => negb (ignored item)) l)) :
  ReplacementDisplay.getDisplayContent
    (ReplacementDisplay.applyGuardrailMapping (buildReplacementMapping l) s)
    (applyReplacements text l) = applyReplacements text l /\
  ReplacementDisplay.getDisplayContent
    (ReplacementDisplay.toggleRevealed
       (ReplacementDisplay.applyGuardrailMapping (buildReplacementMapping l) s))
    (applyReplacements text l) = text /\
  ReplacementDisplay.getDisplayContent
    (ReplacementDisplay.toggleRevealed
       (ReplacementDisplay.toggleRevealed
          (ReplacementDisplay.applyGuardrailMapping (buildReplacementMapping l) s)))
    (applyReplacements text l) = applyReplacements text l.
Proof.
  unfold ReplacementDisplay.getDisplayContent, ReplacementDisplay.toggleRevealed,
    ReplacementDisplay.applyGuardrailMapping, ReplacementDisplay.setRevealed,
    ReplacementDisplay.setReplacementMapping.
  simpl. rewrite !andb_false_r, andb_true_r.
  split; [reflexivity | split; [|reflexivity]].
  pose proof (restore_active text l Hl) as E.
  destruct (hasMappablePlaceholders (applyReplacements text l)
              (buildReplacementMapping l)) eqn:G; [exact E|].
  rewrite <- E at 2. symmetry. apply restore_not_mappable; [exact G|].
  intros k Hk. apply bracketed_not_nil.
  apply (build_keys_bracketed l k); [|exact Hk].
  intros it Hit Hact. apply (rs_bracketed Hl).
  apply filter_In. split; [exact Hit | now rewrite Hact].
Qed.

Lemma X14_view_reveals_original_witness :
  restorable scenarioA
    (filter (fun item => negb (ignored item))
       [scenarioA_email; flip_ignored scenarioA_phone]) /\
  ReplacementDisplay.getDisplayContent
    (ReplacementDisplay.toggleRevealed
       (ReplacementDisplay.applyGuardrailMapping
          (buildReplacementMapping [scenarioA_email; flip_ignored scenarioA_phone])
          ReplacementDisplay.initial))
    (applyReplacements scenarioA [scenarioA_email; flip_ignored scenarioA_phone])
  = scenarioA.
Proof.
  assert (R : restorable scenarioA
                (filter (fun item => negb (ignored item))
                   [scenarioA_email; flip_ignored scenarioA_phone])).
  { constructor.
    - intros it [<- | []]; reflexivity.
    - simpl. vm_compute. repeat split; lia.
    - intros it [<- | []]; vm_compute; reflexivity.
    - intros it [<- | []]; vm_compute; reflexivity.
    - intros it [<- | []]; vm_compute; reflexivity.
    - simpl. constructor; [intros [] | constructor].
    - intros it [<- | []]; vm_compute; reflexivity. }
  split; [exact R|].
  exact (proj1 (proj2 (X14_view_reveals_original scenarioA _
                         ReplacementDisplay.initial R))).
Defined.

(** ** The chat view *)

Lemma has_spec (s : list jsstring) (x : jsstring) :
  ChatView.has s x = true <-> In x s.
Proof.
  unfold ChatView.has. rewrite existsb_exists. split.
  - intros (y & Hy & E). apply str_eqb_eq in E. now subst.
  - intros H. exists x. split; [exact H | apply str_eqb_refl].
Qed.

Lemma has_toggle (s : list jsstring) (i x : jsstring) :
  ChatView.has (ChatView.toggleRevealMapped i s) x =
  if str_eqb x i then negb (ChatView.has s i) else ChatView.has s x.
Proof.
  unfold ChatView.toggleRevealMapped.
  destruct (ChatView.has s i) eqn:Hi.
  - unfold ChatView.delete.
    destruct (str_eqb x i) eqn:Ex.
    + apply str_eqb_eq in Ex. subst x. simpl.
      destruct (ChatView.has (filter _ s) i) eqn:E; [|reflexivity].
      apply has_spec, filter_In in E as [_ E]. now rewrite str_eqb_refl in E.
    + destruct (ChatView.has s x) eqn:Hx.
      * apply has_spec. apply filter_In. split; [now apply has_spec|].
        now rewrite Ex.
      * destruct (ChatView.has (filter _ s) x) eqn:E; [|reflexivity].
        apply has_spec, filter_In in E as [E _]. apply has_spec in E. congruence.
  - unfold ChatView.add. rewrite Hi. unfold ChatView.has. rewrite existsb_app.
    fold (ChatView.has s x). simpl. rewrite orb_false_r.
    destruct (str_eqb x i) eqn:Ex.
    + simpl. apply orb_true_r.
    + apply orb_false_r.
Qed.

(** X15.  Toggling the reveal of one message changes whether that message
    is revealed and nothing else: every message with another identifier is
    shown as before, and a second toggle shows every message as before. *)
Theorem X15_reveal_is_per_message (replacementMappings : ReplacementMapping)
    (revealedMessageIds : list jsstring) (messageId : jsstring) (msg : Message)
    (Hother : msg_id msg <> messageId) :
  ChatView.getDisplayContent replacementMappings
    (ChatView.toggleRevealMapped messageId revealedMessageIds) msg =
  ChatView.getDisplayContent replacementMappings revealedMessageIds msg /\
  ChatView.has (ChatView.toggleRevealMapped messageId revealedMessageIds) messageId =
  negb (ChatView.has revealedMessageIds messageId) /\
  (forall other : Message,
     ChatView.getDisplayContent replacementMappings
       (ChatView.toggleRevealMapped messageId
          (ChatView.toggleRevealMapped messageId revealedMessageIds)) other =
     ChatView.getDisplayContent replacementMappings revealedMessageIds other).
Proof.
  split; [|split].
  - unfold ChatView.getDisplayContent. rewrite has_toggle.
    apply str_eqb_neq in Hother. now rewrite Hother.
  - rewrite has_toggle. now rewrite str_eqb_refl.
  - intros other. unfold ChatView.getDisplayContent. rewrite !has_toggle.
    rewrite str_eqb_refl.
    destruct (str_eqb (msg_id other) messageId) eqn:E; [|reflexivity].
    apply str_eqb_eq in E. rewrite E. now rewrite negb_involutive.
Qed.

Lemma X15_reveal_is_per_message_witness :
  msg_id (mkMessage (js "m1") assistant (js "Write to [EMAIL_1]") 0 None None)
    <> js "m2" /\
  ChatView.getDisplayContent [(js "[EMAIL_1]", js "a@b.co")]
    (ChatView.toggleRevealMapped (js "m2") [js "m1"])
    (mkMessage (js "m1") assistant (js "Write to [EMAIL_1]") 0 None None) =
  ChatView.getDisplayContent [(js "[EMAIL_1]", js "a@b.co")] [js "m1"]
    (mkMessage (js "m1") assistant (js "Write to [EMAIL_1]") 0 None None).
Proof.
  assert (H : msg_id (mkMessage (js "m1") assistant (js "Write to [EMAIL_1]") 0
                        None None) <> js "m2") by discriminate.
  split; [exact H|].
  exact (proj1 (X15_reveal_is_per_message _ [js "m1"] (js "m2") _ H)).
Defined.

Lemma trim_blank_nil : ChatView.trim [] = [].
Proof. reflexivity. Qed.

Lemma toggled_bracketed (text : jsstring) (toggles : list jsstring) (x : SensitiveItem) :
  In x (fold_left (fun l i => toggleItem i l) toggles (items (detectSensitiveInfo text))) ->
  bracketed (replacement x) = true.
Proof.
  destruct (toggles_as_map toggles (items (detectSensitiveInfo text))) as [g ->].
  intros H. apply in_map_iff in H as (a & <- & Ha).
  apply (detect_bracketed text) in Ha. now destruct (g (id a)).
Qed.

Lemma no_keys_all_ignored (l : list SensitiveItem) :
  (forall x, In x l -> bracketed (replacement x) = true) ->
  length (Obj.keys (buildReplacementMapping l)) = 0 ->
  forall x, In x l -> ignored x = true.
Proof.
  intros Hb Hk x Hx. destruct (ignored x) eqn:E; [reflexivity|].
  assert (Hin : In (replacement x) (Obj.keys (buildReplacementMapping l))).
  { apply (proj2 (keys_in _ _ _)). rewrite buildReplacementMapping_fold.
    apply build_keys; [exact Hx | exact E |].
    apply bracketed_not_proto. now apply Hb. }
  destruct (Obj.keys (buildReplacementMapping l)); [contradiction | discriminate].
Qed.

Lemma user_message_display (newId : jsstring) (now : nat) (a : jsstring)
    (m : ReplacementMapping) (o : jsstring) (msg : Message)
    (R : ReplacementMapping) (S : list jsstring) :
  ChatView.userMessage newId now a m o = Some msg ->
  o <> [] ->
  (length (Obj.keys m) = 0 -> a = o) ->
  ChatView.getDisplayContent R S msg = o /\ content msg = a /\ role msg = user.
Proof.
  unfold ChatView.userMessage. intros H Ho Ha.
  destruct (length (ChatView.trim a) =? 0); [discriminate|].
  injection H as <-. unfold ChatView.getDisplayContent. simpl.
  split; [|split; reflexivity].
  destruct (length (Obj.keys m)) eqn:E; simpl.
  - now apply Ha.
  - destruct o; [contradiction | reflexivity].
Qed.

(** X16.  The message a send puts into the conversation is shown to the
    user as the text they typed, whether the text went out directly, or
    through the review dialog with any toggles and either of its two send
    buttons; its content is the text that was sent out. *)
Theorem X16_user_sees_typed_text (input : jsstring) (toggles : list jsstring)
    (newId : jsstring) (now : nat) (replacementMappings : ReplacementMapping)
    (revealedMessageIds : list jsstring)
    (a : jsstring) (m : ReplacementMapping) (o : jsstring) (msg : Message)
    (Hsend :
       ChatView.handleSend input false = ChatView.SendToAPI a m o \/
       (ChatView.handleSend input false =
          ChatView.OpenGuardrail input (items (detectSensitiveInfo input)) /\
        (ChatView.handleGuardrailConfirm (Some input)
           (fst (Modal.handleReplaceAllAndSend input
                   (fold_left (fun l i => toggleItem i l) toggles
                      (items (detectSensitiveInfo input)))))
           (snd (Modal.handleReplaceAllAndSend input
                   (fold_left (fun l i => toggleItem i l) toggles
                      (items (detectSensitiveInfo input)))))
         = ChatView.SendToAPI a m o \/
         ChatView.handleGuardrailConfirm (Some input)
           (fst (Modal.handleSendWithoutChanges input))
           (snd (Modal.handleSendWithoutChanges input))
         = ChatView.SendToAPI a m o)))
    (Hmsg : ChatView.userMessage newId now a m o = Some msg) :
  ChatView.getDisplayContent replacementMappings revealedMessageIds msg = input /\
  content msg = a /\ role msg = user.
Proof.
  assert (Hne : forall x, ChatView.handleSend input false = x ->
                  x <> ChatView.Nothing -> input <> []).
  { intros x Hx Hn ->. apply Hn. rewrite <- Hx. reflexivity. }
  assert (Hor : input <> [] -> forall p, ChatView.or_else (Some input) p = input).
  { intros Hi p. destruct input; [contradiction | reflexivity]. }
  destruct Hsend as [H | [Hopen [H | H]]].
  - pose proof (Hne _ H ltac:(discriminate)) as Hi.
    unfold ChatView.handleSend in H.
    destruct ((length (ChatView.trim input) =? 0) || false); [discriminate|].
    destruct (hasSensitiveInfo (detectSensitiveInfo input)); [discriminate|].
    injection H as <- <- <-.
    apply (user_message_display _ _ _ _ _ _ _ _ Hmsg Hi). reflexivity.
  - pose proof (Hne _ Hopen ltac:(discriminate)) as Hi.
    unfold ChatView.handleGuardrailConfirm in H. rewrite (Hor Hi) in H.
    injection H as <- <- <-.
    apply (user_message_display _ _ _ _ _ _ _ _ Hmsg Hi).
    intros Hk. unfold Modal.handleReplaceAllAndSend. cbn [fst].
    apply applyReplacements_ignored.
    apply no_keys_all_ignored; [|exact Hk].
    intros x Hx. now apply (toggled_bracketed input toggles).
  - pose proof (Hne _ Hopen ltac:(discriminate)) as Hi.
    unfold ChatView.handleGuardrailConfirm in H. rewrite (Hor Hi) in H.
    injection H as <- <- <-.
    apply (user_message_display _ _ _ _ _ _ _ _ Hmsg Hi). reflexivity.
Qed.

Lemma X16_user_sees_typed_text_witness :
  exists a m o msg,
    ChatView.userMessage (js "m1") 7 a m o = Some msg /\
    content msg = js "Contact me at [EMAIL_1] or call 415-555-0199" /\
    ChatView.getDisplayContent [] [] msg = scenarioA.
Proof.
  pose (l := fold_left (fun l i => toggleItem i l) [js "phone-43-55"]
               (items (detectSensitiveInfo scenarioA))).
  pose (a := fst (Modal.handleReplaceAllAndSend scenarioA l)).
  pose (m := snd (Modal.handleReplaceAllAndSend scenarioA l)).
  pose (msg := mkMessage (js "m1") user a 7 (Some scenarioA) None).
  assert (H1 : ChatView.handleSend scenarioA false =
               ChatView.OpenGuardrail scenarioA (items (detectSensitiveInfo scenarioA)))
    by (vm_compute; reflexivity).
  assert (H2 : ChatView.handleGuardrailConfirm (Some scenarioA) a m =
               ChatView.SendToAPI a m scenarioA) by reflexivity.
  assert (H3 : ChatView.userMessage (js "m1") 7 a m scenarioA = Some msg)
    by (vm_compute; reflexivity).
  exists a, m, scenarioA, msg.
  split; [exact H3|].
  split; [vm_compute; reflexivity|].
  exact (proj1 (X16_user_sees_typed_text scenarioA [js "phone-43-55"] (js "m1") 7
                  [] [] a m scenarioA msg
                  (or_intror (conj H1 (or_introl H2))) H3)).
Defined.

Lemma findIndex_spec (i : jsstring) (messages : list Message) (n : nat) :
  ChatView.findIndex i messages = Some n ->
  (exists m, nth_error messages n = Some m /\ msg_id m = i) /\
  (forall k m, k < n -> nth_error messages k = Some m -> msg_id m <> i).
Proof.
  revert n. induction messages as [|m0 ms IH]; intros n H; [discriminate|].
  simpl in H. destruct (str_eqb (msg_id m0) i) eqn:E.
  - injection H as <-. apply str_eqb_eq in E. split; [now exists m0 | lia].
  - destruct (ChatView.findIndex i ms) as [n'|]; [|discriminate].
    injection H as <-. destruct (IH n' eq_refl) as [H1 H2]. split; [exact H1|].
    intros k m Hk Hm. destruct k as [|k].
    + injection Hm as <-. now apply str_eqb_neq.
    + apply (H2 k m); [lia | exact Hm].
Qed.

Lemma lastUserBefore_spec (messages : list Message) (n : nat) (t : jsstring) :
  ChatView.lastUserBefore n messages = Some t ->
  exists j m, j < n /\ nth_error messages j = Some m /\ role m = user /\
    t = ChatView.or_else (originalContent m) (content m) /\
    (forall k m', j < k -> k < n -> nth_error messages k = Some m' ->
       role m' = assistant).
Proof.
  induction n as [|n IH]; intros H; [discriminate|].
  simpl in H. destruct (nth_error messages n) as [m|] eqn:En.
  - destruct (role m) eqn:Er; simpl in H.
    + injection H as <-. exists n, m. repeat split; auto; lia.
    + destruct (IH H) as (j & m1 & H1 & H2 & H3 & H4 & H5).
      exists j, m1. repeat split; auto.
      intros k m' Hk1 Hk2 Hm'. destruct (Nat.eq_dec k n) as [-> | Hkn].
      * congruence.
      * apply (H5 k m'); [lia | lia | exact Hm'].
  - discriminate H.
Qed.

(** X17.  What "Try again" on an error message puts into the input is the
    text of the nearest user message before the first message with the
    identifier of the error, as that message is shown to the user; every
    message between the two is a message of the assistant. *)
Theorem X17_retry_nearest_user_message (errorMessageId : jsstring)
    (messages : list Message) (t : jsstring)
    (Hretry : ChatView.handleRetry errorMessageId messages = Some t) :
  exists errorIndex j m,
    ChatView.findIndex errorMessageId messages = Some errorIndex /\
    j < errorIndex /\ nth_error messages j = Some m /\ role m = user /\
    t = ChatView.getDisplayContent [] [] m /\
    (forall k m', j < k -> k < errorIndex -> nth_error messages k = Some m' ->
       role m' = assistant) /\
    (forall k m', k < errorIndex -> nth_error messages k = Some m' ->
       msg_id m' <> errorMessageId).
Proof.
  unfold ChatView.handleRetry in Hretry.
  destruct (ChatView.findIndex errorMessageId messages) as [n|] eqn:E; [|discriminate].
  destruct n as [|n]; [discriminate|].
  destruct (lastUserBefore_spec _ _ _ Hretry) as (j & m & H1 & H2 & H3 & H4 & H5).
  destruct (findIndex_spec _ _ _ E) as [_ H6].
  exists (S n), j, m. repeat split; auto.
  unfold ChatView.getDisplayContent. now rewrite H3.
Qed.

Lemma X17_retry_nearest_user_message_witness :
  ChatView.handleRetry (js "m3")
    [ mkMessage (js "m1") user (js "Write to [EMAIL_1]") 1 (Some (js "Write to a@b.co")) None;
      mkMessage (js "m2") assistant (js "Done") 2 None None;
      mkMessage (js "m3") assistant (js "Something went wrong") 3 None (Some true) ]
  = Some (js "Write to a@b.co") /\
  exists errorIndex j m,
    ChatView.findIndex (js "m3")
      [ mkMessage (js "m1") user (js "Write to [EMAIL_1]") 1 (Some (js "Write to a@b.co")) None;
        mkMessage (js "m2") assistant (js "Done") 2 None None;
        mkMessage (js "m3") assistant (js "Something went wrong") 3 None (Some true) ]
    = Some errorIndex /\ j < errorIndex /\ role m = user.
Proof.
  assert (H : ChatView.handleRetry (js "m3")
    [ mkMessage (js "m1") user (js "Write to [EMAIL_1]") 1 (Some (js "Write to a@b.co")) None;
      mkMessage (js "m2") assistant (js "Done") 2 None None;
      mkMessage (js "m3") assistant (js "Something went wrong") 3 None (Some true) ]
    = Some (js "Write to a@b.co")) by (vm_compute; reflexivity).
  split; [exact H|].
  destruct (X17_retry_nearest_user_message _ _ _ H)
    as (errorIndex & j & m & H1 & H2 & _ & H3 & _).
  exists errorIndex, j, m. split; [exact H1 | split; [exact H2 | exact H3]].
Defined.

(** ** The conversations *)


Lemma has_id_spec (x : jsstring) (l : list Conversation) :
  Conversations.has_id x l = true <-> exists c, In c l /\ conv_id c = x.
Proof.
  unfold Conversations.has_id. rewrite existsb_exists. split.
  - intros (c & Hc & E). apply str_eqb_eq in E. now exists c.
  - intros (c & Hc & E). exists c. split; [exact Hc|]. rewrite E. apply str_eqb_refl.
Qed.

Lemma first_id_has (l : list Conversation) (x : jsstring) :
  Conversations.first_id l = Some x -> Conversations.has_id x l = true.
Proof.
  destruct l as [|c l]; [discriminate|]. intros H. injection H as <-.
  simpl. now rewrite str_eqb_refl.
Qed.









Lemma find_map_id (f : Conversation -> Conversation) (x : jsstring)
    (l : list Conversation) :
  (forall c, conv_id (f c) = conv_id c) ->
  find (fun c => str_eqb (conv_id c) x) (map f l) =
  option_map f (find (fun c => str_eqb (conv_id c) x) l).
Proof.
  intros H. induction l as [|c l IH]; [reflexivity|].
  simpl. rewrite H. destruct (str_eqb (conv_id c) x); [reflexivity | exact IH].
Qed.

Lemma has_id_find (x : jsstring) (l : list Conversation) :
  Conversations.has_id x l = true ->
  exists c, find (fun c => str_eqb (conv_id c) x) l = Some c /\ conv_id c = x.
Proof.
  induction l as [|c l IH]; [discriminate|]. simpl.
  destruct (str_eqb (conv_id c) x) eqn:E.
  - intros _. exists c. split; [reflexivity | now apply str_eqb_eq].
  - exact IH.
Qed.

(** X19.  In a consistent state [addMessage] never drops a message: after
    it the current conversation ends with the message.  It gives every
    conversation it had the mapping it had, and a conversation it creates
    the empty mapping; and it leaves every conversation with another
    identifier than the current one as it was. *)
Theorem X19_addMessage_appends (message : Message) (newId : jsstring) (now : nat)
    (st : Conversations.State) (Hst : consistent st) :
  (exists c earlier,
     Conversations.currentConversation
       (Conversations.addMessage message newId now st) = Some c /\
     messages c = earlier ++ [message]) /\
  map replacementMappings
    (Conversations.conversations (Conversations.addMessage message newId now st)) =
  (if Conversations.truthy (Conversations.currentId st) then [] else [[]]) ++
  map replacementMappings (Conversations.conversations st) /\
  (forall c, In c (Conversations.conversations st) ->
     Some (conv_id c) <>
       Conversations.currentId (Conversations.addMessage message newId now st) ->
     In c (Conversations.conversations
             (Conversations.addMessage message newId now st))).
Proof.
  destruct Hst as (H1 & H2 & H3).
  unfold Conversations.addMessage, Conversations.currentConversation.
  destruct (Conversations.truthy (Conversations.currentId st)) eqn:Et; cbn [fst snd].
  - destruct (Conversations.currentId st) as [x|] eqn:Ex; [|discriminate].
    simpl. split; [|split].
    + rewrite find_map_id by (intros c; now destruct (negb _)).
      destruct (has_id_find x _ H3) as (c & Hc & Hx). rewrite Hc. simpl.
      rewrite Hx, str_eqb_refl. simpl. eexists. eexists. split; reflexivity.
    + rewrite map_map. apply map_ext. intros c. now destruct (negb _).
    + intros c Hc Hne. apply in_map_iff. exists c. split; [|exact Hc].
      destruct (str_eqb (conv_id c) x) eqn:E; [|reflexivity].
      apply str_eqb_eq in E. congruence.
  - simpl. repeat (rewrite str_eqb_refl; simpl). split; [|split].
    + eexists. exists []. split; reflexivity.
    + f_equal. rewrite map_map. apply map_ext. intros c. now destruct (negb _).
    + intros c Hc Hne. right. apply in_map_iff. exists c. split; [|exact Hc].
      destruct (str_eqb (conv_id c) newId) eqn:E; [|reflexivity].
      apply str_eqb_eq in E. congruence.
Qed.

Lemma X19_addMessage_appends_witness :
  consistent (Conversations.mkContext [] None [] None) /\
  exists c earlier,
    Conversations.currentConversation
      (Conversations.addMessage
         (mkMessage (js "m1") user (js "hello") 1 None None) (js "c1") 1
         (Conversations.mkContext [] None [] None)) = Some c /\
    messages c = earlier ++ [mkMessage (js "m1") user (js "hello") 1 None None].
Proof.
  assert (H : consistent (Conversations.mkContext [] None [] None)).
  { split; [constructor | split; [reflexivity | exact I]]. }
  split; [exact H | exact (proj1 (X19_addMessage_appends _ (js "c1") 1 _ H))].
Defined.

(** X20.  The title derived from a first message has at most 63 code units,
    it starts with the first 60 of the message, and it is the message
    itself when that has at most 60. *)
Theorem X20_derived_title_bounded (text : jsstring) :
  length (Conversations.derivedTitle text) <= 63 /\
  firstn 60 (Conversations.derivedTitle text) = firstn 60 text /\
  (length text <= 60 -> Conversations.derivedTitle text = text) /\
  (60 < length text ->
   Conversations.derivedTitle text = firstn 60 text ++ js "...").
Proof.
  unfold Conversations.derivedTitle.
  destruct (60 <? length text) eqn:E.
  - apply Nat.ltb_lt in E. split; [|split; [|split]].
    + rewrite length_app, length_firstn.
      change (length (js "...")) with 3. lia.
    + rewrite firstn_app, firstn_firstn, Nat.min_id, length_firstn.
      replace (60 - Nat.min 60 (length text)) with 0 by lia.
      rewrite firstn_O. apply app_nil_r.
    + lia.
    + reflexivity.
  - apply Nat.ltb_ge in E. rewrite app_nil_r. split; [|split; [|split]].
    + rewrite length_firstn. lia.
    + now rewrite firstn_firstn, Nat.min_id.
    + intros _. now apply firstn_all2.
    + lia.
Qed.

Lemma filter_out_id (i : jsstring) (l : list Conversation) :
  Conversations.has_id i
    (filter (fun c => negb (str_eqb (conv_id c) i)) l) = false.
Proof.
  destruct (Conversations.has_id i _) eqn:E; [|reflexivity].
  apply has_id_spec in E as (c & Hc & Hi). apply filter_In in Hc as [_ Hc].
  now rewrite Hi, str_eqb_refl in Hc.
Qed.

Lemma has_id_incl (i : jsstring) (l l' : list Conversation) :
  (forall c, In c l' -> In c l) ->
  Conversations.has_id i l = false -> Conversations.has_id i l' = false.
Proof.
  intros Hsub H. destruct (Conversations.has_id i l') eqn:E; [|reflexivity].
  apply has_id_spec in E as (c & Hc & Hi).
  assert (Conversations.has_id i l = true) by (apply has_id_spec; exists c; auto).
  congruence.
Qed.

(** X21.  After [deleteConversation] no conversation of the state or of the
    store has the identifier, it is neither the current identifier nor the
    stored one, and the conversations with other identifiers are those the
    state had. *)
Theorem X21_delete_removes (i : jsstring) (st : Conversations.State) :
  Conversations.has_id i
    (Conversations.conversations (Conversations.deleteConversation i st)) = false /\
  Conversations.has_id i
    (Conversations.savedConversations (Conversations.deleteConversation i st)) = false /\
  Conversations.currentId (Conversations.deleteConversation i st) <> Some i /\
  Conversations.savedCurrentId (Conversations.deleteConversation i st) <> Some i /\
  (forall c, conv_id c <> i ->
     (In c (Conversations.conversations (Conversations.deleteConversation i st)) <->
      In c (Conversations.conversations st))).
Proof.
  unfold Conversations.deleteConversation, Conversations.commit, Conversations.persist.
  cbn [Conversations.conversations Conversations.savedConversations
       Conversations.currentId Conversations.savedCurrentId fst snd].
  set (next := filter (fun c => negb (str_eqb (conv_id c) i))
                 (Conversations.conversations st)).
  set (toSave := filter (fun c => negb (length (messages c) =? 0)) next).
  assert (N1 : Conversations.has_id i next = false) by apply filter_out_id.
  assert (N2 : Conversations.has_id i toSave = false).
  { apply (has_id_incl i next); [|exact N1].
    intros c Hc. now apply filter_In in Hc. }
  assert (F : forall l, Conversations.has_id i l = false ->
                Conversations.first_id l <> Some i).
  { intros l Hl E. apply first_id_has in E. congruence. }
  split; [exact N1 | split; [exact N2 | split; [|split]]].
  - destruct (Conversations.currentId st) as [x|]; [|discriminate].
    destruct (str_eqb x i) eqn:E; [now apply F|].
    apply str_eqb_neq in E. congruence.
  - match goal with
    | |- match ?n with _ => _ end <> _ => destruct n as [y|] eqn:En
    end; [|now apply F].
    destruct (Conversations.truthy (Some y) && Conversations.has_id y toSave) eqn:Ey;
      [|now apply F].
    apply andb_true_iff in Ey as [_ Ey]. intros E. injection E as ->. congruence.
  - intros c Hc. unfold next. rewrite filter_In. split; [now intros [H _]|].
    intros H. split; [exact H|]. apply negb_true_iff. now apply str_eqb_neq.
Qed.

(** X22.  Selecting a conversation the state has makes it the current one,
    and selecting removes no conversation but such as have the identifier
    of the conversation that was current. *)
Theorem X22_select_makes_current (i : jsstring) (st : Conversations.State)
    (Hi : Conversations.has_id i (Conversations.conversations st) = true) :
  Conversations.currentId (Conversations.selectConversation i st) = Some i /\
  (exists c, Conversations.currentConversation
               (Conversations.selectConversation i st) = Some c /\ conv_id c = i) /\
  (forall c, In c (Conversations.conversations st) ->
     Some (conv_id c) <> Conversations.currentId st ->
     In c (Conversations.conversations (Conversations.selectConversation i st))).
Proof.
  pose (next := match Conversations.currentConversation st with
               | Some c =>
                   if (length (messages c) =? 0) && negb (str_eqb i (conv_id c))
                   then filter (fun c' => negb (str_eqb (conv_id c') (conv_id c)))
                          (Conversations.conversations st)
                   else Conversations.conversations st
               | None => Conversations.conversations st
               end).
  assert (E : Conversations.selectConversation i st =
              Conversations.commit next
                (if Conversations.has_id i next then Some i
                 else Conversations.first_id next)) by reflexivity.
  rewrite E. clear E.
  assert (K : forall c, In c (Conversations.conversations st) ->
                Some (conv_id c) <> Conversations.currentId st \/ conv_id c = i ->
                In c next).
  { intros c Hc Hor. unfold next.
    destruct (Conversations.currentConversation st) as [cur|] eqn:Ecur; [|exact Hc].
    destruct ((length (messages cur) =? 0) && negb (str_eqb i (conv_id cur))) eqn:E;
      [|exact Hc].
    apply andb_true_iff in E as [E1 E2]. apply filter_In. split; [exact Hc|].
    apply negb_true_iff. apply str_eqb_neq. intros Eid.
    apply negb_true_iff, str_eqb_neq in E2.
    destruct Hor as [Hne | Hid]; [|congruence].
    unfold Conversations.currentConversation in Ecur.
    destruct (Conversations.currentId st) as [x|]; [|discriminate].
    apply find_some in Ecur as [_ Ex]. apply str_eqb_eq in Ex. congruence. }
  assert (N : Conversations.has_id i next = true).
  { apply has_id_spec in Hi as (c & Hc & Ec). apply has_id_spec.
    exists c. split; [|exact Ec]. apply K; [exact Hc | now right]. }
  rewrite N. split; [reflexivity | split].
  - change (Conversations.currentConversation (Conversations.commit next (Some i)))
      with (find (fun c => str_eqb (conv_id c) i) next).
    now apply has_id_find.
  - intros c Hc Hm. apply K; [exact Hc | now left].
Qed.

Lemma X22_select_makes_current_witness :
  Conversations.has_id (js "c1")
    (Conversations.conversations
       (Conversations.mkContext
          [mkConversation (js "c1") (js "hello")
             [mkMessage (js "m1") user (js "hello") 1 None None] 1 1 []]
          None [] None)) = true /\
  Conversations.currentId
    (Conversations.selectConversation (js "c1")
       (Conversations.mkContext
          [mkConversation (js "c1") (js "hello")
             [mkMessage (js "m1") user (js "hello") 1 None None] 1 1 []]
          None [] None)) = Some (js "c1").
Proof.
  assert (H : Conversations.has_id (js "c1")
    (Conversations.conversations
       (Conversations.mkContext
          [mkConversation (js "c1") (js "hello")
             [mkMessage (js "m1") user (js "hello") 1 None None] 1 1 []]
          None [] None)) = true) by reflexivity.
  split; [exact H | exact (proj1 (X22_select_makes_current _ _ H))].
Defined.

(** ** The retry loop of the chat route *)

Lemma retry_from_spec (call : nat -> ChatRoute.Outcome) :
  forall left attempt,
  1 <= ChatRoute.calls (ChatRoute.retry_from left attempt call) /\
  ChatRoute.calls (ChatRoute.retry_from left attempt call) <= S left /\
  ChatRoute.result (ChatRoute.retry_from left attempt call) =
    call (attempt + (ChatRoute.calls (ChatRoute.retry_from left attempt call) - 1)) /\
  (forall k, k < ChatRoute.calls (ChatRoute.retry_from left attempt call) - 1 ->
     exists e, call (attempt + k) = ChatRoute.Failed e /\
               ChatRoute.isRateLimitError e = true) /\
  ChatRoute.delays (ChatRoute.retry_from left attempt call) =
    match attempt with
    | 0 => []
    | S k => [(ChatRoute.BASE_DELAY_MS * 2 ^ N.of_nat k)%N]
    end ++
    map (fun k => (ChatRoute.BASE_DELAY_MS * 2 ^ N.of_nat k)%N)
      (seq attempt (ChatRoute.calls (ChatRoute.retry_from left attempt call) - 1)) /\
  (forall e, ChatRoute.result (ChatRoute.retry_from left attempt call) =
               ChatRoute.Failed e ->
     ChatRoute.isRateLimitError e = true ->
     ChatRoute.calls (ChatRoute.retry_from left attempt call) = S left).
Proof.
  induction left as [|left IH]; intros attempt; simpl.
  - destruct (call attempt) as [response | error] eqn:Ec; one_call Ec.
    + intros e He. discriminate He.
    + intros e _ _. reflexivity.
  - destruct (call attempt) as [response | error] eqn:Ec.
    + one_call Ec. intros e He. discriminate He.
    + destruct (ChatRoute.isRateLimitError error) eqn:Er; simpl negb; cbv iota.
      * destruct (IH (S attempt)) as (H1 & H2 & H3 & H4 & H5 & H6).
        set (rest := ChatRoute.retry_from left (S attempt) call) in *.
        simpl. rewrite Nat.sub_0_r.
        split; [lia | split; [lia | split; [|split; [|split]]]].
        -- rewrite H3. f_equal. lia.
        -- intros k Hk. destruct k as [|k].
           ++ exists error. rewrite Nat.add_0_r. now split.
           ++ destruct (H4 k ltac:(lia)) as (e & He1 & He2).
              exists e. split; [|exact He2]. rewrite <- He1. f_equal. lia.
        -- rewrite H5. f_equal.
           replace (ChatRoute.calls rest) with (S (ChatRoute.calls rest - 1)) at 2 by lia.
           reflexivity.
        -- intros e He Hr. f_equal. now apply (H6 e).
      * one_call Ec. intros e He Hr. injection He as <-. congruence.
Qed.

(** X23.  The retry loop of the chat route calls the model at least once
    and at most four times; its outcome is that of its last call; every
    call before the last failed with a rate-limit error; before its k-th
    retry it waits 5000 * 2^(k-1) milliseconds, at most 35 seconds in all;
    and when it fails with a rate-limit error it has made all four calls. *)
Theorem X23_retry_bounded (call : nat -> ChatRoute.Outcome) :
  1 <= ChatRoute.calls (ChatRoute.retry call) /\
  ChatRoute.calls (ChatRoute.retry call) <= 4 /\
  ChatRoute.result (ChatRoute.retry call) =
    call (ChatRoute.calls (ChatRoute.retry call) - 1) /\
  (forall k, k < ChatRoute.calls (ChatRoute.retry call) - 1 ->
     exists e, call k = ChatRoute.Failed e /\ ChatRoute.isRateLimitError e = true) /\
  ChatRoute.delays (ChatRoute.retry call) =
    map (fun k => (5000 * 2 ^ N.of_nat k)%N)
      (seq 0 (ChatRoute.calls (ChatRoute.retry call) - 1)) /\
  (fold_right N.add 0 (ChatRoute.delays (ChatRoute.retry call)) <= 35000)%N /\
  (forall e, ChatRoute.result (ChatRoute.retry call) = ChatRoute.Failed e ->
     ChatRoute.isRateLimitError e = true ->
     ChatRoute.calls (ChatRoute.retry call) = 4).
Proof.
  destruct (retry_from_spec call ChatRoute.MAX_RETRIES 0) as (H1 & H2 & H3 & H4 & H5 & H6).
  fold (ChatRoute.retry call) in *. simpl in H3, H5.
  split; [exact H1 | split; [exact H2 | split; [exact H3 | split; [exact H4|]]]].
  split; [exact H5 | split; [|exact H6]].
  rewrite H5. change ChatRoute.MAX_RETRIES with 3 in H2.
  destruct (ChatRoute.calls (ChatRoute.retry call)) as [|[|[|[|[|n]]]]];
    try lia; vm_compute; intros E; discriminate E.
Qed.

(** X24.  The chat route answers with status 429 only after four calls of
    the model, each of which failed with a rate-limit error, and after
    waiting 5, 10 and 20 seconds between them. *)
Theorem X24_too_many_requests_is_last (call : nat -> ChatRoute.Outcome)
    (Hstatus : ChatRoute.respond call = 429) :
  ChatRoute.calls (ChatRoute.retry call) = 4 /\
  ChatRoute.delays (ChatRoute.retry call) = [5000; 10000; 20000]%N /\
  (forall k, k < 4 -> exists e, call k = ChatRoute.Failed e /\
                                ChatRoute.isRateLimitError e = true).
Proof.
  destruct (retry_from_spec call ChatRoute.MAX_RETRIES 0) as (H1 & H2 & H3 & H4 & H5 & H6).
  fold (ChatRoute.retry call) in *. simpl in H3, H5.
  unfold ChatRoute.respond in Hstatus.
  destruct (ChatRoute.result (ChatRoute.retry call)) as [response | error] eqn:Er;
    [discriminate|].
  assert (Hrl : ChatRoute.isRateLimitError error = true).
  { destruct error; try discriminate Hstatus; try reflexivity.
    simpl in Hstatus. destruct (ChatRoute.test _ _); discriminate Hstatus. }
  pose proof (H6 error eq_refl Hrl) as Hc. change (S ChatRoute.MAX_RETRIES) with 4 in Hc.
  rewrite Hc in *. split; [reflexivity | split; [exact H5|]].
  intros k Hk. destruct (Nat.eq_dec k 3) as [-> | Hne].
  - exists error. split; [exact (eq_sym H3) | exact Hrl].
  - apply H4. simpl. lia.
Qed.

Lemma X24_too_many_requests_is_last_witness :
  ChatRoute.respond (fun _ => ChatRoute.Failed (ChatRoute.RateLimitError (js "slow down")))
    = 429 /\
  ChatRoute.calls
    (ChatRoute.retry
       (fun _ => ChatRoute.Failed (ChatRoute.RateLimitError (js "slow down")))) = 4.
Proof.
  assert (H : ChatRoute.respond
                (fun _ => ChatRoute.Failed (ChatRoute.RateLimitError (js "slow down")))
              = 429) by reflexivity.
  split; [exact H | exact (proj1 (X24_too_many_requests_is_last _ H))].
Defined.

(** ** What leaves the chat view *)

(** X25.  A text in which the expression for e-mail addresses has a match
    is never sent by [handleSend] itself: the result of detection has
    sensitive information, and the send either does nothing or opens the
    review dialog with the items of the result. *)
Theorem X25_email_never_sent_unreviewed (input : jsstring) (isLoading : bool)
    (m : nat * nat) (Hm : In m (exec_all Patterns.re_email input)) :
  hasSensitiveInfo (detectSensitiveInfo input) = true /\
  (ChatView.handleSend input isLoading = ChatView.Nothing \/
   ChatView.handleSend input isLoading =
     ChatView.OpenGuardrail input (items (detectSensitiveInfo input))) /\
  (forall a mapping o,
     ChatView.handleSend input isLoading <> ChatView.SendToAPI a mapping o).
Proof.
  destruct (email_match_scanned input m Hm) as (it & H1 & _).
  apply (proj2 (detect_items_in _ _)) in H1.
  assert (E : hasSensitiveInfo (detectSensitiveInfo input) = true).
  { change (hasSensitiveInfo (detectSensitiveInfo input))
      with (negb (length (items (detectSensitiveInfo input)) =? 0)).
    destruct (items (detectSensitiveInfo input)); [contradiction | reflexivity]. }
  split; [exact E|]. unfold ChatView.handleSend. rewrite E.
  destruct ((length (ChatView.trim input) =? 0) || isLoading).
  - split; [now left | discriminate].
  - split; [now right | discriminate].
Qed.

Lemma X25_email_never_sent_unreviewed_witness :
  In (14, 34) (exec_all Patterns.re_email scenarioA) /\
  hasSensitiveInfo (detectSensitiveInfo scenarioA) = true.
Proof.
  assert (H : In (14, 34) (exec_all Patterns.re_email scenarioA))
    by (vm_compute; left; reflexivity).
  split; [exact H | exact (proj1 (X25_email_never_sent_unreviewed scenarioA false _ H))].
Defined.

(** ** The length of a redaction *)

Lemma length_splice (text : jsstring) (l : list SensitiveItem) :
  forall from, from <= length text -> fits text from l ->
  length (splice text from l) +
    list_sum (map (fun it => endIndex it - startIndex it) l) =
  (length text - from) + list_sum (map (fun it => length (replacement it)) l).
Proof.
  induction l as [|it l IH]; intros from Hfrom H; simpl.
  - rewrite length_skipn. lia.
  - destruct H as (H1 & H2 & H3 & H4).
    specialize (IH (endIndex it) H3 H4).
    rewrite !length_app, length_firstn, length_skipn. lia.
Qed.

(** X27.  The anonymized text of a result is as long as the text, less the
    lengths of the ranges of the items, plus the lengths of their
    placeholders. *)
Theorem X27_redaction_length (text : jsstring) :
  length (anonymizedText (detectSensitiveInfo text)) +
    list_sum (map (fun it => endIndex it - startIndex it)
                (items (detectSensitiveInfo text))) =
  length text +
    list_sum (map (fun it => length (replacement it))
                (items (detectSensitiveInfo text))).
Proof.
  change (anonymizedText (detectSensitiveInfo text))
    with (applyReplacements text (items (detectSensitiveInfo text))).
  rewrite applyReplacements_splice by apply detect_fits.
  rewrite filter_all
    by (intros it Hit; now rewrite (detect_active text it Hit)).
  rewrite (length_splice text _ 0 (Nat.le_0_l _) (detect_fits text)). lia.
Qed.
